(** * n8n UI Builder: tree store, expression evaluator and action runner

    A shallow embedding of
      - [src/utils/evaluator.ts]    ([evaluateExpression]),
      - [src/store/editorStore.ts]  (the zustand store and its tree edits),
      - [src/utils/actionRunner.ts] ([runActions]),
      - [src/App.tsx]               (the editor's handlers),
      - [RecursiveRenderer]         (the computed props and label),
    followed by the properties of the specification that concern them.

    Conventions.  A JavaScript value of type [any] is a [value]; an object
    is an association list in insertion order; a string is a [string] of
    code units below 256; a [number] is an integer ([Z]), which is all the
    properties below ever compute with.  A call that can throw returns an
    [option], [None] being the exception.  [cloneDeep] is the identity on
    immutable Rocq data, so a store operation that returns [state] itself
    and one that returns a deep copy of it are the same function here. *)

From Stdlib Require Import String Ascii List ZArith Lia Bool Permutation.
From Stdlib Require Import Numbers.DecimalString.
Import ListNotations.
Open Scope string_scope.
Open Scope list_scope.
Set Warnings "-register-all".

(* ===================================================================== *)
(** * JavaScript values *)
(* ===================================================================== *)

Module JS.

Inductive value : Type :=
| VUndefined
| VNull
| VBool (b : bool)
| VNum (n : Z)
| VStr (s : string)
| VArr (xs : list value)
| VObj (kvs : list (string * value)).

(** An object literal: keys in insertion order, at most one entry per key
    for every object built by [set_key]. *)
Definition obj := list (string * value).

Fixpoint get_key (o : obj) (k : string) : option value :=
  match o with
  | [] => None
  | (k', v) :: o' => if String.eqb k' k then Some v else get_key o' k
  end.

Definition has_key (o : obj) (k : string) : bool :=
  match get_key o k with Some _ => true | None => false end.

(** [{ ...o, [k]: v }]: an existing key keeps its position, a new key is
    appended. *)
Fixpoint set_key (o : obj) (k : string) (v : value) : obj :=
  match o with
  | [] => [(k, v)]
  | (k', v') :: o' =>
      if String.eqb k' k then (k, v) :: o' else (k', v') :: set_key o' k v
  end.

(** [{ ...a, ...b }] *)
Definition spread (a b : obj) : obj :=
  fold_left (fun acc kv => set_key acc (fst kv) (snd kv)) b a.

Definition string_of_Z (n : Z) : string :=
  NilZero.string_of_int (Z.to_int n).

Definition string_of_nat (n : nat) : string := string_of_Z (Z.of_nat n).

Fixpoint join (sep : string) (l : list string) : string :=
  match l with
  | [] => EmptyString
  | [s] => s
  | s :: l' => (s ++ sep ++ join sep l')%string
  end.

(** [String(v)].  An array joins its elements with a comma, printing
    [null] and [undefined] elements as nothing. *)
Fixpoint String_ (v : value) : string :=
  match v with
  | VUndefined => "undefined"
  | VNull => "null"
  | VBool true => "true"
  | VBool false => "false"
  | VNum n => string_of_Z n
  | VStr s => s
  | VArr xs =>
      join ","
        ((fix elems (l : list value) : list string :=
            match l with
            | [] => []
            | VUndefined :: l' => EmptyString :: elems l'
            | VNull :: l' => EmptyString :: elems l'
            | x :: l' => String_ x :: elems l'
            end) xs)
  | VObj _ => "[object Object]"
  end.

(** Truthiness, as tested by [if (v)], [v || d] and [v && w]. *)
Definition truthy (v : value) : bool :=
  match v with
  | VUndefined | VNull => false
  | VBool b => b
  | VNum n => negb (Z.eqb n 0)
  | VStr s => negb (String.eqb s EmptyString)
  | VArr _ | VObj _ => true
  end.

(** ** Characters and the string primitives the sources call *)

Definition is_space (c : ascii) : bool :=
  let n := nat_of_ascii c in
  (Nat.leb 9 n && Nat.leb n 13) || Nat.eqb n 32 || Nat.eqb n 160.

Definition is_line_terminator (c : ascii) : bool :=
  let n := nat_of_ascii c in Nat.eqb n 10 || Nat.eqb n 13.

Fixpoint trimStart (s : string) : string :=
  match s with
  | String c s' => if is_space c then trimStart s' else s
  | EmptyString => EmptyString
  end.

Fixpoint all_space (s : string) : bool :=
  match s with
  | EmptyString => true
  | String c s' => is_space c && all_space s'
  end.

Fixpoint trimEnd (s : string) : string :=
  match s with
  | EmptyString => EmptyString
  | String c s' => if all_space s then EmptyString else String c (trimEnd s')
  end.

(** [s.trim()] *)
Definition trim (s : string) : string := trimEnd (trimStart s).

(** [s.startsWith(p)], returning what follows the prefix. *)
Fixpoint strip_prefix (p s : string) : option string :=
  match p, s with
  | EmptyString, _ => Some s
  | String a p', String b s' =>
      if Ascii.eqb a b then strip_prefix p' s' else None
  | String _ _, EmptyString => None
  end.

Definition starts_with (p s : string) : bool :=
  match strip_prefix p s with Some _ => true | None => false end.

(** [s.includes(p)] *)
Fixpoint includes (s p : string) : bool :=
  starts_with p s ||
  match s with
  | EmptyString => false
  | String _ s' => includes s' p
  end.

(** ** Property access *)

Definition is_digit (c : ascii) : bool :=
  let n := nat_of_ascii c in Nat.leb 48 n && Nat.leb n 57.

Fixpoint parse_digits (s : string) (acc : nat) : option nat :=
  match s with
  | EmptyString => Some acc
  | String c s' =>
      if is_digit c then parse_digits s' (10 * acc + (nat_of_ascii c - 48))
      else None
  end.

(** A canonical array index: ["0"], or digits not starting with a zero. *)
Definition parse_index (s : string) : option nat :=
  match s with
  | EmptyString => None
  | String c s' =>
      if Ascii.eqb c "0"
      then match s' with EmptyString => Some 0 | _ => None end
      else parse_digits s 0
  end.

Fixpoint chars (s : string) : list value :=
  match s with
  | EmptyString => []
  | String c s' => VStr (String c EmptyString) :: chars s'
  end.

(** [object[key]] on a value that is neither [null] nor [undefined]; own
    properties only. *)
Definition prop (object : value) (key : string) : value :=
  match object with
  | VObj kvs => match get_key kvs key with Some v => v | None => VUndefined end
  | VArr xs =>
      if String.eqb key "length" then VNum (Z.of_nat (List.length xs))
      else match parse_index key with
           | Some i => nth i xs VUndefined
           | None => VUndefined
           end
  | VStr s =>
      if String.eqb key "length" then VNum (Z.of_nat (String.length s))
      else match parse_index key with
           | Some i => nth i (chars s) VUndefined
           | None => VUndefined
           end
  | _ => VUndefined
  end.

Definition is_nullish (v : value) : bool :=
  match v with VUndefined | VNull => true | _ => false end.

(** [Object.entries(v)], which is also what a spread [{ ...v }] copies. *)
Fixpoint indexed (i : nat) (l : list value) : list (string * value) :=
  match l with
  | [] => []
  | x :: l' => (string_of_nat i, x) :: indexed (S i) l'
  end.

Definition entries (v : value) : list (string * value) :=
  match v with
  | VObj kvs => kvs
  | VArr xs => indexed 0 xs
  | VStr s => indexed 0 (chars s)
  | _ => []
  end.

End JS.
Export JS.

(* ===================================================================== *)
(** * lodash [_.get] *)
(* ===================================================================== *)

(** The library function the evaluator and the action runner call, after
    lodash 4.17: [get], [baseGet], [castPath], [isKey] and [stringToPath]
    with its pattern [rePropName].  A [value] is never a function, so a
    property inherited from a prototype reads as [undefined]. *)
Module Lodash.

Definition is_word_char (c : ascii) : bool :=
  let n := nat_of_ascii c in
  (Nat.leb 48 n && Nat.leb n 57) || (Nat.leb 65 n && Nat.leb n 90)
  || (Nat.leb 97 n && Nat.leb n 122) || Nat.eqb n 95.

Definition is_path_special (c : ascii) : bool :=
  Ascii.eqb c "." || Ascii.eqb c "[" || Ascii.eqb c "]".

(** [reIsPlainProp = /^\w*$/] *)
Fixpoint is_plain_prop (s : string) : bool :=
  match s with
  | EmptyString => true
  | String c s' => is_word_char c && is_plain_prop s'
  end.

(** [reIsDeepProp]: a dot, or an opening bracket closed before another
    bracket opens. *)
Fixpoint is_deep_prop_from (opened : bool) (s : string) : bool :=
  match s with
  | EmptyString => false
  | String c s' =>
      if Ascii.eqb c "." then true
      else if Ascii.eqb c "[" then is_deep_prop_from true s'
      else if Ascii.eqb c "]" then opened || is_deep_prop_from false s'
      else is_deep_prop_from opened s'
  end.

Definition is_deep_prop (s : string) : bool := is_deep_prop_from false s.

(** [path in Object(object)], for the paths that reach this test. *)
Definition key_in (object : value) (path : string) : bool :=
  match object with
  | VObj kvs => has_key kvs path
  | _ => false
  end.

Definition isKey (path : string) (object : value) : bool :=
  is_plain_prop path || negb (is_deep_prop path) || key_in object path.

Definition flush (cur : string) : list string :=
  match cur with EmptyString => [] | _ => [cur] end.

(** The longest run of digits at the head of [s], and what follows. *)
Fixpoint take_digits (s : string) : string * string :=
  match s with
  | EmptyString => (EmptyString, EmptyString)
  | String c s' =>
      if is_digit c
      then let (d, r) := take_digits s' in (String c d, r)
      else (EmptyString, s)
  end.

(** [(-?\d+(?:\.\d+)?)\]] at the head of [s]: the number as written and
    what follows the bracket. *)
Definition bracket_number (s : string) : option (string * string) :=
  let (sign, s1) :=
    match s with
    | String c r => if Ascii.eqb c "-" then ("-", r) else (EmptyString, s)
    | EmptyString => (EmptyString, s)
    end in
  let (whole, s2) := take_digits s1 in
  match whole, s2 with
  | EmptyString, _ => None
  | _, String c s3 =>
      if Ascii.eqb c "]" then Some ((sign ++ whole)%string, s3)
      else if Ascii.eqb c "." then
        let (frac, s4) := take_digits s3 in
        match frac, s4 with
        | String _ _, String e rest =>
            if Ascii.eqb e "]"
            then Some ((sign ++ whole ++ "." ++ frac)%string, rest)
            else None
        | _, _ => None
        end
      else None
  | _, EmptyString => None
  end.

Definition backslash : ascii := ascii_of_nat 92.
Definition double_quote : ascii := ascii_of_nat 34.
Definition single_quote : ascii := ascii_of_nat 39.

(** The quoted alternative of [rePropName] after its opening quote [q]:
    characters other than [q] and the backslash, or a backslash and the
    character after it, up to [q] and a closing bracket.  Returns the text
    between the quotes with its escapes removed, as the replace with
    [reEscapeChar] leaves it, and what follows the bracket. *)
Fixpoint bracket_quoted (q : ascii) (s : string) : option (string * string) :=
  match s with
  | EmptyString => None
  | String c s' =>
      if Ascii.eqb c q then
        match s' with
        | String e rest =>
            if Ascii.eqb e "]" then Some (EmptyString, rest) else None
        | EmptyString => None
        end
      else if Ascii.eqb c backslash then
        match s' with
        | String d s'' =>
            if is_line_terminator d then None
            else
              match bracket_quoted q s'' with
              | Some (t, rest) => Some (String d t, rest)
              | None => None
              end
        | EmptyString => None
        end
      else
        match bracket_quoted q s' with
        | Some (t, rest) => Some (String c t, rest)
        | None => None
        end
  end.

(** A number or a quoted string in brackets at the head of [s]: the key
    and what follows the match. *)
Definition bracket_key (s : string) : option (string * string) :=
  match s with
  | String c r =>
      if Ascii.eqb c "[" then
        match bracket_number r with
        | Some found => Some found
        | None =>
            match r with
            | String q r' =>
                if Ascii.eqb q double_quote || Ascii.eqb q single_quote
                then bracket_quoted q r'
                else None
            | EmptyString => None
            end
        end
      else None
  | EmptyString => None
  end.

(** [s] starts with a dot or with an empty pair of brackets; what
    follows. *)
Definition dot_or_brackets (s : string) : option string :=
  match strip_prefix "." s with
  | Some r => Some r
  | None => strip_prefix "[]" s
  end.

(** The lookahead [(?=(?:\.|\[\])(?:\.|\[\]|$))], which matches the empty
    key. *)
Definition empty_key_here (s : string) : bool :=
  match dot_or_brackets s with
  | Some r =>
      match r with
      | EmptyString => true
      | _ => match dot_or_brackets r with Some _ => true | None => false end
      end
  | None => false
  end.

(** [string.replace(rePropName, ...)], scanning left to right: a run of
    characters other than [.], [[] and []] is a key; so is a number or a
    quoted string in brackets; the lookahead contributes an empty key; any
    other character is passed over.  [cur] is the run read so far and
    [skip] counts the characters of a bracketed key still to be passed
    over. *)
Fixpoint scan_path (s : string) (cur : string) (skip : nat) : list string :=
  match s with
  | EmptyString => flush cur
  | String c s' =>
      match skip with
      | S k => scan_path s' cur k
      | O =>
          if is_path_special c then
            flush cur
            ++ match bracket_key s with
               | Some (key, rest) =>
                   key :: scan_path s' EmptyString
                            (String.length s' - String.length rest)
               | None =>
                   (if empty_key_here s then [EmptyString] else [])
                   ++ scan_path s' EmptyString 0
               end
          else scan_path s' (cur ++ String c EmptyString)%string 0
      end
  end.

Definition stringToPath (s : string) : list string :=
  (if starts_with "." s then [EmptyString] else [])
  ++ scan_path s EmptyString 0.

Definition castPath (path : string) (object : value) : list string :=
  if isKey path object then [path] else stringToPath path.

(** The [while (object != null && index < length)] loop of [baseGet];
    leaving it early yields [undefined]. *)
Fixpoint walk (object : value) (path : list string) : value :=
  match path with
  | [] => object
  | k :: path' =>
      if is_nullish object then VUndefined else walk (prop object k) path'
  end.

Definition baseGet (object : value) (path : list string) : value :=
  match path with
  | [] => VUndefined
  | _ => walk object path
  end.

Definition path_of_value (object path : value) : list string :=
  match path with
  | VStr s => castPath s object
  | VArr ks => map String_ ks
  | _ => castPath (String_ path) object
  end.

(** [_.get(object, path, defaultValue)] *)
Definition get (object path defaultValue : value) : value :=
  let result :=
    if is_nullish object then VUndefined
    else baseGet object (path_of_value object path) in
  match result with
  | VUndefined => defaultValue
  | _ => result
  end.

End Lodash.

(* ===================================================================== *)
(** * The expression evaluator ([utils/evaluator.ts]) *)
(* ===================================================================== *)

Module Evaluator.

(** The lazy group [(.+?)]: the shortest non-empty run of characters other
    than line terminators after which [accept] holds of what follows.
    Returns the group and what follows it. *)
Fixpoint lazy_group (accept : string -> bool) (r : string)
  : option (string * string) :=
  match r with
  | EmptyString => None
  | String c r' =>
      if is_line_terminator c then None
      else if accept r' then Some (String c EmptyString, r')
      else match lazy_group accept r' with
           | Some (g, rest) => Some (String c g, rest)
           | None => None
           end
  end.

(** No character of [s] is a line terminator: [s] can be a group. *)
Fixpoint one_line (s : string) : bool :=
  match s with
  | EmptyString => true
  | String c s' => negb (is_line_terminator c) && one_line s'
  end.

(** What may follow the group of the anchored pattern:
    [\}\}\s*$]. *)
Definition closes_to_end (r : string) : bool :=
  match strip_prefix "}}" r with
  | Some rest => all_space rest
  | None => false
  end.

(** [template.match(/^\s*\{\{(.+?)\}\}\s*$/)], returning group 1. *)
Definition pureMatch (template : string) : option string :=
  match strip_prefix "{{" (trimStart template) with
  | Some r =>
      match lazy_group closes_to_end r with
      | Some (g, _) => Some g
      | None => None
      end
  | None => None
  end.

(** One match of [/\{\{(.+?)\}\}/] at the head of [s]: group 1 and the
    text after the match. *)
Definition match_reference (s : string) : option (string * string) :=
  match strip_prefix "{{" s with
  | Some r =>
      match lazy_group (starts_with "}}") r with
      | Some (g, rest) =>
          match strip_prefix "}}" rest with
          | Some rest' => Some (g, rest')
          | None => None
          end
      | None => None
      end
  | None => None
  end.

(** [callee(...args)]: a [TypeError] unless [callee] is a function, and
    no [value] is one. *)
Definition call (callee : value) (args : list value) : option value := None.

(** [s.replace(/\{\{(.+?)\}\}/g, f)], where [f] is given the matched
    text and group 1 and may throw.  [skip] counts the characters of the
    current match still to be passed over. *)
Fixpoint replace_references (f : string -> string -> option string)
  (s : string) (skip : nat) : option string :=
  match s with
  | EmptyString => Some EmptyString
  | String c s' =>
      match skip with
      | S k => replace_references f s' k
      | O =>
          match match_reference s with
          | Some (path, rest) =>
              let matched :=
                substring 0 (String.length s - String.length rest) s in
              match f matched path with
              | Some replacement =>
                  match
                    replace_references f s'
                      (String.length s' - String.length rest)
                  with
                  | Some tail => Some (replacement ++ tail)%string
                  | None => None
                  end
              | None => None
              end
          | None =>
              match replace_references f s' 0 with
              | Some tail => Some (String c tail)
              | None => None
              end
          end
      end
  end.

(** The callback [(_, path) => { const value = _.get(context, path.trim(),
    ''); ... }].  Its first parameter, the matched text, is named [_] and
    hides the lodash import inside the body: [_.get] there is the property
    [get] of a string, and the call of it throws. *)
Definition interpolate (context : obj) (matched path : string)
  : option string :=
  match
    call (prop (VStr matched) "get")
      [VObj context; VStr (trim path); VStr EmptyString]
  with
  | Some value =>
      Some (if is_nullish value then EmptyString else String_ value)
  | None => None
  end.

(** [evaluateExpression(template, context)]; [None] is a thrown
    [TypeError]. *)
Definition evaluateExpression (template : value) (context : obj)
  : option value :=
  match template with
  | VStr t =>
      match pureMatch t with
      | Some g => Some (Lodash.get (VObj context) (VStr (trim g)) VUndefined)
      | None =>
          if includes t "{{"
          then
            match replace_references (interpolate context) t 0 with
            | Some s => Some (VStr s)
            | None => None
            end
          else Some (VStr t)
      end
  | _ => Some template
  end.

End Evaluator.
Export Evaluator.

(* ===================================================================== *)
(** * The schema ([types/schema.ts]) *)
(* ===================================================================== *)

Module Schema.

Inductive ComponentType : Type :=
| page | container | row | column
| input | button | text | image | table | select.

Inductive ActionType : Type :=
| n8n_webhook | setState | consoleLog | alert.

Record Action : Type := mkAction {
  action_id : string;
  action_type : ActionType;
  config : value
}.

Inductive ComponentSchema : Type :=
| mkComponent (id : string) (type : ComponentType) (label : option string)
    (props : obj) (style : option obj)
    (events : option (list (string * list Action)))
    (children : option (list ComponentSchema)).

Definition id (n : ComponentSchema) : string :=
  let 'mkComponent i _ _ _ _ _ _ := n in i.
Definition type (n : ComponentSchema) : ComponentType :=
  let 'mkComponent _ t _ _ _ _ _ := n in t.
Definition label (n : ComponentSchema) : option string :=
  let 'mkComponent _ _ l _ _ _ _ := n in l.
Definition props (n : ComponentSchema) : obj :=
  let 'mkComponent _ _ _ p _ _ _ := n in p.
Definition style (n : ComponentSchema) : option obj :=
  let 'mkComponent _ _ _ _ s _ _ := n in s.
Definition events (n : ComponentSchema)
  : option (list (string * list Action)) :=
  let 'mkComponent _ _ _ _ _ e _ := n in e.
Definition children (n : ComponentSchema) : option (list ComponentSchema) :=
  let 'mkComponent _ _ _ _ _ _ c := n in c.

(** [node.children = cs] *)
Definition set_children (n : ComponentSchema)
  (cs : option (list ComponentSchema)) : ComponentSchema :=
  let 'mkComponent i t l p s e _ := n in mkComponent i t l p s e cs.

(** [`${type}`] *)
Definition type_name (t : ComponentType) : string :=
  match t with
  | page => "page" | container => "container" | row => "row"
  | column => "column" | input => "input" | button => "button"
  | text => "text" | image => "image" | table => "table"
  | select => "select"
  end.

(** The kinds the specification calls leaves. *)
Definition is_leaf_kind (t : ComponentType) : bool :=
  match t with
  | input | button | text | image | table | select => true
  | page | container | row | column => false
  end.

(** Induction over the tree, with the hypothesis for every child. *)
Section TreeInduction.
Variable P : ComponentSchema -> Prop.
Hypothesis leaf_case : forall i t l p s e,
    P (mkComponent i t l p s e None).
Hypothesis node_case : forall i t l p s e cs,
    Forall P cs -> P (mkComponent i t l p s e (Some cs)).

Fixpoint tree_ind (n : ComponentSchema) : P n :=
  match n with
  | mkComponent i t l p s e None => leaf_case i t l p s e
  | mkComponent i t l p s e (Some cs) =>
      node_case i t l p s e cs
        ((fix all (l0 : list ComponentSchema) : Forall P l0 :=
            match l0 with
            | [] => Forall_nil P
            | c :: l1 => Forall_cons c (tree_ind c) (all l1)
            end) cs)
  end.
End TreeInduction.

End Schema.
Export Schema.

(* ===================================================================== *)
(** * The editor store ([store/editorStore.ts]) *)
(* ===================================================================== *)

Module Store.

Record EditorState : Type := mkState {
  root : ComponentSchema;
  selectedId : option string;
  storeData : obj
}.

(** [for (let i = 0; i < l.length; i++) if (f(i, l[i])) return ...]: the
    first element, from index [i] on, on which [f] succeeds, with its
    index. *)
Fixpoint first_some {A R : Type} (f : nat -> A -> option R) (i : nat)
  (l : list A) : option (nat * R) :=
  match l with
  | [] => None
  | x :: l' =>
      match f i x with
      | Some r => Some (i, r)
      | None => first_some f (S i) l'
      end
  end.

(** [l[i] = x], for [i] inside the list. *)
Fixpoint set_nth {A : Type} (l : list A) (i : nat) (x : A) : list A :=
  match l, i with
  | [], _ => []
  | _ :: l', O => x :: l'
  | y :: l', S i' => y :: set_nth l' i' x
  end.

(** What a callback of [findAndModify] did: it changed the node it was
    given in place, or it changed that node's parent. *)
Inductive mutation : Type :=
| MutNode (node' : ComponentSchema)
| MutParent (parent' : ComponentSchema).

Definition Callback : Type :=
  ComponentSchema -> option ComponentSchema -> nat -> mutation.

(** [findAndModify(node, targetId, callback, parent, index)].  [None] is
    the result [false]; [Some m] is [true], with [m] what has become of
    [node] or of [parent].  A hit below [children[i]] changes that child
    in place, which is a change of [node]. *)
Fixpoint findAndModify (node : ComponentSchema) (targetId : string)
  (callback : Callback) (parent : option ComponentSchema) (index : nat)
  {struct node} : option mutation :=
  if String.eqb (id node) targetId then Some (callback node parent index)
  else
    match node with
    | mkComponent _ _ _ _ _ _ (Some cs) =>
        match
          first_some
            (fun i c => findAndModify c targetId callback (Some node) i) 0 cs
        with
        | Some (i, MutNode c') =>
            Some (MutNode (set_children node (Some (set_nth cs i c'))))
        | Some (_, MutParent node') => Some (MutNode node')
        | None => None
        end
    | mkComponent _ _ _ _ _ _ None => None
    end.

(** The tree after [findAndModify(newRoot, targetId, callback)]. *)
Definition modified (newRoot : ComponentSchema) (targetId : string)
  (callback : Callback) : ComponentSchema :=
  match findAndModify newRoot targetId callback None 0 with
  | Some (MutNode r) => r
  | Some (MutParent _) | None => newRoot
  end.

(** [findNode(node, id)] *)
Fixpoint findNode (node : ComponentSchema) (target : string)
  : option ComponentSchema :=
  if String.eqb (id node) target then Some node
  else
    match node with
    | mkComponent _ _ _ _ _ _ (Some cs) =>
        match first_some (fun _ c => findNode c target) 0 cs with
        | Some (_, found) => Some found
        | None => None
        end
    | mkComponent _ _ _ _ _ _ None => None
    end.

Definition initialRoot : ComponentSchema :=
  mkComponent "root" page (Some "Page Root") [] 
    (Some [("padding", VStr "20px"); ("minHeight", VStr "100%")])
    None (Some []).

Definition selectComponent (sel : option string) (state : EditorState)
  : EditorState :=
  mkState (root state) sel (storeData state).

Definition getComponentById (target : string) (state : EditorState)
  : option ComponentSchema :=
  findNode (root state) target.

Definition setRoot (r : ComponentSchema) (state : EditorState)
  : EditorState :=
  mkState r (selectedId state) (storeData state).

(** [node.children.push(x)], after [if (!node.children) node.children = []] *)
Definition push_child (node x : ComponentSchema) : ComponentSchema :=
  match children node with
  | Some cs => set_children node (Some (cs ++ [x]))
  | None => set_children node (Some [x])
  end.

(** The component [addComponent] builds; [now] is [Date.now()]. *)
Definition newComponent (ty : ComponentType) (now : Z) : ComponentSchema :=
  mkComponent (type_name ty ++ "_" ++ string_of_Z now)%string ty
    (Some (type_name ty)) []
    (Some (match ty with
           | row => [("display", VStr "flex"); ("gap", VStr "10px")]
           | _ => []
           end))
    None
    (match ty with
     | container | row | column => Some []
     | _ => None
     end).

Definition addComponent (parentId : string) (ty : ComponentType) (now : Z)
  (state : EditorState) : EditorState :=
  let newRoot := root state in
  let nc := newComponent ty now in
  let newRoot' :=
    if String.eqb parentId "root"
    then set_children newRoot
           (Some (match children newRoot with
                  | Some cs => cs
                  | None => []
                  end ++ [nc]))
    else modified newRoot parentId (fun node _ _ => MutNode (push_child node nc))
  in
  mkState newRoot' (Some (id nc)) (storeData state).

(** [Partial<ComponentSchema>]: for each field, whether [updates] has it,
    and with which value. *)
Record Updates : Type := mkUpdates {
  u_id : option string;
  u_type : option ComponentType;
  u_label : option (option string);
  u_props : option obj;
  u_style : option (option obj);
  u_events : option (option (list (string * list Action)));
  u_children : option (option (list ComponentSchema))
}.

Definition or_else {A : Type} (o : option A) (d : A) : A :=
  match o with Some a => a | None => d end.

(** [Object.assign(node, updates)] *)
Definition assign (node : ComponentSchema) (u : Updates) : ComponentSchema :=
  mkComponent
    (or_else (u_id u) (id node)) (or_else (u_type u) (type node))
    (or_else (u_label u) (label node)) (or_else (u_props u) (props node))
    (or_else (u_style u) (style node)) (or_else (u_events u) (events node))
    (or_else (u_children u) (children node)).

Definition updateComponent (target : string) (updates : Updates)
  (state : EditorState) : EditorState :=
  mkState
    (modified (root state) target (fun node _ _ => MutNode (assign node updates)))
    (selectedId state) (storeData state).

(** [list.splice(index, 1)] *)
Definition splice_out {A : Type} (l : list A) (index : nat) : list A :=
  firstn index l ++ skipn (S index) l.

(** [list.splice(index, 0, x)] for [0 <= index <= list.length] *)
Definition splice_in {A : Type} (l : list A) (index : nat) (x : A) : list A :=
  firstn index l ++ x :: skipn index l.

Definition delete_callback : Callback :=
  fun node parent index =>
    match parent with
    | Some p =>
        match children p with
        | Some cs => MutParent (set_children p (Some (splice_out cs index)))
        | None => MutNode node
        end
    | None => MutNode node
    end.

Definition deleteComponent (target : string) (state : EditorState)
  : EditorState :=
  if String.eqb target "root" then state
  else mkState (modified (root state) target delete_callback)
         None (storeData state).

Definition setStoreData (key : string) (v : value) (state : EditorState)
  : EditorState :=
  mkState (root state) (selectedId state) (set_key (storeData state) key v).

Inductive Direction : Type := up | down.

Definition swap_callback (direction : Direction) : Callback :=
  fun node parent index =>
    match parent with
    | Some p =>
        match children p with
        | Some cs =>
            let newIndex :=
              match direction with
              | up => (Z.of_nat index - 1)%Z
              | down => (Z.of_nat index + 1)%Z
              end in
            if ((0 <=? newIndex) && (newIndex <? Z.of_nat (List.length cs)))%Z
            then
              let j := Z.to_nat newIndex in
              let temp := nth index cs node in
              let cs1 := set_nth cs index (nth j cs node) in
              MutParent (set_children p (Some (set_nth cs1 j temp)))
            else MutNode node
        | None => MutNode node
        end
    | None => MutNode node
    end.

Definition moveComponent (target : string) (direction : Direction)
  (state : EditorState) : EditorState :=
  if String.eqb target "root" then state
  else mkState (modified (root state) target (swap_callback direction))
         (selectedId state) (storeData state).

(** [children.findIndex(c => c.id === dragId)] *)
Fixpoint findIndex (dragId : string) (cs : list ComponentSchema)
  : option nat :=
  match cs with
  | [] => None
  | c :: cs' =>
      if String.eqb (id c) dragId then Some 0
      else match findIndex dragId cs' with
           | Some i => Some (S i)
           | None => None
           end
  end.

(** The closure [removeNode] of [moveComponentTo]: [None] is [false];
    [Some (dragged, node')] is [true], with [draggedNode] and what has
    become of [node]. *)
Fixpoint removeNode (dragId : string) (node : ComponentSchema)
  {struct node} : option (ComponentSchema * ComponentSchema) :=
  match node with
  | mkComponent _ _ _ _ _ _ (Some cs) =>
      match findIndex dragId cs with
      | Some idx =>
          Some (nth idx cs node, set_children node (Some (splice_out cs idx)))
      | None =>
          match first_some (fun _ c => removeNode dragId c) 0 cs with
          | Some (i, (dragged, c')) =>
              Some (dragged, set_children node (Some (set_nth cs i c')))
          | None => None
          end
      end
  | mkComponent _ _ _ _ _ _ None => None
  end.

(** [Math.min(Math.max(index, 0), length)] *)
Definition safeIndex (index : Z) (len : nat) : nat :=
  Z.to_nat (Z.min (Z.max index 0) (Z.of_nat len)).

(** The closure [insertNode] of [moveComponentTo]. *)
Fixpoint insertNode (targetId : string) (index : Z)
  (draggedNode : ComponentSchema) (node : ComponentSchema) {struct node}
  : option ComponentSchema :=
  if String.eqb (id node) targetId then
    let cs := match children node with Some cs => cs | None => [] end in
    Some (set_children node
            (Some (splice_in cs (safeIndex index (List.length cs)) draggedNode)))
  else
    match node with
    | mkComponent _ _ _ _ _ _ (Some cs) =>
        match
          first_some (fun _ c => insertNode targetId index draggedNode c) 0 cs
        with
        | Some (i, c') => Some (set_children node (Some (set_nth cs i c')))
        | None => None
        end
    | mkComponent _ _ _ _ _ _ None => None
    end.

Definition moveComponentTo (dragId targetId : string) (index : Z)
  (state : EditorState) : EditorState :=
  if String.eqb dragId "root" then state
  else if String.eqb dragId targetId then state
  else
    match removeNode dragId (root state) with
    | None => state
    | Some (draggedNode, newRoot) =>
        match insertNode targetId index draggedNode newRoot with
        | None => state
        | Some newRoot' => mkState newRoot' (selectedId state) (storeData state)
        end
    end.

End Store.
Export Store.

(* ===================================================================== *)
(** * The action runner ([utils/actionRunner.ts]) *)
(* ===================================================================== *)

Module ActionRunner.

Record Request : Type := mkRequest {
  req_url : value;
  req_method : value;
  req_body : option value        (* the value handed to [JSON.stringify] *)
}.

(** How [await fetch(...)] followed by [await response.json()] ends. *)
Inductive FetchOutcome : Type :=
| FetchRejects
| JsonRejects
| Responds (json : value).

(** Everything outside the invocation: [JSON.parse], the network, and
    what the rest of the program does to the store while the [k]-th
    [await] of this invocation is pending. *)
Record Env : Type := mkEnv {
  JSON_parse : string -> option value;
  network : nat -> Request -> FetchOutcome;
  meanwhile : nat -> EditorState -> EditorState
}.

(** What an invocation does that can be observed, in order. *)
Inductive Event : Type :=
| Running (a : Action)                        (* console.log('Running action:') *)
| ActionLog (message : value)                 (* console.log('[Action Log]:') *)
| Alert (message : value)                     (* alert(message) *)
| Fetch (r : Request)                         (* fetch(url, {...}) *)
| N8nResponse (json : value)                  (* console.log('[n8n Response]:') *)
| SetStoreData (key : string) (v : value)     (* store.setStoreData(key, v) *)
| ErrorRunning (ty : ActionType).             (* console.error in the catch *)

Record World : Type := mkWorld {
  live : EditorState;        (* useEditorStore's current state *)
  trace : list Event;
  awaits : nat;              (* awaits this invocation has passed *)
  fetches : nat              (* fetches this invocation has issued *)
}.

(** Computations that read and write the world and may throw: [None] is
    a thrown exception or a rejected promise. *)
Definition M (A : Type) : Type := World -> option A * World.

Definition ret {A : Type} (a : A) : M A := fun w => (Some a, w).

Definition throw {A : Type} : M A := fun w => (None, w).

Definition bind {A B : Type} (m : M A) (k : A -> M B) : M B :=
  fun w =>
    match m w with
    | (Some a, w') => k a w'
    | (None, w') => (None, w')
    end.

Notation "x <- m ;; k" := (bind m (fun x => k))
  (at level 61, m at next level, right associativity).
Notation "m ;;; k" := (bind m (fun _ => k))
  (at level 61, right associativity).

Definition emit (e : Event) : M unit :=
  fun w => (Some tt, mkWorld (live w) (trace w ++ [e]) (awaits w) (fetches w)).

(** [object.key] in an expression: a [TypeError] on [null] and
    [undefined]. *)
Definition member (object : value) (key : string) : M value :=
  if is_nullish object then throw else ret (prop object key).

(** [store.setStoreData(key, v)]: zustand applies the update to the state
    current at the time of the call. *)
Definition call_setStoreData (key : value) (v : value) : M unit :=
  fun w =>
    (Some tt,
     mkWorld (setStoreData (String_ key) v (live w))
       (trace w ++ [SetStoreData (String_ key) v]) (awaits w) (fetches w)).

(** An [await]: the invocation is suspended and the rest of the program
    runs. *)
Definition suspend (env : Env) : M unit :=
  fun w =>
    (Some tt,
     mkWorld (meanwhile env (awaits w) (live w)) (trace w)
       (S (awaits w)) (fetches w)).

(** [await fetch(url, init)] then [await response.json()]. *)
Definition fetch_json (env : Env) (r : Request) : M value :=
  fun w =>
    let outcome := network env (fetches w) r in
    let w1 := mkWorld (live w) (trace w ++ [Fetch r]) (awaits w)
                (S (fetches w)) in
    match outcome with
    | FetchRejects => (suspend env ;;; throw) w1
    | JsonRejects => (suspend env ;;; suspend env ;;; throw) w1
    | Responds json => (suspend env ;;; suspend env ;;; ret json) w1
    end.

Fixpoint forEach {A : Type} (f : A -> M unit) (l : list A) : M unit :=
  match l with
  | [] => ret tt
  | x :: l' => f x ;;; forEach f l'
  end.

Definition is_GET (method : value) : bool :=
  match method with
  | VStr s => String.eqb s "GET"
  | _ => false
  end.

(** A call that returns or throws without touching the world. *)
Definition lift {A : Type} (r : option A) : M A := fun w => (r, w).

Section Invocation.

Variable env : Env.
(** [context] and [globalData], both fixed when the invocation starts. *)
Variable context : obj.
Variable globalData : obj.

(** The [body] a webhook builds from [action.config.body]; [None] when
    [evaluateExpression] throws. *)
Definition requestBody (bodyTemplate : value) : option value :=
  if truthy bodyTemplate then
    match bodyTemplate with
    | VStr s =>
        match JSON_parse env s with
        | Some parsed => Some parsed
        | None =>
            match evaluateExpression bodyTemplate context with
            | Some v => Some (VObj [("value", v)])
            | None => None
            end
        end
    | _ => Some bodyTemplate
    end
  else Some (VObj []).

Definition finalBody (body : value) : value :=
  VObj (set_key (spread [] (entries body)) "context" (VObj globalData)).

Definition mapResponse (json : value) (entry : string * value) : M unit :=
  let '(stateKey, responsePath) := entry in
  match Lodash.get json responsePath VUndefined with
  | VUndefined => ret tt
  | v => call_setStoreData (VStr stateKey) v
  end.

(** The body of the [try] block: the [switch] on [action.type]. *)
Definition runAction (action : Action) : M unit :=
  match action_type action with
  | consoleLog =>
      template <- member (config action) "message" ;;
      message <- lift (evaluateExpression template context) ;;
      emit (ActionLog message)
  | alert =>
      template <- member (config action) "message" ;;
      message <- lift (evaluateExpression template context) ;;
      emit (Alert message)
  | setState =>
      key <- member (config action) "key" ;;
      valueTemplate <- member (config action) "value" ;;
      v <- lift (evaluateExpression valueTemplate context) ;;
      call_setStoreData key v
  | n8n_webhook =>
      url <- member (config action) "url" ;;
      m <- member (config action) "method" ;;
      let method := if truthy m then m else VStr "POST" in
      bodyTemplate <- member (config action) "body" ;;
      body <- lift (requestBody bodyTemplate) ;;
      json <- fetch_json env
                (mkRequest url method
                   (if is_GET method then None else Some (finalBody body))) ;;
      emit (N8nResponse json) ;;;
      mapping <- member (config action) "responseMapping" ;;
      if truthy mapping && negb (Nat.eqb (List.length (entries mapping)) 0)
      then forEach (mapResponse json) (entries mapping)
      else call_setStoreData (VStr "lastResult") json
  end.

(** One turn of the [for] loop: the log line, then the [try]/[catch]. *)
Definition runOne (action : Action) (w : World) : World :=
  match (emit (Running action) ;;; runAction action) w with
  | (Some _, w') => w'
  | (None, w') => snd (emit (ErrorRunning (action_type action)) w')
  end.

Fixpoint runLoop (actions : list Action) (w : World) : World :=
  match actions with
  | [] => w
  | action :: rest => runLoop rest (runOne action w)
  end.

End Invocation.

(** [runActions(actions, localContext)], from the world it is called in to
    the world in which its promise resolves. *)
Definition runActions (env : Env) (actions : option (list Action))
  (localContext : obj) (w : World) : World :=
  match actions with
  | None | Some [] => w
  | Some l =>
      let globalData := storeData (live w) in
      let context := spread globalData localContext in
      runLoop env context globalData l w
  end.

End ActionRunner.
Export ActionRunner.

(* ===================================================================== *)
(** * Vocabulary of the properties *)
(* ===================================================================== *)

(** ** Traces of an invocation *)

Module Traces.

(** The actions whose turn of the loop has begun, in order. *)
Fixpoint running_of (t : list Event) : list Action :=
  match t with
  | [] => []
  | Running a :: t' => a :: running_of t'
  | _ :: t' => running_of t'
  end.

(** The calls of [setStoreData] made, in order. *)
Fixpoint writes_of (t : list Event) : list (string * value) :=
  match t with
  | [] => []
  | SetStoreData k v :: t' => (k, v) :: writes_of t'
  | _ :: t' => writes_of t'
  end.

(** The requests sent, in order. *)
Fixpoint requests_of (t : list Event) : list Request :=
  match t with
  | [] => []
  | Fetch r :: t' => r :: requests_of t'
  | _ :: t' => requests_of t'
  end.

(** [m] only ever appends to the trace, and only events satisfying [P]. *)
Definition appends {A : Type} (P : Event -> Prop) (m : M A) : Prop :=
  forall w, exists evs,
    trace (snd (m w)) = trace w ++ evs /\ Forall P evs.

(** The [context] field of a request body. *)
Definition context_field (r : Request) : option value :=
  match req_body r with
  | Some (VObj kvs) => get_key kvs "context"
  | _ => None
  end.

(** A request that is a [GET] without a body, or carries [g] as its
    [context]. *)
Definition carries (g : obj) (r : Request) : Prop :=
  if is_GET (req_method r) then req_body r = None
  else context_field r = Some (VObj g).

(** [action.config.method || 'POST'] *)
Definition method_of (cfg : value) : value :=
  if truthy (prop cfg "method") then prop cfg "method" else VStr "POST".

(** The request a webhook action with the config [cfg] sends; none when
    building its body throws. *)
Definition request_of (env : Env) (context g : obj) (cfg : value)
  : option Request :=
  match requestBody env context (prop cfg "body") with
  | Some body =>
      Some (mkRequest (prop cfg "url") (method_of cfg)
              (if is_GET (method_of cfg) then None
               else Some (finalBody g body)))
  | None => None
  end.

Definition is_Running (e : Event) : bool :=
  match e with Running _ => true | _ => false end.

End Traces.
Export Traces.

(** ** Positions in the tree *)

Module Tree.

(** [node.children || []] *)
Definition kids (n : ComponentSchema) : list ComponentSchema :=
  match children n with Some cs => cs | None => [] end.

(** Every id of the tree, in pre-order. *)
Fixpoint ids (n : ComponentSchema) : list string :=
  match n with
  | mkComponent i _ _ _ _ _ (Some cs) => i :: flat_map ids cs
  | mkComponent i _ _ _ _ _ None => [i]
  end.

(** The node reached from [n] by descending into child [i], for each
    [i] of the path in turn. *)
Fixpoint subtree_at (p : list nat) (n : ComponentSchema)
  : option ComponentSchema :=
  match p with
  | [] => Some n
  | i :: p' =>
      match nth_error (kids n) i with
      | Some c => subtree_at p' c
      | None => None
      end
  end.

(** The path to the first node, in pre-order, whose id is [target]. *)
Fixpoint path_to (target : string) (n : ComponentSchema)
  : option (list nat) :=
  if String.eqb (id n) target then Some []
  else
    match n with
    | mkComponent _ _ _ _ _ _ (Some cs) =>
        match first_some (fun _ c => path_to target c) 0 cs with
        | Some (i, p) => Some (i :: p)
        | None => None
        end
    | mkComponent _ _ _ _ _ _ None => None
    end.

(** [n] with the node at [p] replaced by its image under [f]; [n] itself
    when [p] leads nowhere. *)
Fixpoint update_at (p : list nat) (f : ComponentSchema -> ComponentSchema)
  (n : ComponentSchema) : ComponentSchema :=
  match p with
  | [] => f n
  | i :: p' =>
      match nth_error (kids n) i with
      | Some c =>
          set_children n (Some (set_nth (kids n) i (update_at p' f c)))
      | None => n
      end
  end.

(** [n] without the subtree at the non-empty path [p]: that node leaves
    its parent's list and its later siblings move up. *)
Fixpoint delete_at (p : list nat) (n : ComponentSchema) : ComponentSchema :=
  match p with
  | [] => n
  | [i] =>
      match children n with
      | Some cs => set_children n (Some (splice_out cs i))
      | None => n
      end
  | i :: p' =>
      match nth_error (kids n) i with
      | Some c => set_children n (Some (set_nth (kids n) i (delete_at p' c)))
      | None => n
      end
  end.

(** [m] with [x] as its child number [k]. *)
Definition insert_child (k : nat) (x m : ComponentSchema) : ComponentSchema :=
  set_children m (Some (splice_in (kids m) k x)).

(** [n] with [x] attached as child number [k] of the node at [q]. *)
Definition attach (q : list nat) (k : nat) (x n : ComponentSchema)
  : ComponentSchema :=
  update_at q (insert_child k x) n.

(** No node of a leaf kind has a [children] list. *)
Fixpoint leaf_shaped (n : ComponentSchema) : bool :=
  match n with
  | mkComponent _ t _ _ _ _ (Some cs) =>
      negb (is_leaf_kind t) && forallb leaf_shaped cs
  | mkComponent _ _ _ _ _ _ None => true
  end.

(** The id [addComponent] gives the component it creates. *)
Definition new_id (call : string * ComponentType * Z) : string :=
  id (newComponent (snd (fst call)) (snd call)).

(** A sequence of [addComponent(parentId, type)] calls, each with the
    clock reading it sees. *)
Definition addComponents (calls : list (string * ComponentType * Z))
  (state : EditorState) : EditorState :=
  fold_left
    (fun s call => addComponent (fst (fst call)) (snd (fst call)) (snd call) s)
    calls state.

(** A callback that keeps leaves childless in what it changes. *)
Definition keeps_leaves (cb : Callback) : Prop :=
  forall node parent index,
    leaf_shaped node = true ->
    (forall p, parent = Some p -> leaf_shaped p = true) ->
    match cb node parent index with
    | MutNode n' => leaf_shaped n' = true
    | MutParent p' => leaf_shaped p' = true
    end.

End Tree.
Export Tree.

(* ===================================================================== *)
(** * The editor's handlers ([App.tsx]) *)
(* ===================================================================== *)

Module App.

(** [findParent(root, id)] *)
Fixpoint findParent (root : ComponentSchema) (target : string)
  : option ComponentSchema :=
  match root with
  | mkComponent _ _ _ _ _ _ (Some cs) =>
      match
        first_some
          (fun _ child =>
             if String.eqb (id child) target then Some root
             else findParent child target) 0 cs
      with
      | Some (_, found) => Some found
      | None => None
      end
  | mkComponent _ _ _ _ _ _ None => None
  end.

(** [['page', 'container', 'row', 'column'].includes(type)] *)
Definition is_container_kind (t : ComponentType) : bool :=
  match t with
  | page | container | row | column => true
  | _ => false
  end.

(** [selectedId ? getComponentById(selectedId) : null] *)
Definition selectedComponent (state : EditorState) : option ComponentSchema :=
  match selectedId state with
  | Some sid =>
      if String.eqb sid EmptyString then None else getComponentById sid state
  | None => None
  end.

(** [children?.findIndex(c => c.id === target)]: [None] is [undefined],
    [-1] is no such child. *)
Definition findIndex_of (target : string) (n : ComponentSchema) : option Z :=
  match children n with
  | Some cs =>
      Some (match findIndex target cs with
            | Some i => Z.of_nat i
            | None => (-1)%Z
            end)
  | None => None
  end.

(** [node.children?.length || 0] *)
Definition child_count (n : ComponentSchema) : Z :=
  Z.of_nat (List.length (kids n)).

(** [handleDragEnd(event)], with [active.id] and [over?.id]. *)
Definition handleDragEnd (activeId : string) (over : option string)
  (state : EditorState) : EditorState :=
  match over with
  | None => state
  | Some overId =>
      if String.eqb activeId overId then state
      else
        let activeParent := findParent (root state) activeId in
        let overParent := findParent (root state) overId in
        let cross_level :=
          if String.eqb overId "root"
          then moveComponentTo activeId "root" (child_count (root state)) state
          else
            let drop_beside :=
              match overParent with
              | Some op =>
                  match findIndex_of overId op with
                  | Some index =>
                      if (index =? -1)%Z then state
                      else moveComponentTo activeId (id op) index state
                  | None => state
                  end
              | None => state
              end in
            match getComponentById overId state with
            | Some overComponent =>
                if is_container_kind (type overComponent)
                then moveComponentTo activeId overId
                       (child_count overComponent) state
                else drop_beside
            | None => drop_beside
            end in
        match activeParent, overParent with
        | Some ap, Some op =>
            if String.eqb (id ap) (id op) then
              match findIndex_of activeId ap, findIndex_of overId op with
              | Some _, Some newIndex =>
                  moveComponentTo activeId (id ap) newIndex state
              | _, _ => state
              end
            else cross_level
        | _, _ => cross_level
        end
  end.

(** [handleAddComponent(type)]: the new state and the alert shown, if
    any.  [now] is the clock reading [addComponent] sees. *)
Definition handleAddComponent (ty : ComponentType) (now : Z)
  (state : EditorState) : EditorState * option string :=
  match selectedComponent state with
  | Some sc =>
      if is_container_kind (type sc)
      then (addComponent (id sc) ty now state, None)
      else (state,
            Some "Please select a container (Root, Row, Column) to add components inside.")
  | None => (addComponent "root" ty now state, None)
  end.

(** An [events] object: event name to action list. *)
Definition Events : Type := list (string * list Action).

Fixpoint get_event (e : Events) (name : string) : option (list Action) :=
  match e with
  | [] => None
  | (n, l) :: e' => if String.eqb n name then Some l else get_event e' name
  end.

(** [{ ...e, [name]: l }] *)
Fixpoint set_event (e : Events) (name : string) (l : list Action) : Events :=
  match e with
  | [] => [(name, l)]
  | (n, l') :: e' =>
      if String.eqb n name then (name, l) :: e'
      else (n, l') :: set_event e' name l
  end.

(** [component.events?.[eventName] || []] *)
Definition currentActions (sc : ComponentSchema) (eventName : string)
  : list Action :=
  match events sc with
  | Some e => match get_event e eventName with Some l => l | None => [] end
  | None => []
  end.

(** [{ events: { ...component.events, [eventName]: actions } }] *)
Definition events_update (sc : ComponentSchema) (eventName : string)
  (actions : list Action) : Updates :=
  mkUpdates None None None None None
    (Some (Some (set_event (match events sc with Some e => e | None => [] end)
                   eventName actions)))
    None.

Definition default_config (ty : ActionType) : value :=
  match ty with
  | n8n_webhook =>
      VObj [("url", VStr "https://your-n8n-instance.com/webhook/...");
            ("method", VStr "POST")]
  | setState => VObj [("key", VStr "key"); ("value", VStr "value")]
  | consoleLog => VObj [("message", VStr "Hello World")]
  | alert => VObj [("message", VStr "Alert Message")]
  end.

(** [handleAddAction(eventName, type)]; [newId] is [generateId()]. *)
Definition handleAddAction (eventName : string) (ty : ActionType)
  (newId : string) (state : EditorState) : EditorState :=
  match selectedComponent state with
  | None => state
  | Some sc =>
      let newAction := mkAction newId ty (default_config ty) in
      updateComponent (id sc)
        (events_update sc eventName (currentActions sc eventName ++ [newAction]))
        state
  end.

(** [updateActionConfig(eventName, actionId, newConfig)] *)
Definition updateActionConfig (eventName actionId : string)
  (newConfig : value) (state : EditorState) : EditorState :=
  match selectedComponent state with
  | None => state
  | Some sc =>
      let newActions :=
        map (fun a =>
               if String.eqb (action_id a) actionId
               then mkAction (action_id a) (action_type a)
                      (VObj (spread (spread [] (entries (config a)))
                               (entries newConfig)))
               else a)
          (currentActions sc eventName) in
      updateComponent (id sc) (events_update sc eventName newActions) state
  end.

(** [removeAction(eventName, actionId)] *)
Definition removeAction (eventName actionId : string) (state : EditorState)
  : EditorState :=
  match selectedComponent state with
  | None => state
  | Some sc =>
      let newActions :=
        filter (fun a => negb (String.eqb (action_id a) actionId))
          (currentActions sc eventName) in
      updateComponent (id sc) (events_update sc eventName newActions) state
  end.

End App.
Export App.

(* ===================================================================== *)
(** * The renderer's computed values ([RecursiveRenderer]) *)
(* ===================================================================== *)

Module Renderer.


(** [computedLabel]; an absent label is [undefined]. *)
Definition computedLabel (isEditor : bool) (schema : ComponentSchema)
  (storeData : obj) : option value :=
  let raw :=
    match label schema with Some l => VStr l | None => VUndefined end in
  if isEditor then Some raw else evaluateExpression raw storeData.

End Renderer.
Export Renderer.

(* ===================================================================== *)
(** * Further vocabulary *)
(* ===================================================================== *)

Module Templates.

(** [c] occurs in [s]. *)
Fixpoint mentions (c : ascii) (s : string) : bool :=
  match s with
  | EmptyString => false
  | String d s' => Ascii.eqb d c || mentions c s'
  end.

(** [t] holds a reference: [{{], a non-empty run of characters on one
    line, [}}]. *)
Definition has_reference (t : string) : Prop :=
  exists pre body post,
    t = (pre ++ "{{" ++ body ++ "}}" ++ post)%string
    /\ body <> EmptyString /\ one_line body = true.


End Templates.
Export Templates.

Module Effects.

(** The store after the given [setStoreData] calls, in order. *)
Definition apply_writes (ws : list (string * value)) (state : EditorState)
  : EditorState :=
  fold_left (fun s kv => setStoreData (fst kv) (snd kv) s) ws state.

(** The writes a response stands for: with a non-empty mapping, one per
    entry whose path leads to something in the response; without, the
    whole response under [lastResult]. *)
Definition response_writes (json mapping : value) : list (string * value) :=
  if truthy mapping && negb (Nat.eqb (List.length (entries mapping)) 0)
  then
    flat_map
      (fun kv =>
         match Lodash.get json (snd kv) VUndefined with
         | VUndefined => []
         | v => [(fst kv, v)]
         end)
      (entries mapping)
  else [("lastResult", json)].

Definition events_of_writes (ws : list (string * value)) : list Event :=
  map (fun kv => SetStoreData (fst kv) (snd kv)) ws.

(** A body template from which no body can be built: a non-empty string
    that is not JSON and whose evaluation throws. *)
Definition body_throws (env : Env) (context : obj) (bodyTemplate : value)
  : bool :=
  match bodyTemplate with
  | VStr s =>
      negb (String.eqb s EmptyString)
      && match JSON_parse env s with Some _ => false | None => true end
      && match evaluateExpression (VStr s) context with
         | Some _ => false
         | None => true
         end
  | _ => false
  end.

(** An action that gets as far as sending a request. *)
Definition sends_request (env : Env) (context : obj) (a : Action) : bool :=
  match action_type a with
  | n8n_webhook =>
      negb (is_nullish (config a))
      && negb (body_throws env context (prop (config a) "body"))
  | _ => false
  end.

(** [m] appends to the trace and changes the store by exactly the writes
    it appends. *)
Definition tracks {A : Type} (m : M A) : Prop :=
  forall w, exists evs,
    trace (snd (m w)) = trace w ++ evs
    /\ live (snd (m w)) = apply_writes (writes_of evs) (live w).

End Effects.
Export Effects.

Module Order.

(** [p] is reached no later than [p'] in a pre-order walk: [p] is a
    prefix of [p'], or branches off to the left of it. *)
Fixpoint pre_order_le (p p' : list nat) : bool :=
  match p, p' with
  | [], _ => true
  | _ :: _, [] => false
  | i :: q, j :: q' => Nat.ltb i j || (Nat.eqb i j && pre_order_le q q')
  end.

(** What [findAndModify] makes of [n] when its callback is run on the
    node at the non-empty path [p]. *)
Fixpoint apply_at (cb : Callback) (p : list nat) (n : ComponentSchema)
  : ComponentSchema :=
  match p with
  | [] => n
  | [i] =>
      match nth_error (kids n) i with
      | Some c =>
          match cb c (Some n) i with
          | MutNode c' => set_children n (Some (set_nth (kids n) i c'))
          | MutParent n' => n'
          end
      | None => n
      end
  | i :: q =>
      match nth_error (kids n) i with
      | Some c => set_children n (Some (set_nth (kids n) i (apply_at cb q c)))
      | None => n
      end
  end.

(** [index] clamped into [0 .. len]. *)
Definition clamp (index : Z) (len : nat) : nat :=
  if (index <? 0)%Z then 0
  else if (Z.of_nat len <? index)%Z then len
  else Z.to_nat index.

(** [l] with its elements at [i] and [j] exchanged. *)
Definition swapped {A : Type} (l : list A) (i j : nat) : list A :=
  match nth_error l i, nth_error l j with
  | Some a, Some b => set_nth (set_nth l i b) j a
  | _, _ => l
  end.

(** [m] with its children at [i] and [j] exchanged. *)
Definition swap_children (i j : nat) (m : ComponentSchema) : ComponentSchema :=
  match children m with
  | Some cs => set_children m (Some (swapped cs i j))
  | None => m
  end.

End Order.
Export Order.

Module Invariant.

(** The shape the editor keeps its tree in: ids unique, no children
    list on a node of a leaf kind, and a root named ['root'] that can hold
    children. *)
Definition editor_tree_ok (r : ComponentSchema) : Prop :=
  NoDup (ids r) /\ leaf_shaped r = true
  /\ id r = "root" /\ is_leaf_kind (type r) = false.

End Invariant.
Export Invariant.

Module Session.

(** What the editor's controls do to the store: the property panel's
    [updateComponent] calls (which never carry [id], [type] or
    [children]), the delete and move buttons, a drop, the component
    library's buttons, and a click on the canvas. *)
Inductive Edit : Type :=
| EUpdate (target : string) (newLabel : option (option string))
    (newProps : option obj) (newStyle : option (option obj))
    (newEvents : option (option (list (string * list Action))))
| EDelete (target : string)
| EMove (target : string) (direction : Direction)
| EDrop (activeId : string) (over : option string)
| EAdd (ty : ComponentType) (now : Z)
| ESelect (sel : option string).

Definition apply_edit (e : Edit) (state : EditorState) : EditorState :=
  match e with
  | EUpdate target l p s ev =>
      updateComponent target (mkUpdates None None l p s ev None) state
  | EDelete target => deleteComponent target state
  | EMove target direction => moveComponent target direction state
  | EDrop activeId over => handleDragEnd activeId over state
  | EAdd ty now => fst (handleAddComponent ty now state)
  | ESelect sel => selectComponent sel state
  end.

Definition run_edits (edits : list Edit) (state : EditorState)
  : EditorState :=
  fold_left (fun s e => apply_edit e s) edits state.

(** The ids the [EAdd] edits of a session synthesize. *)
Fixpoint added_ids (edits : list Edit) : list string :=
  match edits with
  | [] => []
  | EAdd ty now :: rest => id (newComponent ty now) :: added_ids rest
  | _ :: rest => added_ids rest
  end.

End Session.
Export Session.

(* ===================================================================== *)
(** * Properties of the expression evaluator *)
(* ===================================================================== *)

Lemma interpolate_throws (context : obj) (matched path : string) :
  interpolate context matched path = None.
Proof. reflexivity. Qed.

(** C5.  Of the four round-trip cases the two pure references evaluate as
    stated, to the number 5 and to [undefined]; the two interpolated
    templates, ["x={{ a.b }}"] and ["y={{ missing }}"], throw instead of
    evaluating to ["x=5"] and ["y="], as does interpolation with any
    context: inside the replace callback [_] is the matched text, not
    lodash. *)
Theorem round_trip_interpolation_throws :
  evaluateExpression (VStr "{{ a.b }}") [("a", VObj [("b", VNum 5)])]
  = Some (VNum 5)
  /\ evaluateExpression (VStr "x={{ a.b }}") [("a", VObj [("b", VNum 5)])]
     = None
  /\ evaluateExpression (VStr "{{ missing }}") [] = Some VUndefined
  /\ evaluateExpression (VStr "y={{ missing }}") [] = None
  /\ (forall context,
        evaluateExpression (VStr "x={{ a.b }}") context <> Some (VStr "x=5")
        /\ evaluateExpression (VStr "y={{ missing }}") context
           <> Some (VStr "y=")).
Proof.
  repeat split; try (vm_compute; reflexivity);
    unfold evaluateExpression; cbn; discriminate.
Qed.

(** C6.  On the template ["{{ a }} {{ b }}"] the anchored pattern of the
    pure-reference test matches with the group [" a }} {{ b "], so the
    evaluator looks up one path of that name and returns [undefined], not
    a string; with a character before the first reference the anchored
    pattern no longer matches and the evaluator throws.  Neither result is
    the string ["1 2"]. *)
Theorem two_references_taken_as_one :
  let context := [("a", VNum 1); ("b", VNum 2)] in
  pureMatch "{{ a }} {{ b }}" = Some " a }} {{ b "
  /\ evaluateExpression (VStr "{{ a }} {{ b }}") context = Some VUndefined
  /\ evaluateExpression (VStr "x{{ a }} {{ b }}") context = None
  /\ (forall s, evaluateExpression (VStr "{{ a }} {{ b }}") context
                <> Some (VStr s)).
Proof.
  repeat split; try (vm_compute; reflexivity).
  intros s. vm_compute. discriminate.
Qed.

(* ===================================================================== *)
(** * Properties of the action runner *)
(* ===================================================================== *)

Section RunnerLemmas.

Variable env : Env.

Lemma appends_ret {A} (P : Event -> Prop) (a : A) : appends P (ret a).
Proof. intros w. exists []. simpl. rewrite app_nil_r. auto. Qed.

Lemma appends_throw {A} (P : Event -> Prop) : appends P (@throw A).
Proof. intros w. exists []. simpl. rewrite app_nil_r. auto. Qed.

Lemma appends_bind {A B} (P : Event -> Prop) (m : M A) (k : A -> M B) :
  appends P m -> (forall a, appends P (k a)) -> appends P (bind m k).
Proof.
  intros Hm Hk w. unfold bind.
  destruct (Hm w) as [e1 [E1 F1]].
  destruct (m w) as [[a|] w1]; simpl in *.
  - destruct (Hk a w1) as [e2 [E2 F2]].
    exists (e1 ++ e2). rewrite E2, E1, app_assoc. split; auto.
    apply Forall_app; auto.
  - exists e1. auto.
Qed.

Lemma appends_emit (P : Event -> Prop) (e : Event) :
  P e -> appends P (emit e).
Proof. intros H w. exists [e]. simpl. auto. Qed.

Lemma appends_member (P : Event -> Prop) (o : value) (k : string) :
  appends P (member o k).
Proof.
  unfold member. destruct (is_nullish o).
  - apply appends_throw.
  - apply appends_ret.
Qed.

Lemma appends_lift {A} (P : Event -> Prop) (r : option A) :
  appends P (lift r).
Proof. intros w. exists []. simpl. rewrite app_nil_r. auto. Qed.

Lemma appends_call_setStoreData (P : Event -> Prop) (k v : value) :
  P (SetStoreData (String_ k) v) -> appends P (call_setStoreData k v).
Proof. intros H w. exists [SetStoreData (String_ k) v]. simpl. auto. Qed.

Lemma appends_fetch_json (P : Event -> Prop) (r : Request) :
  P (Fetch r) -> appends P (fetch_json env r).
Proof.
  intros H w. exists [Fetch r]. unfold fetch_json.
  destruct (network env (fetches w) r); simpl; auto.
Qed.

Lemma appends_forEach {A} (P : Event -> Prop) (f : A -> M unit) l :
  (forall x, appends P (f x)) -> appends P (forEach f l).
Proof.
  intros Hf. induction l as [|x l IH]; simpl.
  - apply appends_ret.
  - apply appends_bind; auto.
Qed.

Variables context globalData : obj.

(** Whatever an action does, its events are among these. *)
Lemma runAction_appends (P : Event -> Prop) (a : Action) :
  (forall m, P (ActionLog m)) ->
  (forall m, P (Alert m)) ->
  (forall k v, P (SetStoreData k v)) ->
  (forall j, P (N8nResponse j)) ->
  (forall url method body,
      P (Fetch (mkRequest url method
                  (if is_GET method then None
                   else Some (finalBody globalData body))))) ->
  appends P (runAction env context globalData a).
Proof.
  intros HL HA HS HR HF. unfold runAction.
  destruct (action_type a).
  - do 3 (apply appends_bind; [apply appends_member | intros]).
    apply appends_bind; [apply appends_lift | intros].
    apply appends_bind; [apply appends_fetch_json; apply HF | intros].
    apply appends_bind; [apply appends_emit; auto | intros].
    apply appends_bind; [apply appends_member | intros].
    destruct (_ && _).
    + apply appends_forEach. intros [k p]. unfold mapResponse.
      destruct (Lodash.get _ _ _);
        try apply appends_ret; apply appends_call_setStoreData; auto.
    + apply appends_call_setStoreData; auto.
  - do 2 (apply appends_bind; [apply appends_member | intros]).
    apply appends_bind; [apply appends_lift | intros].
    apply appends_call_setStoreData; auto.
  - apply appends_bind; [apply appends_member | intros].
    apply appends_bind; [apply appends_lift | intros].
    apply appends_emit; auto.
  - apply appends_bind; [apply appends_member | intros].
    apply appends_bind; [apply appends_lift | intros].
    apply appends_emit; auto.
Qed.

(** One turn of the loop: [Running], the events of the action, and
    [ErrorRunning] exactly when the action threw. *)
Lemma runOne_trace (a : Action) (w : World) :
  exists evs,
    trace (snd (runAction env context globalData a
                  (snd (emit (Running a) w))))
    = trace w ++ Running a :: evs
    /\ trace (runOne env context globalData a w)
       = trace w ++ Running a :: evs ++
         match fst (runAction env context globalData a
                      (snd (emit (Running a) w))) with
         | Some _ => []
         | None => [ErrorRunning (action_type a)]
         end.
Proof.
  destruct (runAction_appends (fun _ => True) a) with
    (w := snd (emit (Running a) w)) as [evs [E _]]; auto.
  exists evs. simpl in E. rewrite <- app_assoc in E. simpl in E.
  split; [exact E|].
  unfold runOne, bind. simpl.
  destruct (runAction env context globalData a _) as [[u|] w1]; simpl in *.
  - rewrite E, app_nil_r. reflexivity.
  - rewrite E, <- app_assoc. reflexivity.
Qed.

Lemma runOne_appends (P : Event -> Prop) (a : Action) (w : World) :
  P (Running a) -> P (ErrorRunning (action_type a)) ->
  appends P (runAction env context globalData a) ->
  exists evs,
    trace (runOne env context globalData a w) = trace w ++ evs
    /\ Forall P evs.
Proof.
  intros PR PE H.
  destruct (H (snd (emit (Running a) w))) as [evs [E F]].
  simpl in E. unfold runOne, bind. simpl.
  destruct (runAction env context globalData a _) as [[u|] w1]; simpl in *.
  - exists (Running a :: evs). rewrite E, <- app_assoc. auto.
  - exists (Running a :: evs ++ [ErrorRunning (action_type a)]).
    rewrite E, <- !app_assoc. split; auto.
    constructor; auto. apply Forall_app; auto.
Qed.

Lemma runLoop_app (l1 l2 : list Action) (w : World) :
  runLoop env context globalData (l1 ++ l2) w
  = runLoop env context globalData l2 (runLoop env context globalData l1 w).
Proof. revert w. induction l1; simpl; auto. Qed.

Lemma runLoop_appends (P : Event -> Prop) (l : list Action) :
  (forall a, In a l -> P (Running a)) ->
  (forall ty, P (ErrorRunning ty)) ->
  (forall a, appends P (runAction env context globalData a)) ->
  forall w, exists evs,
    trace (runLoop env context globalData l w) = trace w ++ evs
    /\ Forall P evs.
Proof.
  intros PR PE H. induction l as [|a l IH]; intros w; simpl.
  - exists []. rewrite app_nil_r. auto.
  - destruct (runOne_appends P a w) as [e1 [E1 F1]]; auto.
    { apply PR. left. reflexivity. }
    destruct IH with (w := runOne env context globalData a w)
      as [e2 [E2 F2]].
    { intros. apply PR. right. assumption. }
    exists (e1 ++ e2). rewrite E2, E1, app_assoc. split; auto.
    apply Forall_app; auto.
Qed.

Lemma running_of_app (t1 t2 : list Event) :
  running_of (t1 ++ t2) = running_of t1 ++ running_of t2.
Proof.
  induction t1 as [|e t1 IH]; simpl; auto.
  destruct e; simpl; auto. rewrite IH. reflexivity.
Qed.

Lemma running_of_none (evs : list Event) :
  Forall (fun e => is_Running e = false) evs -> running_of evs = [].
Proof.
  induction 1 as [|e evs H _ IH]; simpl; auto.
  destruct e; simpl in *; auto; discriminate.
Qed.

Lemma runOne_running (a : Action) (w : World) :
  running_of (trace (runOne env context globalData a w))
  = running_of (trace w) ++ [a].
Proof.
  destruct (runAction_appends (fun e => is_Running e = false) a) with
    (w := snd (emit (Running a) w)) as [evs [E F]]; auto.
  destruct (runOne_trace a w) as [evs' [E' T]].
  rewrite E in E'. simpl in E'. rewrite <- app_assoc in E'. simpl in E'.
  apply app_inv_head in E'. injection E' as <-.
  rewrite T, running_of_app. simpl. rewrite running_of_app.
  rewrite (running_of_none evs F). simpl.
  destruct (fst _); reflexivity.
Qed.

Lemma runLoop_running (l : list Action) (w : World) :
  running_of (trace (runLoop env context globalData l w))
  = running_of (trace w) ++ l.
Proof.
  revert w. induction l as [|a l IH]; intros w; simpl.
  - rewrite app_nil_r. reflexivity.
  - rewrite IH, runOne_running, <- app_assoc. reflexivity.
Qed.

End RunnerLemmas.

(** ** Traces and objects *)

Lemma writes_of_app (t1 t2 : list Event) :
  writes_of (t1 ++ t2) = writes_of t1 ++ writes_of t2.
Proof.
  induction t1 as [|e t1 IH]; simpl; auto.
  destruct e; simpl; auto. rewrite IH. reflexivity.
Qed.

Lemma requests_of_app (t1 t2 : list Event) :
  requests_of (t1 ++ t2) = requests_of t1 ++ requests_of t2.
Proof.
  induction t1 as [|e t1 IH]; simpl; auto.
  destruct e; simpl; auto. rewrite IH. reflexivity.
Qed.

Lemma get_set_key (o : obj) (k : string) (v : value) :
  get_key (set_key o k v) k = Some v.
Proof.
  induction o as [|[k' v'] o IH]; simpl.
  - rewrite String.eqb_refl. reflexivity.
  - destruct (String.eqb k' k) eqn:E; simpl.
    + rewrite String.eqb_refl. reflexivity.
    + rewrite E. exact IH.
Qed.

Lemma get_set_key_other (o : obj) (k k' : string) (v : value) :
  String.eqb k k' = false ->
  get_key (set_key o k v) k' = get_key o k'.
Proof.
  intros H. induction o as [|[k0 v0] o IH]; simpl.
  - rewrite H. reflexivity.
  - destruct (String.eqb k0 k) eqn:E; simpl.
    + apply String.eqb_eq in E. subst k0. rewrite H. reflexivity.
    + rewrite IH. reflexivity.
Qed.

Lemma get_key_spread (a b : obj) (k : string) :
  NoDup (map fst b) ->
  get_key (spread a b) k
  = match get_key b k with
    | Some v => Some v
    | None => get_key a k
    end.
Proof.
  unfold spread. revert a. induction b as [|[k0 v0] b IH]; intros a ND;
    simpl; [reflexivity|].
  inversion ND as [|? ? Hn ND']; subst.
  rewrite (IH _ ND'). destruct (String.eqb k0 k) eqn:E.
  - apply String.eqb_eq in E. subst k0.
    assert (G : get_key b k = None).
    { clear - Hn. induction b as [|[k1 v1] b IH]; simpl in *; auto.
      destruct (String.eqb k1 k) eqn:E1.
      - apply String.eqb_eq in E1. tauto.
      - apply IH. tauto. }
    rewrite G. apply get_set_key.
  - destruct (get_key b k); [reflexivity|].
    apply get_set_key_other. exact E.
Qed.

Lemma finalBody_carries (g : obj) (url method body : value) :
  carries g (mkRequest url method
               (if is_GET method then None else Some (finalBody g body))).
Proof.
  unfold carries, context_field. simpl.
  destruct (is_GET method); simpl; auto using get_set_key.
Qed.

Lemma requests_of_Forall (P : Request -> Prop) (evs : list Event) :
  Forall (fun e => match e with Fetch r => P r | _ => True end) evs ->
  Forall P (requests_of evs).
Proof.
  induction 1 as [|e evs H _ IH]; simpl; auto.
  destruct e; auto.
Qed.

Lemma runActions_Some (env : Env) (l : list Action) (local : obj)
  (w : World) :
  runActions env (Some l) local w
  = runLoop env (spread (storeData (live w)) local) (storeData (live w)) l w.
Proof. destruct l; reflexivity. Qed.

Lemma runOne_eq (env : Env) (context g : obj) (a : Action) (w : World) :
  runOne env context g a w
  = let body := runAction env context g a (snd (emit (Running a) w)) in
    match fst body with
    | Some _ => snd body
    | None => snd (emit (ErrorRunning (action_type a)) (snd body))
    end.
Proof.
  unfold runOne, bind. simpl.
  destruct (runAction env context g a _) as [[u|] w1]; reflexivity.
Qed.

(** C2 (as amended).  Every request an invocation of [runActions] sends
    with a method other than [GET] carries, as its [context] field, the
    runtime data context as it was when the invocation began; a [GET]
    carries no body. *)
Theorem webhook_context_is_the_snapshot :
  forall (env : Env) (actions : option (list Action)) (local : obj)
         (w : World),
  exists evs,
    trace (runActions env actions local w) = trace w ++ evs
    /\ Forall (carries (storeData (live w))) (requests_of evs).
Proof.
  intros env actions local w.
  destruct actions as [l|].
  2:{ exists []. simpl. rewrite app_nil_r. auto. }
  rewrite runActions_Some.
  set (g := storeData (live w)).
  destruct (runLoop_appends env (spread g local) g
              (fun e => match e with Fetch r => carries g r | _ => True end) l)
    with (w := w) as [evs [E F]]; auto.
  - intros a. apply runAction_appends; auto.
    intros. apply finalBody_carries.
  - exists evs. split; [exact E|]. apply requests_of_Forall. exact F.
Qed.

(** C2 (as stated) fails: after [setState("k", 1)] the store holds [k],
    yet the webhook that follows in the same list sends the empty context
    the invocation started with. *)
Lemma webhook_context_is_not_the_live_store :
  let env := mkEnv (fun _ => None) (fun _ _ => Responds VNull)
               (fun _ s => s) in
  let set_k := mkAction "1" setState
                 (VObj [("key", VStr "k"); ("value", VNum 1)]) in
  let hook := mkAction "2" n8n_webhook (VObj [("url", VStr "u")]) in
  let w0 := mkWorld (mkState initialRoot None []) [] 0 0 in
  let at_hook := runActions env (Some [set_k]) [] w0 in
  exists r,
    requests_of (trace (runActions env (Some [set_k; hook]) [] w0)) = [r]
    /\ req_method r = VStr "POST"
    /\ storeData (live at_hook) = [("k", VNum 1)]
    /\ context_field r = Some (VObj [])
    /\ context_field r <> Some (VObj (storeData (live at_hook))).
Proof.
  simpl. eexists. split; [vm_compute; reflexivity|].
  repeat split; try reflexivity. discriminate.
Qed.



Lemma runOne_setState (env : Env) (context g : obj) (i : string)
  (cfg : value) (w : World) :
  is_nullish cfg = false ->
  let a := mkAction i setState cfg in
  runOne env context g a w
  = match evaluateExpression (prop cfg "value") context with
    | Some v =>
        snd (call_setStoreData (prop cfg "key") v (snd (emit (Running a) w)))
    | None =>
        mkWorld (live w) (trace w ++ [Running a; ErrorRunning setState])
          (awaits w) (fetches w)
    end.
Proof.
  intros H a. unfold runOne, runAction, bind, member, lift. simpl.
  rewrite H. simpl.
  destruct (evaluateExpression (prop cfg "value") context); simpl;
    rewrite <- ?app_assoc; reflexivity.
Qed.

Lemma runLoop_one (env : Env) (context g : obj) (a : Action) (w : World) :
  runLoop env context g [a] w = runOne env context g a w.
Proof. reflexivity. Qed.

(** C9.  Within one invocation the actions begin in declared order; the
    turn of the action after [a] begins only once everything [a] does,
    awaited work included, is in the trace; and for
    [[setState(k,1), n8n-webhook, setState(k,2)]] the store holds [2] at
    [k] when the list settles, whatever the webhook is configured to do,
    whatever the network answers and whatever else runs meanwhile. *)
Theorem actions_run_in_declared_order :
  forall (env : Env) (local : obj) (w : World),
    (forall l,
        running_of (trace (runActions env (Some l) local w))
        = running_of (trace w) ++ l)
    /\ (forall pre a next post,
           exists evs,
             trace (runActions env (Some (pre ++ a :: next :: post)) local w)
             = trace (runActions env (Some (pre ++ [a])) local w)
               ++ Running next :: evs)
    /\ (forall i1 i2 i3 k hook,
           let first := mkAction i1 setState
                          (VObj [("key", VStr k); ("value", VNum 1)]) in
           let second := mkAction i2 n8n_webhook hook in
           let third := mkAction i3 setState
                          (VObj [("key", VStr k); ("value", VNum 2)]) in
           get_key
             (storeData
                (live (runActions env (Some [first; second; third]) local w)))
             k
           = Some (VNum 2)).
Proof.
  intros env local w. split; [|split].
  - intros l. rewrite runActions_Some. apply runLoop_running.
  - intros pre a next post. rewrite !runActions_Some.
    set (g := storeData (live w)). set (c := spread g local).
    replace (pre ++ a :: next :: post) with ((pre ++ [a]) ++ next :: post)
      by (rewrite <- app_assoc; reflexivity).
    rewrite runLoop_app. simpl.
    set (w1 := runLoop env c g (pre ++ [a]) w).
    destruct (runOne_trace env c g next w1) as [e1 [_ E1]].
    destruct (runLoop_appends env c g (fun _ => True) post) with
      (w := runOne env c g next w1) as [e2 [E2 _]]; auto.
    { intros. apply runAction_appends; auto. }
    rewrite E2, E1. eexists. rewrite <- !app_assoc. simpl. reflexivity.
  - intros i1 i2 i3 k hook first second third.
    rewrite runActions_Some.
    change [first; second; third] with ([first; second] ++ [third]).
    rewrite runLoop_app, runLoop_one.
    unfold third. rewrite runOne_setState by reflexivity.
    simpl. apply get_set_key.
Qed.

Lemma requests_of_none (evs : list Event) :
  Forall (fun e => match e with Fetch _ => False | _ => True end) evs ->
  requests_of evs = [].
Proof.
  induction 1 as [|e evs H _ IH]; simpl; auto.
  destruct e; simpl in *; auto; contradiction.
Qed.

Lemma runOne_webhook (env : Env) (context g : obj) (i : string)
  (cfg : value) (w : World) :
  is_nullish cfg = false ->
  let a := mkAction i n8n_webhook cfg in
  match request_of env context g cfg with
  | Some r =>
      exists evs,
        trace (runOne env context g a w)
        = trace w ++ Running a :: Fetch r :: evs
        /\ requests_of evs = []
  | None =>
      runOne env context g a w
      = mkWorld (live w) (trace w ++ [Running a; ErrorRunning n8n_webhook])
          (awaits w) (fetches w)
  end.
Proof.
  intros H a. subst a. rewrite runOne_eq. cbv zeta.
  unfold runAction, bind, member, lift. simpl. rewrite H. simpl.
  unfold request_of. fold (method_of cfg).
  destruct (requestBody env context (prop cfg "body")) as [built|]; simpl.
  2:{ rewrite <- app_assoc. reflexivity. }
  set (r := mkRequest (prop cfg "url") (method_of cfg) _).
  unfold fetch_json. simpl.
  destruct (network env (fetches w) r) as [| |json]; simpl.
  - exists [ErrorRunning n8n_webhook]. rewrite <- !app_assoc. auto.
  - exists [ErrorRunning n8n_webhook]. rewrite <- !app_assoc. auto.
  - match goal with
    | |- context [(if ?c then ?m1 else ?m2) ?w2] =>
        set (tail := if c then m1 else m2); set (w' := w2)
    end.
    assert (T : appends
                  (fun e => match e with Fetch _ => False | _ => True end)
                  tail).
    { subst tail. destruct (_ && _).
      - apply appends_forEach. intros [k p]. unfold mapResponse.
        destruct (Lodash.get _ _ _);
          try apply appends_ret; apply appends_call_setStoreData; exact I.
      - apply appends_call_setStoreData. exact I. }
    destruct (T w') as [evs [E F]].
    destruct (tail w') as [[u|] w3]; simpl in *.
    + exists (N8nResponse json :: evs). rewrite E. subst w'. simpl.
      rewrite <- !app_assoc. simpl. split; [reflexivity|].
      apply requests_of_none. exact F.
    + exists (N8nResponse json :: evs ++ [ErrorRunning n8n_webhook]).
      rewrite E. subst w'. simpl. rewrite <- !app_assoc. simpl.
      split; [reflexivity|].
      rewrite requests_of_app, (requests_of_none evs F). reflexivity.
Qed.

Lemma runOne_consoleLog (env : Env) (context g : obj) (i : string)
  (cfg : value) (w : World) :
  is_nullish cfg = false ->
  let a := mkAction i consoleLog cfg in
  runOne env context g a w
  = mkWorld (live w)
      (trace w
       ++ Running a
          :: match evaluateExpression (prop cfg "message") context with
             | Some message => [ActionLog message]
             | None => [ErrorRunning consoleLog]
             end)
      (awaits w) (fetches w).
Proof.
  intros H a. unfold runOne, runAction, bind, member, lift. simpl.
  rewrite H. simpl.
  destruct (evaluateExpression (prop cfg "message") context); simpl;
    rewrite <- ?app_assoc; reflexivity.
Qed.

Lemma runOne_alert (env : Env) (context g : obj) (i : string)
  (cfg : value) (w : World) :
  is_nullish cfg = false ->
  let a := mkAction i alert cfg in
  runOne env context g a w
  = mkWorld (live w)
      (trace w
       ++ Running a
          :: match evaluateExpression (prop cfg "message") context with
             | Some message => [Alert message]
             | None => [ErrorRunning alert]
             end)
      (awaits w) (fetches w).
Proof.
  intros H a. unfold runOne, runAction, bind, member, lift. simpl.
  rewrite H. simpl.
  destruct (evaluateExpression (prop cfg "message") context); simpl;
    rewrite <- ?app_assoc; reflexivity.
Qed.




(* ===================================================================== *)
(** * Properties of the tree store *)
(* ===================================================================== *)

(** ** Lists *)

Section ListLemmas.

Context {A : Type}.

Lemma nth_error_set_nth_eq (l : list A) (i : nat) (x y : A) :
  nth_error l i = Some y -> nth_error (set_nth l i x) i = Some x.
Proof.
  revert i. induction l as [|a l IH]; intros [|i] H; simpl in *;
    try discriminate; auto.
Qed.

Lemma set_nth_same (l : list A) (i : nat) (x : A) :
  nth_error l i = Some x -> set_nth l i x = l.
Proof.
  revert i. induction l as [|a l IH]; intros [|i] H; simpl in *;
    try discriminate; auto.
  - congruence.
  - rewrite IH; auto.
Qed.

Lemma set_nth_twice (l : list A) (i : nat) (x y : A) :
  set_nth (set_nth l i x) i y = set_nth l i y.
Proof.
  revert i. induction l as [|a l IH]; intros [|i]; simpl; auto.
  rewrite IH. reflexivity.
Qed.

Lemma nth_nth_error (l : list A) (i : nat) (x d : A) :
  nth_error l i = Some x -> nth i l d = x.
Proof.
  revert i. induction l as [|a l IH]; intros [|i] H; simpl in *;
    try discriminate; auto. congruence.
Qed.

Lemma splice_in_nth_error (l : list A) (k : nat) (x : A) :
  k <= List.length l -> nth_error (splice_in l k x) k = Some x.
Proof.
  intros H. unfold splice_in.
  rewrite nth_error_app2; rewrite firstn_length_le by lia; [|lia].
  rewrite Nat.sub_diag. reflexivity.
Qed.

Context {B : Type}.
Variable f : A -> list B.

Lemma flat_map_splice_in (l : list A) (k : nat) (x : A) :
  Permutation (flat_map f (splice_in l k x)) (f x ++ flat_map f l).
Proof.
  unfold splice_in. rewrite flat_map_app. simpl.
  rewrite <- (firstn_skipn k l) at 3. rewrite flat_map_app.
  rewrite app_assoc, app_assoc.
  apply Permutation_app_tail, Permutation_app_comm.
Qed.

Lemma flat_map_splice_out (l : list A) (i : nat) (x : A) :
  nth_error l i = Some x ->
  Permutation (flat_map f l) (f x ++ flat_map f (splice_out l i)).
Proof.
  revert i. induction l as [|a l IH]; intros [|i] H; simpl in *;
    try discriminate.
  - injection H as ->. unfold splice_out. simpl. reflexivity.
  - unfold splice_out in *. simpl.
    rewrite (IH i H). rewrite !app_assoc.
    apply Permutation_app_tail, Permutation_app_comm.
Qed.

Lemma flat_map_set_nth (l : list A) (i : nat) (x y : A) (extra : list B) :
  nth_error l i = Some x ->
  Permutation (f y) (extra ++ f x) ->
  Permutation (flat_map f (set_nth l i y)) (extra ++ flat_map f l).
Proof.
  revert i. induction l as [|a l IH]; intros [|i] H P; simpl in *;
    try discriminate.
  - injection H as ->. rewrite P, app_assoc. reflexivity.
  - rewrite (IH i H P). rewrite !app_assoc.
    apply Permutation_app_tail, Permutation_app_comm.
Qed.

End ListLemmas.

Section FirstSome.

Context {A R : Type}.
Variable f : nat -> A -> option R.

Lemma first_some_Some (l : list A) (i j : nat) (r : R) :
  first_some f i l = Some (j, r) ->
  exists k x,
    j = i + k /\ nth_error l k = Some x /\ f j x = Some r
    /\ forall k' x', k' < k -> nth_error l k' = Some x' ->
                     f (i + k') x' = None.
Proof.
  revert i. induction l as [|a l IH]; intros i H; simpl in H;
    [discriminate|].
  destruct (f i a) eqn:E.
  - injection H as <- <-. exists 0, a. rewrite Nat.add_0_r.
    repeat split; auto. intros; lia.
  - destruct (IH _ H) as [k [x [-> [N [F Hn]]]]].
    exists (S k), x.
    split; [lia|]. split; [exact N|]. split.
    + replace (i + S k) with (S i + k) by lia. exact F.
    + intros [|k'] x' Hlt Hx'; simpl in Hx'.
      * injection Hx' as <-. rewrite Nat.add_0_r. exact E.
      * replace (i + S k') with (S i + k') by lia.
        apply Hn; auto. lia.
Qed.

End FirstSome.

(** ** Nodes and paths *)

Lemma ids_eq (n : ComponentSchema) : ids n = id n :: flat_map ids (kids n).
Proof. destruct n as [i t l p s e [cs|]]; reflexivity. Qed.

Lemma kids_set_children (n : ComponentSchema) (cs : list ComponentSchema) :
  kids (set_children n (Some cs)) = cs.
Proof. destruct n; reflexivity. Qed.

Lemma id_set_children (n : ComponentSchema) cs :
  id (set_children n cs) = id n.
Proof. destruct n; reflexivity. Qed.

Lemma children_kids (n : ComponentSchema) (cs : list ComponentSchema) :
  children n = Some cs -> kids n = cs.
Proof. unfold kids. intros ->. reflexivity. Qed.

Lemma Forall_nth_error {A : Type} (P : A -> Prop) (l : list A) (i : nat)
  (x : A) :
  Forall P l -> nth_error l i = Some x -> P x.
Proof.
  intros F H. rewrite Forall_forall in F. apply F.
  eapply nth_error_In; eauto.
Qed.

Lemma delete_at_cons (j : nat) (p : list nat) (n : ComponentSchema) :
  p <> [] ->
  delete_at (j :: p) n
  = match nth_error (kids n) j with
    | Some c => set_children n (Some (set_nth (kids n) j (delete_at p c)))
    | None => n
    end.
Proof. destruct p; [congruence | reflexivity]. Qed.

Lemma findIndex_Some (d : string) (cs : list ComponentSchema) (idx : nat) :
  findIndex d cs = Some idx ->
  exists c, nth_error cs idx = Some c /\ id c = d.
Proof.
  revert idx. induction cs as [|c cs IH]; intros idx H; simpl in H;
    [discriminate|].
  destruct (String.eqb (id c) d) eqn:E.
  - injection H as <-. exists c. split; auto. apply String.eqb_eq; auto.
  - destruct (findIndex d cs) as [i|]; [|discriminate].
    injection H as <-. destruct (IH i eq_refl) as [c' [N I]].
    exists c'. auto.
Qed.

(** [removeNode] detaches the subtree at some path, whose root has the
    dragged id. *)
Lemma removeNode_spec (d : string) (n : ComponentSchema) :
  forall x n',
    removeNode d n = Some (x, n') ->
    exists p, p <> [] /\ subtree_at p n = Some x /\ id x = d
              /\ n' = delete_at p n.
Proof.
  induction n as [i t l pr s e | i t l pr s e cs IH] using tree_ind;
    intros x n' H; simpl in H; [discriminate|].
  destruct (findIndex d cs) as [idx|] eqn:FI.
  - injection H as <- <-.
    destruct (findIndex_Some _ _ _ FI) as [c [N I]].
    exists [idx]. rewrite (nth_nth_error _ _ _ _ N).
    split; [discriminate|]. split; [|split; [exact I | reflexivity]].
    cbn. rewrite N. reflexivity.
  - destruct (first_some _ 0 cs) as [[j [x0 c']]|] eqn:FS; [|discriminate].
    injection H as <- <-.
    destruct (first_some_Some _ _ _ _ _ FS) as [k [c [-> [N [R _]]]]].
    simpl in *.
    destruct (Forall_nth_error _ _ _ _ IH N _ _ R) as [p [Hp [Sp [I E]]]].
    exists (k :: p). rewrite delete_at_cons by exact Hp. cbn. rewrite N.
    split; [discriminate|]. split; [exact Sp|]. split; [exact I|].
    rewrite E. reflexivity.
Qed.

(** [insertNode] attaches the dragged node below the first node, in
    pre-order, that has the target id, at the clamped index. *)
Lemma insertNode_spec (t : string) (index : Z) (x n : ComponentSchema) :
  forall n',
    insertNode t index x n = Some n' ->
    exists q tgt,
      subtree_at q n = Some tgt /\ id tgt = t
      /\ n' = attach q (safeIndex index (List.length (kids tgt))) x n.
Proof.
  induction n as [i ty l pr s e | i ty l pr s e cs IH] using tree_ind;
    intros n' H; simpl in H.
  - destruct (String.eqb i t) eqn:E; [|discriminate].
    injection H as <-. exists [], (mkComponent i ty l pr s e None).
    repeat split. apply String.eqb_eq; auto.
  - destruct (String.eqb i t) eqn:E.
    + injection H as <-. exists [], (mkComponent i ty l pr s e (Some cs)).
      repeat split. apply String.eqb_eq; auto.
    + destruct (first_some _ 0 cs) as [[j c']|] eqn:FS; [|discriminate].
      injection H as <-.
      destruct (first_some_Some _ _ _ _ _ FS) as [k [c [-> [N [R _]]]]].
      simpl in *.
      destruct (Forall_nth_error _ _ _ _ IH N _ R) as [q [tgt [Sq [I ->]]]].
      exists (k :: q), tgt. unfold attach. cbn. rewrite N.
      repeat split; auto.
Qed.

Lemma subtree_at_app (p q : list nat) (n : ComponentSchema) :
  subtree_at (p ++ q) n
  = match subtree_at p n with
    | Some m => subtree_at q m
    | None => None
    end.
Proof.
  revert n. induction p as [|i p IH]; intros n; simpl; auto.
  destruct (nth_error (kids n) i); auto.
Qed.

Lemma subtree_at_update_at (p : list nat) f (n x : ComponentSchema) :
  subtree_at p n = Some x -> subtree_at p (update_at p f n) = Some (f x).
Proof.
  revert n. induction p as [|i p IH]; intros n H; simpl in *.
  - congruence.
  - destruct (nth_error (kids n) i) as [c|] eqn:N; [|discriminate].
    simpl. rewrite kids_set_children.
    rewrite (nth_error_set_nth_eq _ _ _ _ N). auto.
Qed.

(** After an [attach] at [q], index [k], the attached node is there. *)
Lemma subtree_at_attach (q : list nat) (k : nat) (x n tgt : ComponentSchema) :
  subtree_at q n = Some tgt -> k <= List.length (kids tgt) ->
  subtree_at (q ++ [k]) (attach q k x n) = Some x.
Proof.
  intros S L. rewrite subtree_at_app. unfold attach.
  rewrite (subtree_at_update_at _ _ _ _ S). simpl.
  unfold insert_child. rewrite kids_set_children.
  rewrite splice_in_nth_error by exact L. reflexivity.
Qed.

(** Detaching loses exactly the ids of the detached subtree. *)
Lemma ids_delete_at (p : list nat) :
  forall n x,
    p <> [] -> subtree_at p n = Some x ->
    Permutation (ids n) (ids x ++ ids (delete_at p n)).
Proof.
  induction p as [|i p IH]; intros n x Hp S; [congruence|].
  simpl in S. destruct (nth_error (kids n) i) as [c|] eqn:N; [|discriminate].
  destruct p as [|j p].
  - simpl in S. injection S as <-. simpl.
    destruct (children n) as [cs|] eqn:C.
    + rewrite (children_kids _ _ C) in N.
      rewrite (ids_eq n), (ids_eq (set_children _ _)).
      rewrite kids_set_children, id_set_children, (children_kids _ _ C).
      rewrite (flat_map_splice_out ids _ _ _ N).
      apply Permutation_middle.
    + unfold kids in N. rewrite C in N. destruct i; discriminate.
  - rewrite delete_at_cons by discriminate. rewrite N.
    rewrite (ids_eq n), (ids_eq (set_children _ _)).
    rewrite kids_set_children, id_set_children.
    assert (P : Permutation (ids c) (ids x ++ ids (delete_at (j :: p) c)))
      by (apply IH; [discriminate | exact S]).
    etransitivity; [|apply Permutation_middle]. constructor.
    assert (K : kids n
                = set_nth (set_nth (kids n) i (delete_at (j :: p) c)) i c)
      by (rewrite set_nth_twice, set_nth_same; auto).
    rewrite K at 1.
    apply flat_map_set_nth with (x := delete_at (j :: p) c).
    + apply nth_error_set_nth_eq with (y := c). exact N.
    + exact P.
Qed.

(** Attaching adds exactly the ids of the attached subtree. *)
Lemma ids_attach (q : list nat) (k : nat) (x : ComponentSchema) :
  forall n tgt,
    subtree_at q n = Some tgt ->
    Permutation (ids (attach q k x n)) (ids x ++ ids n).
Proof.
  unfold attach.
  induction q as [|i q IH]; intros n tgt S; simpl in *.
  - unfold insert_child. rewrite (ids_eq (set_children _ _)), (ids_eq n).
    rewrite kids_set_children, id_set_children.
    rewrite flat_map_splice_in. apply Permutation_middle.
  - destruct (nth_error (kids n) i) as [c|] eqn:N; [|discriminate].
    rewrite (ids_eq (set_children _ _)), (ids_eq n).
    rewrite kids_set_children, id_set_children.
    etransitivity; [|apply Permutation_middle]. constructor.
    apply flat_map_set_nth with (x := c); eauto.
Qed.

Lemma nth_error_flat_map_incl {A B : Type} (f : A -> list B) (l : list A)
  (i : nat) (x : A) (z : B) :
  nth_error l i = Some x -> In z (f x) -> In z (flat_map f l).
Proof.
  intros N H. apply in_flat_map. exists x. split; auto.
  eapply nth_error_In; eauto.
Qed.

Lemma subtree_at_id_in (p : list nat) :
  forall n x, subtree_at p n = Some x -> In (id x) (ids n).
Proof.
  induction p as [|i p IH]; intros n x H; simpl in H.
  - injection H as <-. rewrite ids_eq. left. reflexivity.
  - destruct (nth_error (kids n) i) as [c|] eqn:N; [|discriminate].
    rewrite ids_eq. right.
    eapply nth_error_flat_map_incl; eauto.
Qed.

Lemma NoDup_flat_map_nth {A B : Type} (f : A -> list B) (l : list A) :
  NoDup (flat_map f l) ->
  forall i x, nth_error l i = Some x -> NoDup (f x).
Proof.
  induction l as [|a l IH]; intros ND [|i] x N; simpl in *;
    try discriminate.
  - injection N as <-. eapply NoDup_app_remove_r; eauto.
  - eapply IH; eauto. eapply NoDup_app_remove_l; eauto.
Qed.

Lemma NoDup_app_disjoint {B : Type} (l1 l2 : list B) (z : B) :
  NoDup (l1 ++ l2) -> In z l1 -> In z l2 -> False.
Proof.
  induction l1 as [|a l1 IH]; intros ND H1 H2; simpl in *; [contradiction|].
  inversion ND as [|? ? Hn ND']; subst.
  destruct H1 as [->|H1].
  - apply Hn. apply in_or_app. right. exact H2.
  - eauto.
Qed.

Lemma NoDup_flat_map_disjoint {A B : Type} (f : A -> list B) (l : list A) :
  NoDup (flat_map f l) ->
  forall i j x y z,
    i <> j -> nth_error l i = Some x -> nth_error l j = Some y ->
    In z (f x) -> In z (f y) -> False.
Proof.
  induction l as [|a l IH]; intros ND [|i] [|j] x y z Hij Nx Ny Hx Hy;
    simpl in *; try discriminate; try congruence.
  - injection Nx as <-.
    eapply NoDup_app_disjoint; eauto.
    eapply nth_error_flat_map_incl; eauto.
  - injection Ny as <-.
    eapply NoDup_app_disjoint; eauto.
    eapply nth_error_flat_map_incl; eauto.
  - eapply (IH (NoDup_app_remove_l _ _ ND) i j); eauto.
Qed.

(** In a tree whose ids are unique, an id names one subtree. *)
Lemma unique_subtree (p : list nat) :
  forall p' n a b,
    NoDup (ids n) ->
    subtree_at p n = Some a -> subtree_at p' n = Some b -> id a = id b ->
    a = b.
Proof.
  induction p as [|i p IH]; intros p' n a b ND Ha Hb E.
  - simpl in Ha. injection Ha as <-.
    destruct p' as [|j p']; simpl in Hb; [congruence|].
    destruct (nth_error (kids n) j) as [c|] eqn:N; [|discriminate].
    exfalso. rewrite ids_eq in ND. inversion ND as [|? ? Hn _]; subst.
    apply Hn. rewrite E.
    eapply nth_error_flat_map_incl; eauto.
    eapply subtree_at_id_in; eauto.
  - simpl in Ha.
    destruct (nth_error (kids n) i) as [c|] eqn:N; [|discriminate].
    rewrite ids_eq in ND. inversion ND as [|? ? Hn ND']; subst.
    destruct p' as [|j p']; simpl in Hb.
    + injection Hb as <-. exfalso. apply Hn. rewrite <- E.
      eapply nth_error_flat_map_incl; eauto.
      eapply subtree_at_id_in; eauto.
    + destruct (nth_error (kids n) j) as [c'|] eqn:N'; [|discriminate].
      destruct (Nat.eq_dec i j) as [->|Hij].
      * assert (c' = c) by congruence. subst c'.
        eapply IH; eauto. eapply NoDup_flat_map_nth; eauto.
      * exfalso.
        eapply (NoDup_flat_map_disjoint ids _ ND' i j c c' (id a)); eauto.
        -- eapply subtree_at_id_in; eauto.
        -- rewrite E. eapply subtree_at_id_in; eauto.
Qed.

(** ** Searching by id *)

(** Two loops over the same children that fail on the same children stop
    at the same child. *)
Lemma first_some_both {A R T : Type} (f : nat -> A -> option R)
  (g : nat -> A -> option T) (l : list A) (i : nat) :
  (forall k x, nth_error l k = Some x ->
               (f (i + k) x = None <-> g (i + k) x = None)) ->
  (first_some f i l = None /\ first_some g i l = None)
  \/ exists k x r r',
       nth_error l k = Some x
       /\ first_some f i l = Some (i + k, r)
       /\ first_some g i l = Some (i + k, r')
       /\ f (i + k) x = Some r /\ g (i + k) x = Some r'.
Proof.
  revert i. induction l as [|a l IH]; intros i H; simpl; auto.
  pose proof (H 0 a eq_refl) as H0. rewrite Nat.add_0_r in H0.
  destruct (f i a) as [r|] eqn:Ef, (g i a) as [r'|] eqn:Eg.
  - right. exists 0, a, r, r'. rewrite Nat.add_0_r. auto.
  - destruct H0 as [_ H0]. discriminate (H0 eq_refl).
  - destruct H0 as [H0 _]. discriminate (H0 eq_refl).
  - destruct (IH (S i)) as [[F G] | [k [x [r [r' [N [F [G [Fx Gx]]]]]]]]].
    + intros k x Hx. replace (S i + k) with (i + S k) by lia.
      apply H. exact Hx.
    + left. auto.
    + right. exists (S k), x, r, r'.
      replace (i + S k) with (S i + k) by lia. auto.
Qed.

(** [path_to] leads to a node with the id sought, and that node is the
    one [findNode] returns. *)
Lemma path_to_findNode (t : string) (n : ComponentSchema) :
  match path_to t n with
  | Some p => exists x, subtree_at p n = Some x /\ id x = t
                        /\ findNode n t = Some x
  | None => findNode n t = None
  end.
Proof.
  induction n as [i ty l pr s e | i ty l pr s e cs IH] using tree_ind;
    simpl.
  - destruct (String.eqb i t) eqn:E; auto.
    eexists. repeat split. apply String.eqb_eq; auto.
  - destruct (String.eqb i t) eqn:E.
    { eexists. repeat split. apply String.eqb_eq; auto. }
    destruct (first_some_both (fun _ c => path_to t c)
                (fun _ c => findNode c t) cs 0)
      as [[F G] | [k [c [p [x [N [F [G [Fc Gc]]]]]]]]].
    + intros k c N. pose proof (Forall_nth_error _ _ _ _ IH N) as Hc.
      simpl in Hc. destruct (path_to t c).
      * destruct Hc as [x [_ [_ Hx]]]. rewrite Hx.
        split; discriminate.
      * rewrite Hc. split; reflexivity.
    + rewrite F, G. reflexivity.
    + rewrite F, G. pose proof (Forall_nth_error _ _ _ _ IH N) as Hc.
      simpl in Hc. rewrite Fc in Hc. destruct Hc as [x' [Sx [Ix Fx]]].
      exists x'. cbn. rewrite N. repeat split; congruence.
Qed.

Lemma path_to_valid (t : string) (n : ComponentSchema) (p : list nat) :
  path_to t n = Some p ->
  exists x, subtree_at p n = Some x /\ id x = t /\ findNode n t = Some x.
Proof. intros H. pose proof (path_to_findNode t n) as P. rewrite H in P. exact P. Qed.

Lemma path_to_None (t : string) (n : ComponentSchema) :
  path_to t n = None <-> findNode n t = None.
Proof.
  pose proof (path_to_findNode t n) as P.
  destruct (path_to t n).
  - destruct P as [x [_ [_ F]]]. rewrite F. split; discriminate.
  - split; auto.
Qed.

Lemma path_to_nil (t : string) (n : ComponentSchema) :
  path_to t n = Some [] <-> id n = t.
Proof.
  destruct n as [i ty l pr s e cs]; simpl.
  destruct (String.eqb i t) eqn:E.
  - apply String.eqb_eq in E. split; auto.
  - apply String.eqb_neq in E. split; [|contradiction].
    destruct cs as [cs|]; [|discriminate].
    destruct (first_some _ 0 cs) as [[j p]|]; discriminate.
Qed.

(** [findAndModify] with a callback that edits the node it is given edits
    the node [path_to] leads to. *)
Lemma findAndModify_node (t : string) (f : ComponentSchema -> ComponentSchema)
  (n : ComponentSchema) :
  forall parent index,
    findAndModify n t (fun node _ _ => MutNode (f node)) parent index
    = match path_to t n with
      | Some p => Some (MutNode (update_at p f n))
      | None => None
      end.
Proof.
  induction n as [i ty l pr s e | i ty l pr s e cs IH] using tree_ind;
    intros parent index; simpl.
  - destruct (String.eqb i t); reflexivity.
  - destruct (String.eqb i t); [reflexivity|].
    set (node := mkComponent i ty l pr s e (Some cs)).
    destruct (first_some_both
                (fun j c => findAndModify c t (fun node _ _ => MutNode (f node))
                              (Some node) j)
                (fun _ c => path_to t c) cs 0)
      as [[F G] | [k [c [m [p [N [F [G [Fc Gc]]]]]]]]].
    + intros k c N. rewrite (Forall_nth_error _ _ _ _ IH N).
      destruct (path_to t c); split; congruence.
    + rewrite F, G. reflexivity.
    + rewrite F, G. rewrite (Forall_nth_error _ _ _ _ IH N), Gc in Fc.
      injection Fc as <-. cbn. rewrite N. reflexivity.
Qed.

(** [findAndModify] with the callback of [deleteComponent] detaches the
    node [path_to] leads to, when that node has a parent. *)
Lemma findAndModify_delete (t : string) (n : ComponentSchema) :
  forall parent index,
    findAndModify n t delete_callback parent index
    = match path_to t n with
      | None => None
      | Some [] => Some (delete_callback n parent index)
      | Some p => Some (MutNode (delete_at p n))
      end.
Proof.
  induction n as [i ty l pr s e | i ty l pr s e cs IH] using tree_ind;
    intros parent index; simpl.
  - destruct (String.eqb i t); reflexivity.
  - destruct (String.eqb i t); [reflexivity|].
    set (node := mkComponent i ty l pr s e (Some cs)).
    destruct (first_some_both
                (fun j c => findAndModify c t delete_callback (Some node) j)
                (fun _ c => path_to t c) cs 0)
      as [[F G] | [k [c [m [p [N [F [G [Fc Gc]]]]]]]]].
    + intros k c N. rewrite (Forall_nth_error _ _ _ _ IH N).
      destruct (path_to t c) as [[|]|]; split; congruence.
    + rewrite F, G. reflexivity.
    + rewrite F, G. rewrite (Forall_nth_error _ _ _ _ IH N), Gc in Fc.
      destruct p as [|j p]; injection Fc as <-.
      * reflexivity.
      * rewrite delete_at_cons by discriminate. cbn. rewrite N.
        reflexivity.
Qed.

Lemma subtree_at_delete_at_parent (p : list nat) (i : nat) :
  forall n parent,
    subtree_at p n = Some parent ->
    subtree_at p (delete_at (p ++ [i]) n)
    = Some (match children parent with
            | Some cs => set_children parent (Some (splice_out cs i))
            | None => parent
            end).
Proof.
  induction p as [|j p IH]; intros n parent S; simpl in S.
  - injection S as <-. reflexivity.
  - destruct (nth_error (kids n) j) as [c|] eqn:N; [|discriminate].
    change ((j :: p) ++ [i]) with (j :: (p ++ [i])).
    rewrite delete_at_cons by (destruct p; discriminate).
    rewrite N. simpl. rewrite kids_set_children.
    rewrite (nth_error_set_nth_eq _ _ _ _ N). auto.
Qed.

(** ** Deleting a component *)

(** C7 (as amended).  [deleteComponent('root')] returns the state it was
    given.  For any other id the selection is cleared, whichever id was
    selected and whether or not the id is in the tree; the data context is
    kept; the tree is kept when no node has the id or the root has it;
    otherwise the first node in pre-order with that id leaves the child
    list of its parent, its later siblings moving up, and the rest of the
    tree stays as it was. *)
Theorem deleteComponent_detaches_and_deselects :
  forall (target : string) (state : EditorState),
    let state' := deleteComponent target state in
    (target = "root" -> state' = state)
    /\ (target <> "root" ->
        selectedId state' = None
        /\ storeData state' = storeData state
        /\ (findNode (root state) target = None -> root state' = root state)
        /\ (id (root state) = target -> root state' = root state)
        /\ (forall x,
               findNode (root state) target = Some x ->
               id (root state) <> target ->
               exists p i parent cs,
                 subtree_at p (root state) = Some parent
                 /\ children parent = Some cs
                 /\ nth_error cs i = Some x
                 /\ root state' = delete_at (p ++ [i]) (root state)
                 /\ subtree_at p (root state')
                    = Some (set_children parent
                              (Some (firstn i cs ++ skipn (S i) cs)))
                 /\ Permutation (ids (root state))
                      (ids x ++ ids (root state')))).
Proof.
  intros target state state'. subst state'. unfold deleteComponent.
  split.
  { intros ->. reflexivity. }
  intros Hne. apply String.eqb_neq in Hne. rewrite Hne. simpl.
  unfold modified. rewrite findAndModify_delete.
  split; [reflexivity|]. split; [reflexivity|].
  split; [|split].
  - intros F. apply path_to_None in F. rewrite F. reflexivity.
  - intros I. apply path_to_nil in I. rewrite I. reflexivity.
  - intros x F I.
    destruct (path_to target (root state)) as [path|] eqn:P.
    2:{ apply path_to_None in P. congruence. }
    destruct (path_to_valid _ _ _ P) as [x' [Sx [Ix Fx]]].
    assert (x' = x) by congruence. subst x'.
    destruct path as [|j path].
    { apply path_to_nil in P. contradiction. }
    destruct (exists_last (l := j :: path)) as [p [i E]]; [discriminate|].
    rewrite E in *. clear E.
    rewrite subtree_at_app in Sx.
    destruct (subtree_at p (root state)) as [parent|] eqn:Sp;
      [|discriminate].
    simpl in Sx.
    destruct (nth_error (kids parent) i) as [c|] eqn:N; [|discriminate].
    injection Sx as ->.
    destruct (children parent) as [cs|] eqn:C.
    2:{ unfold kids in N. rewrite C in N. destruct i; discriminate. }
    rewrite (children_kids _ _ C) in N.
    exists p, i, parent, cs.
    assert (D : match p ++ [i] with
                | [] => delete_callback (root state) None 0
                | _ :: _ => MutNode (delete_at (p ++ [i]) (root state))
                end = MutNode (delete_at (p ++ [i]) (root state)))
      by (destruct p; reflexivity).
    assert (Sx : subtree_at (p ++ [i]) (root state) = Some x).
    { rewrite subtree_at_app, Sp. simpl.
      rewrite (children_kids _ _ C), N. reflexivity. }
    replace (match
                match p ++ [i] with
                | [] => Some (delete_callback (root state) None 0)
                | _ :: _ => Some (MutNode (delete_at (p ++ [i]) (root state)))
                end
              with
              | Some (MutNode r) => r
              | _ => root state
              end) with (delete_at (p ++ [i]) (root state))
      by (destruct p; reflexivity).
    repeat split; auto.
    + rewrite (subtree_at_delete_at_parent _ _ _ _ Sp), C. reflexivity.
    + apply ids_delete_at; [destruct p; discriminate | exact Sx].
Qed.

(** ** Adding components *)

Lemma ids_update_at (q : list nat) (f : ComponentSchema -> ComponentSchema)
  (extra : list string) :
  (forall m, Permutation (ids (f m)) (extra ++ ids m)) ->
  forall n tgt,
    subtree_at q n = Some tgt ->
    Permutation (ids (update_at q f n)) (extra ++ ids n).
Proof.
  intros Hf.
  induction q as [|i q IH]; intros n tgt S; simpl in *; auto.
  destruct (nth_error (kids n) i) as [c|] eqn:N; [|discriminate].
  rewrite (ids_eq (set_children _ _)), (ids_eq n).
  rewrite kids_set_children, id_set_children.
  etransitivity; [|apply Permutation_middle]. constructor.
  apply flat_map_set_nth with (x := c); eauto.
Qed.

Lemma ids_newComponent (ty : ComponentType) (now : Z) :
  ids (newComponent ty now) = [id (newComponent ty now)].
Proof. destruct ty; reflexivity. Qed.

Lemma ids_push_child (m x : ComponentSchema) :
  Permutation (ids (push_child m x)) (ids x ++ ids m).
Proof.
  unfold push_child. rewrite (ids_eq m). unfold kids.
  destruct (children m) as [cs|]; rewrite ids_eq, kids_set_children,
    id_set_children; simpl.
  - rewrite flat_map_app. simpl. rewrite app_nil_r.
    etransitivity; [|apply Permutation_middle]. constructor.
    apply Permutation_app_comm.
  - rewrite app_nil_r. apply Permutation_cons_append.
Qed.

(** What [addComponent] does to the tree: nothing when no node has the
    parent id, else the new component becomes the last child of the root
    (for ['root']) or of the first node in pre-order with that id. *)
Lemma addComponent_root (parentId : string) (ty : ComponentType) (now : Z)
  (state : EditorState) :
  root (addComponent parentId ty now state)
  = if String.eqb parentId "root"
    then set_children (root state)
           (Some (kids (root state) ++ [newComponent ty now]))
    else match path_to parentId (root state) with
         | Some p =>
             update_at p (fun m => push_child m (newComponent ty now))
               (root state)
         | None => root state
         end.
Proof.
  unfold addComponent. simpl. destruct (String.eqb parentId "root").
  - reflexivity.
  - unfold modified.
    rewrite (findAndModify_node parentId
               (fun m => push_child m (newComponent ty now))).
    destruct (path_to parentId (root state)); reflexivity.
Qed.

Lemma addComponent_ids (parentId : string) (ty : ComponentType) (now : Z)
  (state : EditorState) :
  root (addComponent parentId ty now state) = root state
  \/ Permutation (ids (root (addComponent parentId ty now state)))
       (id (newComponent ty now) :: ids (root state)).
Proof.
  rewrite addComponent_root. destruct (String.eqb parentId "root").
  - right. rewrite (ids_eq (set_children _ _)), (ids_eq (root state)).
    rewrite kids_set_children, id_set_children, flat_map_app.
    change (flat_map ids [newComponent ty now])
      with (ids (newComponent ty now) ++ []).
    rewrite app_nil_r, ids_newComponent.
    etransitivity; [|apply perm_swap]. constructor.
    apply Permutation_sym, Permutation_cons_append.
  - destruct (path_to parentId (root state)) as [p|] eqn:P; [right|left; auto].
    destruct (path_to_valid _ _ _ P) as [x [S _]].
    change (id (newComponent ty now) :: ids (root state))
      with ([id (newComponent ty now)] ++ ids (root state)).
    eapply ids_update_at; eauto.
    intros m. rewrite <- ids_newComponent. apply ids_push_child.
Qed.

(** C4 (as amended).  A sequence of [addComponent] calls keeps the ids of
    the tree unique provided the ids it synthesizes, [`${type}_${now}`]
    for each call, differ from one another and from the ids the tree
    starts with. *)
Theorem addComponent_keeps_ids_unique :
  forall (calls : list (string * ComponentType * Z)) (state : EditorState),
    NoDup (ids (root state) ++ map new_id calls) ->
    NoDup (ids (root (addComponents calls state))).
Proof.
  unfold addComponents.
  induction calls as [|[[parentId ty] now] calls IH]; intros state ND;
    simpl in *.
  - rewrite app_nil_r in ND. exact ND.
  - apply IH.
    destruct (addComponent_ids parentId ty now state) as [E | P].
    + rewrite E. eapply NoDup_remove_1. exact ND.
    + eapply Permutation_NoDup; [|exact ND].
      rewrite P. unfold new_id. simpl.
      symmetry. apply Permutation_middle.
Qed.

Lemma addComponent_keeps_ids_unique_witness :
  NoDup (ids (root (addComponents [("root", button, 1%Z); ("root", button, 2%Z)]
                      (mkState initialRoot None [])))).
Proof.
  apply addComponent_keeps_ids_unique.
  repeat constructor; simpl; intuition discriminate.
Defined.

(** C4 (as stated) fails: two inserts of the same type at the same clock
    reading get the same id. *)
Lemma addComponent_same_millisecond_collides :
  let state := mkState initialRoot None [] in
  NoDup (ids (root state))
  /\ ids (root (addComponents [("root", button, 0%Z); ("root", button, 0%Z)]
                  state))
     = ["root"; "button_0"; "button_0"]
  /\ ~ NoDup (ids (root (addComponents
                           [("root", button, 0%Z); ("root", button, 0%Z)]
                           state))).
Proof.
  simpl. split; [|split].
  - repeat constructor. simpl. tauto.
  - reflexivity.
  - intros ND. inversion ND as [|? ? _ ND1]; subst.
    inversion ND1 as [|? ? Hn _]; subst. apply Hn. left. reflexivity.
Qed.

(** ** Leaves *)

Lemma leaf_shaped_set_children (n : ComponentSchema)
  (cs cs' : list ComponentSchema) :
  children n = Some cs -> leaf_shaped n = true ->
  forallb leaf_shaped cs' = true ->
  leaf_shaped (set_children n (Some cs')) = true.
Proof.
  destruct n as [i ty l pr s e c]; simpl. intros -> H F.
  apply andb_true_iff in H. destruct H as [H _]. rewrite H, F. reflexivity.
Qed.

Lemma leaf_shaped_kids (n : ComponentSchema) :
  leaf_shaped n = true -> forallb leaf_shaped (kids n) = true.
Proof.
  destruct n as [i ty l pr s e [cs|]]; simpl; auto.
  intros H. apply andb_true_iff in H. tauto.
Qed.

Lemma forallb_set_nth {A : Type} (f : A -> bool) (l : list A) (i : nat)
  (x : A) :
  forallb f l = true -> f x = true -> forallb f (set_nth l i x) = true.
Proof.
  revert i. induction l as [|a l IH]; intros [|i] H Hx; simpl in *; auto;
    apply andb_true_iff in H; destruct H as [Ha Hl];
    apply andb_true_iff; auto.
Qed.

Lemma forallb_splice_out {A : Type} (f : A -> bool) (l : list A) (i : nat) :
  forallb f l = true -> forallb f (splice_out l i) = true.
Proof.
  revert i. induction l as [|a l IH]; intros [|i] H; simpl in *; auto;
    apply andb_true_iff in H; destruct H as [Ha Hl].
  - exact Hl.
  - apply andb_true_iff. split; [exact Ha|]. apply (IH i Hl).
Qed.

Lemma forallb_nth {A : Type} (f : A -> bool) (l : list A) (i : nat) (d : A) :
  forallb f l = true -> f d = true -> f (nth i l d) = true.
Proof.
  revert i. induction l as [|a l IH]; intros [|i] H Hd; simpl in *; auto;
    apply andb_true_iff in H; destruct H; auto.
Qed.

Lemma findAndModify_keeps_leaves (t : string) (cb : Callback) :
  keeps_leaves cb ->
  forall n parent index m,
    leaf_shaped n = true ->
    (forall p, parent = Some p -> leaf_shaped p = true) ->
    findAndModify n t cb parent index = Some m ->
    match m with
    | MutNode n' => leaf_shaped n' = true
    | MutParent p' => leaf_shaped p' = true
    end.
Proof.
  intros K.
  induction n as [i ty l pr s e | i ty l pr s e cs IH] using tree_ind;
    intros parent index m L Lp H; simpl in H.
  - destruct (String.eqb i t); [|discriminate].
    injection H as <-. apply K; auto.
  - destruct (String.eqb i t).
    { injection H as <-. apply K; auto. }
    set (node := mkComponent i ty l pr s e (Some cs)) in *.
    destruct (first_some _ 0 cs) as [[j mc]|] eqn:FS; [|discriminate].
    destruct (first_some_Some _ _ _ _ _ FS) as [k [c [-> [N [R _]]]]].
    simpl in R.
    pose proof (leaf_shaped_kids node L) as Lk. cbn in Lk.
    assert (Lc : leaf_shaped c = true).
    { rewrite forallb_forall in Lk. apply Lk. eapply nth_error_In; eauto. }
    pose proof (Forall_nth_error _ _ _ _ IH N (Some node) k mc Lc) as Hc.
    destruct mc as [c'|node']; injection H as <-.
    + change (leaf_shaped (set_children node (Some (set_nth cs (0 + k) c')))
              = true).
      apply leaf_shaped_set_children with (cs := cs); auto.
      apply forallb_set_nth; auto.
      apply Hc; auto. intros p Hp. injection Hp as <-. exact L.
    + apply Hc; auto. intros p Hp. injection Hp as <-. exact L.
Qed.

Lemma modified_keeps_leaves (t : string) (cb : Callback)
  (r : ComponentSchema) :
  keeps_leaves cb -> leaf_shaped r = true ->
  leaf_shaped (modified r t cb) = true.
Proof.
  intros K L. unfold modified.
  destruct (findAndModify r t cb None 0) as [[n'|p']|] eqn:H; auto.
  apply (findAndModify_keeps_leaves t cb K r None 0 (MutNode n') L); auto.
  intros p Hp. discriminate.
Qed.

Lemma delete_callback_keeps_leaves : keeps_leaves delete_callback.
Proof.
  intros node parent index L Lp. unfold delete_callback.
  destruct parent as [p|]; auto.
  destruct (children p) as [cs|] eqn:C; auto.
  pose proof (Lp p eq_refl) as L'.
  apply leaf_shaped_set_children with (cs := cs); auto.
  apply forallb_splice_out.
  rewrite <- (children_kids _ _ C). apply leaf_shaped_kids. exact L'.
Qed.

Lemma swap_callback_keeps_leaves (d : Direction) :
  keeps_leaves (swap_callback d).
Proof.
  intros node parent index L Lp. unfold swap_callback.
  destruct parent as [p|]; auto.
  destruct (children p) as [cs|] eqn:C; auto.
  pose proof (Lp p eq_refl) as L'.
  assert (F : forallb leaf_shaped cs = true)
    by (rewrite <- (children_kids _ _ C); apply leaf_shaped_kids; exact L').
  destruct (_ && _)%bool; auto.
  apply leaf_shaped_set_children with (cs := cs); auto.
  repeat apply forallb_set_nth; auto using forallb_nth.
Qed.

Lemma assign_keeps_leaves (u : Updates) :
  u_children u = None -> u_type u = None ->
  keeps_leaves (fun node _ _ => MutNode (assign node u)).
Proof.
  intros Hc Ht node parent index L _. unfold assign. rewrite Hc, Ht.
  destruct node as [i ty l pr s e c]. simpl. exact L.
Qed.

(** C3 (as amended).  [addComponent] on a parent id, other than ['root'],
    whose first node in pre-order has no [children] list -- as a node of a
    leaf kind has not -- gives that node a [children] list holding the new
    component.  [deleteComponent] and [moveComponent] never give a
    [children] list to a node of a leaf kind, nor does [updateComponent]
    when [updates] has neither [children] nor [type]. *)
Theorem leaves_gain_children_only_as_parents :
  forall (state : EditorState),
    (forall parentId ty now target,
        parentId <> "root" ->
        findNode (root state) parentId = Some target ->
        children target = None ->
        exists p,
          subtree_at p (root state) = Some target
          /\ subtree_at p (root (addComponent parentId ty now state))
             = Some (set_children target (Some [newComponent ty now])))
    /\ (leaf_shaped (root state) = true ->
        (forall target,
            leaf_shaped (root (deleteComponent target state)) = true)
        /\ (forall target direction,
               leaf_shaped (root (moveComponent target direction state))
               = true)
        /\ (forall target updates,
               u_children updates = None -> u_type updates = None ->
               leaf_shaped (root (updateComponent target updates state))
               = true)).
Proof.
  intros state. split.
  - intros parentId ty now target Hne F C.
    rewrite addComponent_root. apply String.eqb_neq in Hne. rewrite Hne.
    destruct (path_to parentId (root state)) as [p|] eqn:P.
    2:{ apply path_to_None in P. congruence. }
    destruct (path_to_valid _ _ _ P) as [x [S [_ Fx]]].
    assert (x = target) by congruence. subst x.
    exists p. split; [exact S|].
    rewrite (subtree_at_update_at _ _ _ _ S).
    unfold push_child. rewrite C. reflexivity.
  - intros L. split; [|split].
    + intros target. unfold deleteComponent.
      destruct (String.eqb target "root"); [exact L|]. simpl.
      apply modified_keeps_leaves; auto using delete_callback_keeps_leaves.
    + intros target direction. unfold moveComponent.
      destruct (String.eqb target "root"); [exact L|]. simpl.
      apply modified_keeps_leaves; auto using swap_callback_keeps_leaves.
    + intros target updates Hc Ht. unfold updateComponent. simpl.
      apply modified_keeps_leaves; auto using assign_keeps_leaves.
Qed.

(** ** The claims at concrete trees *)

(** C3 (as stated) fails: [addComponent] on a button gives the button a
    [children] list, and so does [moveComponentTo] onto a button. *)
Lemma addComponent_into_leaf_is_not_a_noop :
  let b := mkComponent "b" button None [] None None None in
  let d := mkComponent "d" text None [] None None None in
  let state :=
    mkState (mkComponent "root" page None [] None None (Some [b; d])) None []
  in
  is_leaf_kind (type b) = true
  /\ findNode (root state) "b" = Some b
  /\ children b = None
  /\ findNode (root (addComponent "b" text 7 state)) "b"
     = Some (set_children b (Some [newComponent text 7]))
  /\ root (addComponent "b" text 7 state) <> root state
  /\ findNode (root (moveComponentTo "d" "b" 0 state)) "b"
     = Some (set_children b (Some [d])).
Proof.
  simpl. repeat split; try reflexivity. discriminate.
Qed.

Lemma leaves_gain_children_only_as_parents_witness :
  let b := mkComponent "b" button None [] None None None in
  let state :=
    mkState (mkComponent "root" page None [] None None (Some [b])) None [] in
  (exists p,
      subtree_at p (root state) = Some b
      /\ subtree_at p (root (addComponent "b" text 7 state))
         = Some (set_children b (Some [newComponent text 7])))
  /\ leaf_shaped (root (deleteComponent "b" state)) = true.
Proof.
  intros b state.
  destruct (leaves_gain_children_only_as_parents state) as [A D].
  split.
  - apply A; [discriminate | reflexivity | reflexivity].
  - apply D. reflexivity.
Defined.

(** C7 (as stated) fails: deleting a component that is not the selected
    one, or an id no node has, clears the selection all the same. *)
Lemma deleteComponent_clears_any_selection :
  let c := mkComponent "c" button None [] None None None in
  let d := mkComponent "d" button None [] None None None in
  let state :=
    mkState (mkComponent "root" page None [] None None (Some [c; d]))
      (Some "d") [] in
  selectedId state = Some "d"
  /\ findNode (root state) "c" = Some c
  /\ selectedId (deleteComponent "c" state) = None
  /\ findNode (root state) "zz" = None
  /\ selectedId (deleteComponent "zz" state) = None
  /\ deleteComponent "zz" state <> state.
Proof.
  simpl. repeat split; try reflexivity. discriminate.
Qed.

Lemma deleteComponent_detaches_and_deselects_witness :
  let c := mkComponent "c" button None [] None None None in
  let d := mkComponent "d" button None [] None None None in
  let state :=
    mkState (mkComponent "root" page None [] None None (Some [c; d]))
      (Some "d") [] in
  selectedId (deleteComponent "c" state) = None
  /\ exists p i parent cs,
       subtree_at p (root state) = Some parent
       /\ children parent = Some cs
       /\ nth_error cs i = Some c
       /\ root (deleteComponent "c" state) = delete_at (p ++ [i]) (root state)
       /\ subtree_at p (root (deleteComponent "c" state))
          = Some (set_children parent (Some (firstn i cs ++ skipn (S i) cs)))
       /\ Permutation (ids (root state))
            (ids c ++ ids (root (deleteComponent "c" state))).
Proof.
  intros c d state.
  destruct (deleteComponent_detaches_and_deselects "c" state) as [_ H].
  destruct (H ltac:(discriminate)) as [S [_ [_ [_ D]]]].
  split; [exact S|].
  apply D; [reflexivity | discriminate].
Defined.

(* ===================================================================== *)
(** * Further properties of the expression evaluator *)
(* ===================================================================== *)

Lemma starts_with_includes (p s : string) :
  starts_with p s = true -> includes s p = true.
Proof. intros H. destruct s; simpl; rewrite H; reflexivity. Qed.

Lemma includes_trimStart (s p : string) :
  includes (trimStart s) p = true -> includes s p = true.
Proof.
  induction s as [|c s IH]; simpl; auto.
  destruct (is_space c); auto.
  intros H. rewrite (IH H). apply orb_true_r.
Qed.

Lemma pureMatch_includes (t g : string) :
  pureMatch t = Some g -> includes t "{{" = true.
Proof.
  unfold pureMatch. intros H. apply includes_trimStart.
  apply starts_with_includes. unfold starts_with.
  destruct (strip_prefix "{{" (trimStart t)); [reflexivity|discriminate].
Qed.

(** X1.  A string without [{{] is returned as it is, whatever the
    context. *)
Theorem literal_template_is_unchanged :
  forall (template : string) (context : obj),
    includes template "{{" = false ->
    evaluateExpression (VStr template) context = Some (VStr template).
Proof.
  intros t ctx H. unfold evaluateExpression.
  destruct (pureMatch t) as [g|] eqn:P.
  - apply pureMatch_includes in P. congruence.
  - rewrite H. reflexivity.
Qed.

Lemma literal_template_is_unchanged_witness :
  evaluateExpression (VStr "a } b { c") [("a", VNum 1)]
  = Some (VStr "a } b { c").
Proof. apply literal_template_is_unchanged. reflexivity. Defined.

Lemma trimStart_spaces (ws s : string) :
  all_space ws = true -> trimStart (ws ++ s) = trimStart s.
Proof.
  induction ws as [|c ws IH]; simpl; auto.
  intros H. apply andb_true_iff in H. destruct H as [Hc H].
  rewrite Hc. auto.
Qed.

Lemma all_space_not_closing (x y : string) :
  all_space (x ++ String "}" y) = false.
Proof.
  induction x as [|c x IH]; simpl; auto.
  rewrite IH. apply andb_false_r.
Qed.

Lemma closes_to_end_early (b ws : string) :
  b <> EmptyString -> closes_to_end (b ++ "}}" ++ ws) = false.
Proof.
  intros Hb. unfold closes_to_end.
  destruct b as [|c1 b]; [congruence|]. cbn [strip_prefix append].
  destruct (Ascii.eqb "}" c1) eqn:E1; [|reflexivity].
  destruct b as [|c2 b]; cbn [strip_prefix append].
  - reflexivity.
  - destruct (Ascii.eqb "}" c2) eqn:E2; [|reflexivity].
    apply all_space_not_closing.
Qed.

Lemma closes_to_end_now (ws : string) :
  all_space ws = true -> closes_to_end ("}}" ++ ws) = true.
Proof. intros H. unfold closes_to_end. simpl. exact H. Qed.

(** The group of the anchored pattern is everything between the first
    [{{] and the last [}}]. *)
Lemma lazy_group_to_end (body ws : string) :
  body <> EmptyString -> one_line body = true -> all_space ws = true ->
  lazy_group closes_to_end (body ++ "}}" ++ ws) = Some (body, "}}" ++ ws)%string.
Proof.
  intros Hne L W. induction body as [|c b IH]; [congruence|].
  simpl in L. apply andb_true_iff in L. destruct L as [Lc L].
  apply negb_true_iff in Lc.
  change (String c b ++ "}}" ++ ws)%string
    with (String c (b ++ "}}" ++ ws))%string.
  cbn [lazy_group]. rewrite Lc.
  destruct b as [|d b].
  - change (EmptyString ++ "}}" ++ ws)%string with ("}}" ++ ws)%string.
    rewrite (closes_to_end_now ws W). reflexivity.
  - rewrite closes_to_end_early by discriminate.
    rewrite IH by (discriminate || exact L). reflexivity.
Qed.

(** X2.  A template that is one [{{ ... }}] pair, blanks around it
    allowed, evaluates to what [_.get] finds at the trimmed text between
    the braces, with [undefined] for nothing found: the value is returned
    as it is, not as a string. *)
Theorem pure_reference_is_lookup :
  forall (before body after : string) (context : obj),
    all_space before = true -> all_space after = true ->
    body <> EmptyString -> one_line body = true ->
    evaluateExpression (VStr (before ++ "{{" ++ body ++ "}}" ++ after)) context
    = Some (Lodash.get (VObj context) (VStr (trim body)) VUndefined).
Proof.
  intros ws1 body ws2 ctx W1 W2 Hne L.
  unfold evaluateExpression, pureMatch.
  rewrite trimStart_spaces by exact W1.
  change (trimStart ("{{" ++ body ++ "}}" ++ ws2))
    with ("{{" ++ body ++ "}}" ++ ws2)%string.
  change (strip_prefix "{{" ("{{" ++ body ++ "}}" ++ ws2))
    with (Some (body ++ "}}" ++ ws2)%string).
  cbv beta iota. rewrite lazy_group_to_end by assumption. reflexivity.
Qed.

Lemma pure_reference_is_lookup_witness :
  evaluateExpression (VStr "  {{ user.tags }} ")
    [("user", VObj [("tags", VArr [VStr "a"; VNum 2])])]
  = Some (VArr [VStr "a"; VNum 2]).
Proof.
  rewrite (pure_reference_is_lookup "  " " user.tags " " ");
    try reflexivity.
  discriminate.
Defined.

Lemma strip_prefix_spec (p s r : string) :
  strip_prefix p s = Some r -> s = (p ++ r)%string.
Proof.
  revert s. induction p as [|a p IH]; intros s H; simpl in H.
  - injection H as <-. reflexivity.
  - destruct s as [|b s]; [discriminate|].
    destruct (Ascii.eqb a b) eqn:E; [|discriminate].
    apply Ascii.eqb_eq in E. subst b.
    cbn [append]. f_equal. apply IH. exact H.
Qed.

(** What the lazy group takes: a non-empty run on one line, after which
    the rest of the pattern matches. *)
Lemma lazy_group_shape (accept : string -> bool) (r g rest : string) :
  lazy_group accept r = Some (g, rest) ->
  r = (g ++ rest)%string /\ g <> EmptyString /\ one_line g = true
  /\ accept rest = true.
Proof.
  revert g rest. induction r as [|c r IH]; intros g rest H;
    cbn [lazy_group] in H; [discriminate|].
  destruct (is_line_terminator c) eqn:T; [discriminate|].
  destruct (accept r) eqn:A.
  - injection H as <- <-. cbn [append one_line]. rewrite T.
    repeat split; auto. discriminate.
  - destruct (lazy_group accept r) as [[g0 rest0]|]; [|discriminate].
    injection H as <- <-.
    destruct (IH g0 rest0 eq_refl) as [E [_ [L Acc]]].
    cbn [append one_line]. rewrite T, L, <- E.
    repeat split; auto. discriminate.
Qed.

(** The lazy group finds a match wherever there is one. *)
Lemma lazy_group_some (accept : string -> bool) (g rest : string) :
  g <> EmptyString -> one_line g = true -> accept rest = true ->
  exists g' rest', lazy_group accept (g ++ rest) = Some (g', rest').
Proof.
  induction g as [|c g IH]; intros Hne L A; [congruence|].
  cbn [one_line] in L. apply andb_true_iff in L. destruct L as [Lc L].
  apply negb_true_iff in Lc.
  cbn [append lazy_group]. rewrite Lc.
  destruct (accept (g ++ rest)%string) eqn:A'; [eauto|].
  destruct g as [|d g].
  - cbn [append] in A'. congruence.
  - destruct IH as [g' [rest' E]]; [discriminate | exact L | exact A |].
    rewrite E. eauto.
Qed.

Lemma match_reference_shape (s g rest : string) :
  match_reference s = Some (g, rest) ->
  s = ("{{" ++ g ++ "}}" ++ rest)%string
  /\ g <> EmptyString /\ one_line g = true.
Proof.
  unfold match_reference. intros H.
  destruct (strip_prefix "{{" s) as [r|] eqn:P; [|discriminate].
  destruct (lazy_group (starts_with "}}") r) as [[g0 rest0]|] eqn:G;
    [|discriminate].
  destruct (strip_prefix "}}" rest0) as [rest1|] eqn:Q; [|discriminate].
  injection H as <- <-.
  destruct (lazy_group_shape _ _ _ _ G) as [E [Hne [L _]]].
  apply strip_prefix_spec in P. apply strip_prefix_spec in Q.
  subst s r rest0. auto.
Qed.

Lemma match_reference_some (body post : string) :
  body <> EmptyString -> one_line body = true ->
  exists g rest,
    match_reference ("{{" ++ body ++ "}}" ++ post) = Some (g, rest).
Proof.
  intros Hne L. unfold match_reference.
  change (strip_prefix "{{" ("{{" ++ body ++ "}}" ++ post))
    with (Some (body ++ "}}" ++ post)%string).
  cbv beta iota.
  destruct (lazy_group_some (starts_with "}}") body ("}}" ++ post) Hne L)
    as [g [rest E]]; [reflexivity|].
  rewrite E.
  destruct (lazy_group_shape _ _ _ _ E) as [_ [_ [_ A]]].
  unfold starts_with in A.
  destruct (strip_prefix "}}" rest) as [rest'|]; [eauto | discriminate].
Qed.

Section ThrowingCallback.

Variable f : string -> string -> option string.
Hypothesis f_throws : forall matched path, f matched path = None.

(** With a callback that throws, the replace throws at the first match
    it finds. *)
Lemma replace_references_throws (pre body post : string) :
  body <> EmptyString -> one_line body = true ->
  replace_references f (pre ++ "{{" ++ body ++ "}}" ++ post) 0 = None.
Proof.
  intros Hne L.
  destruct (match_reference_some body post Hne L) as [g [rest M]].
  induction pre as [|c pre IH].
  - change (EmptyString ++ "{{" ++ body ++ "}}" ++ post)%string
      with (String "{" ("{" ++ body ++ "}}" ++ post))%string.
    change ("{{" ++ body ++ "}}" ++ post)%string
      with (String "{" ("{" ++ body ++ "}}" ++ post))%string in M.
    cbn [replace_references]. rewrite M, f_throws. reflexivity.
  - change (String c pre ++ "{{" ++ body ++ "}}" ++ post)%string
      with (String c (pre ++ "{{" ++ body ++ "}}" ++ post))%string.
    cbn [replace_references].
    destruct (match_reference
                (String c (pre ++ "{{" ++ body ++ "}}" ++ post)%string))
      as [[g' rest']|].
    + rewrite f_throws. reflexivity.
    + rewrite IH. reflexivity.
Qed.

(** ... and it returns only when it finds none, with the string as it
    was. *)
Lemma replace_references_returns (s t : string) :
  replace_references f s 0 = Some t -> t = s.
Proof.
  revert t. induction s as [|c s IH]; intros t H; cbn [replace_references] in H.
  - congruence.
  - destruct (match_reference (String c s)) as [[g rest]|].
    + rewrite f_throws in H. discriminate.
    + destruct (replace_references f s 0) as [tail|]; [|discriminate].
      injection H as <-. rewrite (IH tail eq_refl). reflexivity.
Qed.

End ThrowingCallback.

(** Whatever the callback, the replace can only throw on a string that
    holds a reference. *)
Lemma replace_references_None (f : string -> string -> option string)
  (s : string) (skip : nat) :
  replace_references f s skip = None -> has_reference s.
Proof.
  revert skip. induction s as [|c s IH]; intros skip H;
    cbn [replace_references] in H; [discriminate|].
  assert (Later : has_reference s -> has_reference (String c s)).
  { intros [pre [body [post [E [Hne L]]]]].
    exists (String c pre), body, post. rewrite E. auto. }
  destruct skip as [|k]; [|eauto].
  destruct (match_reference (String c s)) as [[g rest]|] eqn:M.
  - destruct (match_reference_shape _ _ _ M) as [E [Hne L]].
    exists EmptyString, g, rest. auto.
  - destruct (replace_references f s 0) eqn:R; [discriminate|]. eauto.
Qed.

Lemma includes_after (pre s p : string) :
  includes s p = true -> includes (pre ++ s) p = true.
Proof.
  induction pre as [|c pre IH]; simpl; auto.
  intros H. rewrite (IH H). apply orb_true_r.
Qed.

Lemma has_reference_includes (t : string) :
  has_reference t -> includes t "{{" = true.
Proof.
  intros [pre [body [post [-> _]]]]. apply includes_after. reflexivity.
Qed.

(** Outside the pure-reference case a template with a reference
    throws. *)
Lemma evaluateExpression_throws (template : string) (context : obj) :
  pureMatch template = None -> has_reference template ->
  evaluateExpression (VStr template) context = None.
Proof.
  intros P R. unfold evaluateExpression.
  rewrite P, (has_reference_includes _ R).
  destruct R as [pre [body [post [-> [Hne L]]]]].
  rewrite (replace_references_throws _ (interpolate_throws context));
    auto.
Qed.

(** A template whose first character is neither a blank nor a brace is
    no pure reference. *)
Lemma pureMatch_other (c : ascii) (rest : string) :
  is_space c = false -> c <> "{"%char -> pureMatch (String c rest) = None.
Proof.
  intros Hs Hc. unfold pureMatch. cbn [trimStart]. rewrite Hs.
  cbn [strip_prefix].
  destruct (Ascii.eqb "{" c) eqn:E; [|reflexivity].
  apply Ascii.eqb_eq in E. congruence.
Qed.

(** X3.  No template is ever interpolated.  [evaluateExpression] throws
    exactly on the templates that are no pure reference and hold a
    reference [{{body}}], [body] a non-empty run on one line -- so on
    every template with a reference that starts with a character other
    than a blank and [{] -- and what it returns is the template itself or
    the value found for a pure reference. *)
Theorem interpolation_throws :
  forall (template : string) (context : obj),
    (evaluateExpression (VStr template) context = None
     <-> pureMatch template = None /\ has_reference template)
    /\ (forall v,
           evaluateExpression (VStr template) context = Some v ->
           v = VStr template
           \/ exists g,
                pureMatch template = Some g
                /\ v = Lodash.get (VObj context) (VStr (trim g)) VUndefined)
    /\ (forall c rest,
           template = String c rest ->
           is_space c = false -> c <> "{"%char ->
           has_reference template ->
           evaluateExpression (VStr template) context = None).
Proof.
  intros t ctx. split; [split|split].
  - unfold evaluateExpression. intros H.
    destruct (pureMatch t); [discriminate|].
    destruct (includes t "{{"); [|discriminate].
    destruct (replace_references (interpolate ctx) t 0) eqn:R;
      [discriminate|].
    split; [reflexivity|]. eapply replace_references_None; eauto.
  - intros [P R]. apply evaluateExpression_throws; assumption.
  - unfold evaluateExpression. intros v H.
    destruct (pureMatch t) as [g|].
    + right. exists g. split; [reflexivity | congruence].
    + left. destruct (includes t "{{"); [|congruence].
      destruct (replace_references (interpolate ctx) t 0) as [s|] eqn:R;
        [|discriminate].
      apply (replace_references_returns _ (interpolate_throws ctx)) in R.
      congruence.
  - intros c rest -> Hs Hc R.
    apply evaluateExpression_throws; [|exact R].
    apply pureMatch_other; assumption.
Qed.

Lemma interpolation_throws_witness :
  evaluateExpression (VStr "Hi {{ user.name }}, {{ n }}!")
    [("user", VObj [("name", VStr "Al")]); ("n", VNum 3)]
  = None.
Proof.
  destruct (interpolation_throws "Hi {{ user.name }}, {{ n }}!"
              [("user", VObj [("name", VStr "Al")]); ("n", VNum 3)])
    as [_ [_ T]].
  apply (T "H"%char "i {{ user.name }}, {{ n }}!").
  - reflexivity.
  - reflexivity.
  - discriminate.
  - exists "Hi ", " user.name ", ", {{ n }}!".
    split; [reflexivity|]. split; [discriminate | reflexivity].
Defined.

(* ===================================================================== *)
(** * Further properties of the action runner *)
(* ===================================================================== *)

Lemma apply_writes_app (ws1 ws2 : list (string * value)) (s : EditorState) :
  apply_writes (ws1 ++ ws2) s = apply_writes ws2 (apply_writes ws1 s).
Proof. unfold apply_writes. apply fold_left_app. Qed.

Lemma forEach_mapResponse (json : value) (l : list (string * value))
  (w : World) :
  let ws :=
    flat_map
      (fun kv =>
         match Lodash.get json (snd kv) VUndefined with
         | VUndefined => []
         | v => [(fst kv, v)]
         end) l in
  forEach (mapResponse json) l w
  = (Some tt,
     mkWorld (apply_writes ws (live w)) (trace w ++ events_of_writes ws)
       (awaits w) (fetches w)).
Proof.
  revert w. induction l as [|[k p] l IH]; intros w; simpl.
  - unfold ret. rewrite app_nil_r. destruct w; reflexivity.
  - unfold bind, mapResponse.
    destruct (Lodash.get json p VUndefined) eqn:G;
      unfold ret, call_setStoreData; simpl; rewrite IH; simpl;
      rewrite <- ?app_assoc; try reflexivity.
Qed.

(** X4.  A webhook action whose body can be built and whose request is
    answered with JSON: the turn passes two awaits, logs the response, and
    then makes exactly the writes the response mapping stands for -- one
    per mapping entry whose path is found in the response, under the
    entry's key taken literally; or, when there is no mapping or an empty
    one, the whole response under [lastResult] -- and nothing is
    caught. *)
Theorem webhook_response_is_mapped :
  forall (env : Env) (context g : obj) (i : string) (cfg : value)
         (r : Request) (json : value) (w : World),
    is_nullish cfg = false ->
    request_of env context g cfg = Some r ->
    network env (fetches w) r = Responds json ->
    let a := mkAction i n8n_webhook cfg in
    let ws := response_writes json (prop cfg "responseMapping") in
    runOne env context g a w
    = mkWorld
        (apply_writes ws
           (meanwhile env (S (awaits w)) (meanwhile env (awaits w) (live w))))
        (trace w ++ [Running a; Fetch r; N8nResponse json]
         ++ events_of_writes ws)
        (S (S (awaits w))) (S (fetches w)).
Proof.
  intros env context g i cfg r json w H Q N a ws.
  unfold a. rewrite runOne_eq. cbv zeta.
  unfold runAction, bind, member, lift. simpl. rewrite H. simpl.
  unfold request_of in Q. fold (method_of cfg).
  destruct (requestBody env context (prop cfg "body")) as [built|];
    [|discriminate].
  injection Q as Q. rewrite Q.
  unfold fetch_json. simpl. rewrite N. simpl.
  subst ws. unfold response_writes.
  destruct (truthy (prop cfg "responseMapping")
            && negb (Nat.eqb (List.length (entries (prop cfg "responseMapping"))) 0)).
  - rewrite forEach_mapResponse. simpl.
    rewrite <- !app_assoc. reflexivity.
  - unfold call_setStoreData. simpl. rewrite <- !app_assoc. reflexivity.
Qed.

Lemma webhook_response_is_mapped_witness :
  let env := mkEnv (fun _ => None)
               (fun _ _ =>
                  Responds (VObj [("data", VObj [("name", VStr "Alice")])]))
               (fun _ s => s) in
  let cfg := VObj [("url", VStr "u");
                   ("body", VStr "{{ who }}");
                   ("responseMapping",
                    VObj [("user.name", VStr "data.name");
                          ("missing", VStr "data.age")])] in
  let w := mkWorld (mkState initialRoot None []) [] 0 0 in
  storeData (live (runOne env [("who", VNum 1)] []
                     (mkAction "1" n8n_webhook cfg) w))
  = [("user.name", VStr "Alice")].
Proof.
  intros env cfg w.
  rewrite (webhook_response_is_mapped env [("who", VNum 1)] [] "1" cfg
             (mkRequest (VStr "u") (VStr "POST")
                (Some (VObj [("value", VNum 1); ("context", VObj [])])))
             (VObj [("data", VObj [("name", VStr "Alice")])]) w);
    reflexivity.
Defined.

(** X5.  An action whose [config] is [null] or [undefined] does nothing
    but fail: its turn logs the start and the error, and leaves the store,
    the network and the awaits alone. *)
Theorem action_without_config_only_fails :
  forall (env : Env) (context g : obj) (a : Action) (w : World),
    is_nullish (config a) = true ->
    runOne env context g a w
    = mkWorld (live w)
        (trace w ++ [Running a; ErrorRunning (action_type a)])
        (awaits w) (fetches w).
Proof.
  intros env context g a w H.
  unfold runOne, runAction, bind, member.
  destruct (action_type a); simpl; rewrite H; simpl;
    rewrite <- app_assoc; reflexivity.
Qed.

Lemma action_without_config_only_fails_witness :
  let env := mkEnv (fun _ => None) (fun _ _ => Responds VNull)
               (fun _ s => s) in
  let w := mkWorld (mkState initialRoot None [("k", VNum 1)]) [] 0 0 in
  live (runOne env [] [] (mkAction "1" n8n_webhook VNull) w) = live w
  /\ fetches (runOne env [] [] (mkAction "1" n8n_webhook VNull) w) = 0.
Proof.
  intros env w.
  rewrite (action_without_config_only_fails env [] []
             (mkAction "1" n8n_webhook VNull) w eq_refl).
  split; reflexivity.
Defined.

Lemma body_throws_requestBody (env : Env) (context : obj) (t : value) :
  body_throws env context t
  = match requestBody env context t with Some _ => false | None => true end.
Proof.
  unfold body_throws, requestBody.
  destruct t as [| |b|n|s|xs|kvs]; cbn [truthy]; try reflexivity.
  - destruct b; reflexivity.
  - destruct (negb (n =? 0)%Z); reflexivity.
  - destruct (String.eqb s EmptyString); cbn [negb andb]; [reflexivity|].
    destruct (JSON_parse env s); cbn [andb]; [reflexivity|].
    destruct (evaluateExpression (VStr s) context); reflexivity.
Qed.

(** The request one turn of the loop sends, if any. *)
Lemma runOne_requests (env : Env) (context g : obj) (a : Action)
  (w : World) :
  exists rs,
    requests_of (trace (runOne env context g a w))
    = requests_of (trace w) ++ rs
    /\ if sends_request env context a
       then exists r,
              rs = [r]
              /\ req_url r = prop (config a) "url"
              /\ req_method r = method_of (config a)
              /\ carries g r
       else rs = [].
Proof.
  unfold sends_request. destruct a as [i ty cfg]. simpl.
  destruct (is_nullish cfg) eqn:H.
  - exists []. split.
    + unfold runOne, runAction, bind, member.
      destruct ty; simpl; rewrite H; simpl;
        rewrite <- app_assoc, requests_of_app; reflexivity.
    + destruct ty; reflexivity.
  - destruct ty; simpl.
    + pose proof (runOne_webhook env context g i cfg w H) as R.
      cbv zeta in R. rewrite body_throws_requestBody.
      unfold request_of in R.
      destruct (requestBody env context (prop cfg "body")) as [built|].
      * destruct R as [evs [E R]]. eexists. split.
        -- rewrite E, requests_of_app. simpl. rewrite R. reflexivity.
        -- simpl. eexists. split; [reflexivity|].
           repeat split. apply finalBody_carries.
      * exists []. rewrite R. simpl.
        rewrite requests_of_app. auto.
    + exists []. split; [|reflexivity].
      rewrite runOne_setState by exact H. cbv zeta.
      destruct (evaluateExpression (prop cfg "value") context); simpl;
        rewrite ?app_nil_r, <- ?app_assoc, requests_of_app; simpl;
        rewrite ?app_nil_r; reflexivity.
    + exists []. split; [|reflexivity].
      rewrite runOne_consoleLog by exact H. cbv zeta. simpl.
      rewrite requests_of_app.
      destruct (evaluateExpression (prop cfg "message") context);
        reflexivity.
    + exists []. split; [|reflexivity].
      rewrite runOne_alert by exact H. cbv zeta. simpl.
      rewrite requests_of_app.
      destruct (evaluateExpression (prop cfg "message") context);
        reflexivity.
Qed.

(** X6.  An invocation sends exactly one request for each webhook action
    that has a [config] and whose body can be built, in list order, to the
    url of that action and with its method ([POST] when it names none),
    and none for any other action; each request that is no [GET] carries
    the data the invocation started with. *)
Theorem one_request_per_webhook_action :
  forall (env : Env) (actions : list Action) (local : obj) (w : World),
    let g := storeData (live w) in
    let context := spread g local in
    let senders := filter (sends_request env context) actions in
    exists rs,
      requests_of (trace (runActions env (Some actions) local w))
      = requests_of (trace w) ++ rs
      /\ map req_url rs = map (fun a => prop (config a) "url") senders
      /\ map req_method rs
         = map (fun a =>
                  if truthy (prop (config a) "method")
                  then prop (config a) "method" else VStr "POST")
             senders
      /\ Forall (carries g) rs.
Proof.
  intros env actions local w g context senders. subst senders.
  rewrite runActions_Some. fold g. fold context.
  clearbody context. clearbody g. revert w.
  induction actions as [|a l IH]; intros w; cbn [runLoop filter].
  - exists []. rewrite app_nil_r. auto.
  - destruct (IH (runOne env context g a w)) as [rs [E [U [M C]]]].
    destruct (runOne_requests env context g a w) as [r1 [E1 S1]].
    exists (r1 ++ rs). rewrite E, E1, <- app_assoc.
    split; [reflexivity|].
    destruct (sends_request env context a).
    + destruct S1 as [r [-> [Ur [Mr Cr]]]]. cbn [app map].
      rewrite U, M, Ur, Mr. auto.
    + subst r1. auto.
Qed.

Section Tracking.

Variable env : Env.
Hypothesis quiet : forall k s, meanwhile env k s = s.

Lemma tracks_ret {A} (a : A) : tracks (ret a).
Proof. intros w. exists []. simpl. rewrite app_nil_r. auto. Qed.

Lemma tracks_throw {A} : tracks (@throw A).
Proof. intros w. exists []. simpl. rewrite app_nil_r. auto. Qed.

Lemma tracks_bind {A B} (m : M A) (k : A -> M B) :
  tracks m -> (forall a, tracks (k a)) -> tracks (bind m k).
Proof.
  intros Hm Hk w. unfold bind.
  destruct (Hm w) as [e1 [E1 L1]].
  destruct (m w) as [[a|] w1]; simpl in *.
  - destruct (Hk a w1) as [e2 [E2 L2]].
    exists (e1 ++ e2).
    rewrite E2, E1, L2, L1, app_assoc, writes_of_app, apply_writes_app.
    auto.
  - exists e1. auto.
Qed.

Lemma tracks_emit (e : Event) : writes_of [e] = [] -> tracks (emit e).
Proof.
  intros H w. exists [e]. split; [reflexivity|]. rewrite H. reflexivity.
Qed.

Lemma tracks_lift {A} (r : option A) : tracks (lift r).
Proof. intros w. exists []. simpl. rewrite app_nil_r. auto. Qed.

Lemma tracks_member (o : value) (k : string) : tracks (member o k).
Proof.
  unfold member. destruct (is_nullish o);
    [apply tracks_throw | apply tracks_ret].
Qed.

Lemma tracks_call_setStoreData (k v : value) :
  tracks (call_setStoreData k v).
Proof. intros w. exists [SetStoreData (String_ k) v]. simpl. auto. Qed.

Lemma tracks_fetch_json (r : Request) : tracks (fetch_json env r).
Proof.
  intros w. exists [Fetch r]. unfold fetch_json.
  destruct (network env (fetches w) r); simpl; rewrite ?quiet; auto.
Qed.

Lemma tracks_forEach {A} (f : A -> M unit) (l : list A) :
  (forall x, tracks (f x)) -> tracks (forEach f l).
Proof.
  intros Hf. induction l as [|x l IH]; simpl.
  - apply tracks_ret.
  - apply tracks_bind; auto.
Qed.

Variables context globalData : obj.

Lemma tracks_runAction (a : Action) :
  tracks (runAction env context globalData a).
Proof.
  unfold runAction. destruct (action_type a).
  - do 3 (apply tracks_bind; [apply tracks_member | intros]).
    apply tracks_bind; [apply tracks_lift | intros].
    apply tracks_bind; [apply tracks_fetch_json | intros].
    apply tracks_bind; [apply tracks_emit; reflexivity | intros].
    apply tracks_bind; [apply tracks_member | intros].
    destruct (_ && _).
    + apply tracks_forEach. intros [k p]. unfold mapResponse.
      destruct (Lodash.get _ _ _);
        try apply tracks_ret; apply tracks_call_setStoreData.
    + apply tracks_call_setStoreData.
  - do 2 (apply tracks_bind; [apply tracks_member | intros]).
    apply tracks_bind; [apply tracks_lift | intros].
    apply tracks_call_setStoreData.
  - apply tracks_bind; [apply tracks_member | intros].
    apply tracks_bind; [apply tracks_lift | intros].
    apply tracks_emit; reflexivity.
  - apply tracks_bind; [apply tracks_member | intros].
    apply tracks_bind; [apply tracks_lift | intros].
    apply tracks_emit; reflexivity.
Qed.

Lemma tracks_runOne (a : Action) (w : World) :
  exists evs,
    trace (runOne env context globalData a w) = trace w ++ evs
    /\ live (runOne env context globalData a w)
       = apply_writes (writes_of evs) (live w).
Proof.
  rewrite runOne_eq. cbv zeta.
  destruct (tracks_runAction a (snd (emit (Running a) w))) as [evs [E L]].
  simpl in E, L.
  destruct (fst (runAction env context globalData a _)); simpl.
  - exists (Running a :: evs). rewrite E, L, <- app_assoc. auto.
  - exists (Running a :: evs ++ [ErrorRunning (action_type a)]).
    rewrite E, L, <- !app_assoc. simpl.
    rewrite writes_of_app. simpl. rewrite app_nil_r. auto.
Qed.

Lemma tracks_runLoop (l : list Action) (w : World) :
  exists evs,
    trace (runLoop env context globalData l w) = trace w ++ evs
    /\ live (runLoop env context globalData l w)
       = apply_writes (writes_of evs) (live w).
Proof.
  revert w. induction l as [|a l IH]; intros w; simpl.
  - exists []. rewrite app_nil_r. auto.
  - destruct (tracks_runOne a w) as [e1 [E1 L1]].
    destruct (IH (runOne env context globalData a w)) as [e2 [E2 L2]].
    exists (e1 ++ e2).
    rewrite E2, E1, L2, L1, app_assoc, writes_of_app, apply_writes_app.
    auto.
Qed.

End Tracking.

Lemma apply_writes_frame (ws : list (string * value)) (s : EditorState) :
  root (apply_writes ws s) = root s
  /\ selectedId (apply_writes ws s) = selectedId s.
Proof.
  revert s. induction ws as [|[k v] ws IH]; intros s; simpl; auto.
  destruct (IH (setStoreData k v s)) as [R S]. simpl in *.
  unfold apply_writes in *. simpl. rewrite R, S. auto.
Qed.

(** X7.  While nothing else touches the store, an invocation changes it
    only through the [setStoreData] calls in its trace: the store it
    leaves is the store it found with those writes applied in order, so
    the component tree and the selection are never touched by actions. *)
Theorem actions_change_only_the_data :
  forall (env : Env) (actions : option (list Action)) (local : obj)
         (w : World),
    (forall k s, meanwhile env k s = s) ->
    let w' := runActions env actions local w in
    exists evs,
      trace w' = trace w ++ evs
      /\ live w' = apply_writes (writes_of evs) (live w)
      /\ root (live w') = root (live w)
      /\ selectedId (live w') = selectedId (live w).
Proof.
  intros env actions local w Q w'. subst w'.
  destruct actions as [l|].
  2:{ exists []. simpl. rewrite app_nil_r. auto. }
  rewrite runActions_Some.
  destruct (tracks_runLoop env Q (spread (storeData (live w)) local)
              (storeData (live w)) l w) as [evs [E L]].
  exists evs. rewrite L. repeat split; auto; apply apply_writes_frame.
Qed.

Lemma actions_change_only_the_data_witness :
  let env := mkEnv (fun _ => None) (fun _ _ => Responds (VNum 7))
               (fun _ s => s) in
  let acts := [mkAction "1" n8n_webhook (VObj [("url", VStr "u")]);
               mkAction "2" setState
                 (VObj [("key", VStr "k"); ("value", VStr "{{ value }}")])] in
  let w := mkWorld (mkState initialRoot (Some "root") []) [] 0 0 in
  root (live (runActions env (Some acts) [("value", VNum 3)] w)) = initialRoot
  /\ selectedId (live (runActions env (Some acts) [("value", VNum 3)] w))
     = Some "root".
Proof.
  intros env acts w.
  destruct (actions_change_only_the_data env (Some acts) [("value", VNum 3)] w)
    as [evs [_ [_ [R S]]]].
  - reflexivity.
  - split; [exact R | exact S].
Defined.

(* ===================================================================== *)
(** * Further properties of the tree store *)
(* ===================================================================== *)

Lemma first_some_None {A R : Type} (f : nat -> A -> option R) (l : list A)
  (i : nat) :
  first_some f i l = None ->
  forall k x, nth_error l k = Some x -> f (i + k) x = None.
Proof.
  revert i. induction l as [|a l IH]; intros i H [|k] x Hx; simpl in *;
    try discriminate; destruct (f i a) eqn:E; try discriminate.
  - injection Hx as <-. rewrite Nat.add_0_r. exact E.
  - replace (i + S k) with (S i + k) by lia. apply IH; auto.
Qed.

Lemma path_to_None_not_in (t : string) (n : ComponentSchema) :
  path_to t n = None -> ~ In t (ids n).
Proof.
  induction n as [i ty l pr s e | i ty l pr s e cs IH] using tree_ind;
    simpl; destruct (String.eqb i t) eqn:E; try discriminate;
    apply String.eqb_neq in E; intros H [Hi|Hin]; try congruence;
    try contradiction.
  destruct (first_some _ 0 cs) as [[j p]|] eqn:FS; [discriminate|].
  apply in_flat_map in Hin. destruct Hin as [c [Hc Ht]].
  destruct (In_nth_error _ _ Hc) as [k N].
  pose proof (first_some_None _ _ _ FS k c N) as P. simpl in P.
  exact (Forall_nth_error _ _ _ _ IH N P Ht).
Qed.

Lemma not_in_path_to_None (t : string) (n : ComponentSchema) :
  ~ In t (ids n) -> path_to t n = None.
Proof.
  intros H. destruct (path_to t n) as [p|] eqn:P; [|reflexivity].
  destruct (path_to_valid _ _ _ P) as [x [S [I _]]].
  exfalso. apply H. rewrite <- I. eapply subtree_at_id_in; eauto.
Qed.

(** [path_to] leads to the first node, in pre-order, with the id. *)
Lemma path_to_first (t : string) (n : ComponentSchema) :
  forall p p' y,
    path_to t n = Some p -> subtree_at p' n = Some y -> id y = t ->
    pre_order_le p p' = true.
Proof.
  induction n as [i ty l pr s e | i ty l pr s e cs IH] using tree_ind;
    intros p p' y P S I; simpl in P; destruct (String.eqb i t) eqn:E;
    try (injection P as <-; reflexivity); try discriminate.
  apply String.eqb_neq in E.
  destruct (first_some _ 0 cs) as [[j q]|] eqn:FS; [|discriminate].
  injection P as <-.
  destruct (first_some_Some _ _ _ _ _ FS) as [k [c [-> [N [Pc Before]]]]].
  simpl in *.
  destruct p' as [|j' q']; simpl in S.
  - injection S as <-. simpl in I. contradiction.
  - change (kids (mkComponent i ty l pr s e (Some cs))) with cs in S.
    destruct (nth_error cs j') as [c'|] eqn:N'; [|discriminate].
    destruct (Nat.lt_trichotomy k j') as [Hlt | [-> | Hgt]].
    + apply Nat.ltb_lt in Hlt. rewrite Hlt. reflexivity.
    + rewrite Nat.ltb_irrefl, Nat.eqb_refl. simpl.
      assert (c' = c) by congruence. subst c'.
      exact (Forall_nth_error _ _ _ _ IH N _ _ _ Pc S I).
    + exfalso. pose proof (Before j' c' Hgt N') as Pn. simpl in Pn.
      apply (path_to_None_not_in _ _ Pn). rewrite <- I.
      eapply subtree_at_id_in; eauto.
Qed.

(** X8.  [getComponentById] returns a node of the tree that has the id
    asked for, and of all such nodes the first in pre-order; it returns
    nothing exactly when no node has the id. *)
Theorem getComponentById_finds_the_first :
  forall (target : string) (state : EditorState),
    match getComponentById target state with
    | Some x =>
        id x = target
        /\ exists p,
             subtree_at p (root state) = Some x
             /\ forall p' y,
                  subtree_at p' (root state) = Some y -> id y = target ->
                  pre_order_le p p' = true
    | None => ~ In target (ids (root state))
    end.
Proof.
  intros target state. unfold getComponentById.
  pose proof (path_to_findNode target (root state)) as F.
  destruct (path_to target (root state)) as [p|] eqn:P.
  - destruct F as [x [S [I ->]]]. split; [exact I|].
    exists p. split; [exact S|].
    intros p' y S' I'. eapply path_to_first; eauto.
  - rewrite F. apply path_to_None_not_in. exact P.
Qed.

Lemma set_key_keys_in (o : obj) (k k' : string) (v : value) :
  In k' (map fst (set_key o k v)) -> k' = k \/ In k' (map fst o).
Proof.
  induction o as [|[k0 v0] o IH]; simpl.
  - intros [->|[]]. auto.
  - destruct (String.eqb k0 k) eqn:E; simpl.
    + intros [->|H]; auto.
    + intros [->|H]; auto. destruct (IH H); auto.
Qed.

Lemma set_key_keys (o : obj) (k : string) (v : value) :
  NoDup (map fst o) -> NoDup (map fst (set_key o k v)).
Proof.
  intros ND. induction o as [|[k0 v0] o IH]; simpl.
  - repeat constructor. simpl. tauto.
  - inversion ND as [|? ? Hn ND']; subst.
    destruct (String.eqb k0 k) eqn:E; simpl.
    + apply String.eqb_eq in E. subst k0. constructor; auto.
    + constructor; auto. intros Hin.
      destruct (set_key_keys_in _ _ _ _ Hin) as [->|H]; auto.
      rewrite String.eqb_refl in E. discriminate.
Qed.

(** X9.  [setStoreData(key, v)] makes [key] hold [v], replacing whatever
    it held, and leaves every other key, the tree and the selection as
    they were; an object with one entry per key stays so. *)
Theorem setStoreData_sets_one_key :
  forall (key : string) (v : value) (state : EditorState),
    let state' := setStoreData key v state in
    get_key (storeData state') key = Some v
    /\ (forall key', key' <> key ->
                     get_key (storeData state') key'
                     = get_key (storeData state) key')
    /\ (NoDup (map fst (storeData state)) ->
        NoDup (map fst (storeData state')))
    /\ root state' = root state
    /\ selectedId state' = selectedId state.
Proof.
  intros key v state state'. subst state'. unfold setStoreData. simpl.
  split; [apply get_set_key|]. split; [|split; [|split; reflexivity]].
  - intros key' H. apply get_set_key_other. apply String.eqb_neq. congruence.
  - apply set_key_keys.
Qed.

Lemma setStoreData_sets_one_key_witness :
  let state := mkState initialRoot None
                 [("user", VObj [("name", VStr "John")]); ("n", VNum 1)] in
  get_key (storeData (setStoreData "user" VNull state)) "n" = Some (VNum 1)
  /\ NoDup (map fst (storeData (setStoreData "user" VNull state))).
Proof.
  intros state.
  destruct (setStoreData_sets_one_key "user" VNull state)
    as [_ [O [K _]]].
  split.
  - rewrite O; [reflexivity | discriminate].
  - apply K. repeat constructor; simpl; intuition discriminate.
Defined.

Lemma first_some_intro {A R : Type} (f : nat -> A -> option R) (l : list A)
  (i k : nat) (x : A) (r : R) :
  nth_error l k = Some x -> f (i + k) x = Some r ->
  (forall k' x', k' < k -> nth_error l k' = Some x' -> f (i + k') x' = None) ->
  first_some f i l = Some (i + k, r).
Proof.
  revert i k. induction l as [|a l IH]; intros i [|k] N F B; simpl in *;
    try discriminate.
  - injection N as ->. rewrite Nat.add_0_r in *. rewrite F. reflexivity.
  - pose proof (B 0 a ltac:(lia) eq_refl) as B0.
    rewrite Nat.add_0_r in B0. rewrite B0.
    replace (i + S k) with (S i + k) in * by lia.
    apply IH; auto. intros k' x' Hlt Hx'.
    replace (S i + k') with (i + S k') by lia. apply B; [lia | exact Hx'].
Qed.

Lemma nth_error_set_nth_ne {A : Type} (l : list A) (i j : nat) (x : A) :
  i <> j -> nth_error (set_nth l i x) j = nth_error l j.
Proof.
  revert i j. induction l as [|a l IH]; intros [|i] [|j] H; simpl; auto;
    try congruence.
Qed.

Lemma set_children_same (n : ComponentSchema) :
  set_children n (children n) = n.
Proof. destruct n; reflexivity. Qed.

Lemma kids_children (n : ComponentSchema) (i : nat) (c : ComponentSchema) :
  nth_error (kids n) i = Some c -> children n = Some (kids n).
Proof.
  unfold kids. destruct (children n); [reflexivity|].
  destruct i; discriminate.
Qed.

(** An edit of the node at [p] that keeps its id leaves [p] the path to
    the first node with that id. *)
Lemma path_to_update_at (t : string) (f : ComponentSchema -> ComponentSchema) :
  (forall m, id (f m) = id m) ->
  forall n p, path_to t n = Some p -> path_to t (update_at p f n) = Some p.
Proof.
  intros Hf.
  induction n as [i ty l pr s e | i ty l pr s e cs IH] using tree_ind;
    intros p P; pose proof P as P0; simpl in P;
    destruct (String.eqb i t) eqn:E; try discriminate;
    try (injection P as <-; simpl; apply path_to_nil; rewrite Hf;
         apply String.eqb_eq; exact E).
  destruct (first_some _ 0 cs) as [[j q]|] eqn:FS; [|discriminate].
  injection P as <-.
  destruct (first_some_Some _ _ _ _ _ FS) as [k [c [-> [N [Pc B]]]]].
  simpl in *.
  change (kids (mkComponent i ty l pr s e (Some cs))) with cs. rewrite N.
  simpl. rewrite E.
  rewrite (first_some_intro (fun _ c0 => path_to t c0)
             (set_nth cs k (update_at q f c)) 0 k (update_at q f c) q).
  - reflexivity.
  - eapply nth_error_set_nth_eq; eauto.
  - exact (Forall_nth_error _ _ _ _ IH N _ Pc).
  - intros k' x' Hlt Hx'. rewrite nth_error_set_nth_ne in Hx' by lia.
    exact (B k' x' Hlt Hx').
Qed.

Lemma flat_map_set_nth_eq {A B : Type} (f : A -> list B) (l : list A)
  (i : nat) (x y : A) :
  nth_error l i = Some x -> f y = f x ->
  flat_map f (set_nth l i y) = flat_map f l.
Proof.
  revert i. induction l as [|a l IH]; intros [|i] N E; simpl in *;
    try discriminate.
  - injection N as ->. rewrite E. reflexivity.
  - rewrite (IH i N E). reflexivity.
Qed.

Lemma ids_update_at_same (f : ComponentSchema -> ComponentSchema) :
  (forall m, ids (f m) = ids m) ->
  forall p n, ids (update_at p f n) = ids n.
Proof.
  intros Hf. induction p as [|i p IH]; intros n; simpl; auto.
  destruct (nth_error (kids n) i) as [c|] eqn:N; [|reflexivity].
  rewrite (ids_eq (set_children _ _)), (ids_eq n).
  rewrite kids_set_children, id_set_children.
  f_equal. eapply flat_map_set_nth_eq; eauto.
Qed.

Lemma modified_node (t : string) (f : ComponentSchema -> ComponentSchema)
  (r : ComponentSchema) :
  modified r t (fun node _ _ => MutNode (f node))
  = match path_to t r with
    | Some p => update_at p f r
    | None => r
    end.
Proof.
  unfold modified. rewrite (findAndModify_node t f).
  destruct (path_to t r); reflexivity.
Qed.

Lemma findNode_updateComponent (target : string) (u : Updates)
  (state : EditorState) :
  u_id u = None ->
  findNode (root (updateComponent target u state)) target
  = match findNode (root state) target with
    | Some x => Some (assign x u)
    | None => None
    end.
Proof.
  intros Hid. unfold updateComponent. simpl. rewrite modified_node.
  assert (Hf : forall m, id (assign m u) = id m)
    by (intros m; unfold assign; rewrite Hid; reflexivity).
  pose proof (path_to_findNode target (root state)) as F.
  destruct (path_to target (root state)) as [p|] eqn:P.
  - destruct F as [x [S [I ->]]].
    pose proof (path_to_update_at target _ Hf _ _ P) as P'.
    destruct (path_to_valid _ _ _ P') as [y [Sy [_ ->]]].
    rewrite (subtree_at_update_at _ _ _ _ S) in Sy. congruence.
  - rewrite F. reflexivity.
Qed.

(** X10.  [updateComponent] with [updates] that do not carry an [id]:
    looking the id up afterwards gives the node that was there before with
    the updates assigned to it; when no node has the id the state is
    returned as it was; and when the updates carry no [children] either,
    the ids of the tree are what they were. *)
Theorem updateComponent_assigns_to_the_found_node :
  forall (target : string) (updates : Updates) (state : EditorState),
    u_id updates = None ->
    let state' := updateComponent target updates state in
    getComponentById target state'
    = match getComponentById target state with
      | Some x => Some (assign x updates)
      | None => None
      end
    /\ (getComponentById target state = None -> state' = state)
    /\ (u_children updates = None ->
        ids (root state') = ids (root state))
    /\ selectedId state' = selectedId state
    /\ storeData state' = storeData state.
Proof.
  intros target u state Hid state'. subst state'.
  unfold getComponentById.
  split; [apply findNode_updateComponent; exact Hid|].
  unfold updateComponent. simpl. rewrite modified_node.
  split; [|split; [|split; reflexivity]].
  - intros F. apply path_to_None in F. rewrite F. destruct state; reflexivity.
  - intros Hc. destruct (path_to target (root state)); [|reflexivity].
    apply ids_update_at_same. intros m. unfold assign. rewrite Hid, Hc.
    destruct m as [mi mty ml mpr ms me [mcs|]]; reflexivity.
Qed.

Lemma updateComponent_assigns_to_the_found_node_witness :
  let b := mkComponent "b" button (Some "old") [] None None None in
  let state :=
    mkState (mkComponent "root" page None [] None None (Some [b])) None [] in
  let u := mkUpdates None None (Some (Some "new")) None None None None in
  getComponentById "b" (updateComponent "b" u state)
  = Some (mkComponent "b" button (Some "new") [] None None None).
Proof.
  intros b state u.
  destruct (updateComponent_assigns_to_the_found_node "b" u state eq_refl)
    as [G _].
  rewrite G. reflexivity.
Defined.

Lemma apply_at_cons (cb : Callback) (j : nat) (p : list nat)
  (n : ComponentSchema) :
  p <> [] ->
  apply_at cb (j :: p) n
  = match nth_error (kids n) j with
    | Some c => set_children n (Some (set_nth (kids n) j (apply_at cb p c)))
    | None => n
    end.
Proof. destruct p; [congruence | reflexivity]. Qed.

(** [findAndModify], for any callback, runs it on the node [path_to]
    leads to. *)
Lemma findAndModify_at (t : string) (cb : Callback) (n : ComponentSchema) :
  forall parent index,
    findAndModify n t cb parent index
    = match path_to t n with
      | None => None
      | Some [] => Some (cb n parent index)
      | Some p => Some (MutNode (apply_at cb p n))
      end.
Proof.
  induction n as [i ty l pr s e | i ty l pr s e cs IH] using tree_ind;
    intros parent index; simpl.
  - destruct (String.eqb i t); reflexivity.
  - destruct (String.eqb i t); [reflexivity|].
    set (node := mkComponent i ty l pr s e (Some cs)).
    destruct (first_some_both
                (fun j c => findAndModify c t cb (Some node) j)
                (fun _ c => path_to t c) cs 0)
      as [[F G] | [k [c [m [p [N [F [G [Fc Gc]]]]]]]]].
    + intros k c N. rewrite (Forall_nth_error _ _ _ _ IH N).
      destruct (path_to t c) as [[|]|]; split; congruence.
    + rewrite F, G. reflexivity.
    + rewrite F, G. rewrite (Forall_nth_error _ _ _ _ IH N), Gc in Fc.
      destruct p as [|j p]; injection Fc as <-.
      * cbn. rewrite N. destruct (cb c (Some node) k); reflexivity.
      * rewrite apply_at_cons by discriminate. cbn. rewrite N.
        reflexivity.
Qed.

Lemma apply_at_last (cb : Callback) (p : list nat) (i : nat) :
  forall n, apply_at cb (p ++ [i]) n = update_at p (apply_at cb [i]) n.
Proof.
  induction p as [|j p IH]; intros n; [reflexivity|].
  change ((j :: p) ++ [i]) with (j :: (p ++ [i])).
  rewrite apply_at_cons by (destruct p; discriminate).
  simpl. destruct (nth_error (kids n) j); [|reflexivity].
  rewrite IH. reflexivity.
Qed.

Lemma modified_at (t : string) (cb : Callback) (r : ComponentSchema) :
  (forall node index, cb node None index = MutNode node) ->
  modified r t cb
  = match path_to t r with
    | Some p => apply_at cb p r
    | None => r
    end.
Proof.
  intros H. unfold modified. rewrite findAndModify_at.
  destruct (path_to t r) as [[|j p]|]; try reflexivity.
  rewrite H. reflexivity.
Qed.

Lemma perm_set_nth {A : Type} (l : list A) (j : nat) (b x : A) :
  nth_error l j = Some b -> Permutation (b :: set_nth l j x) (x :: l).
Proof.
  revert j. induction l as [|a l IH]; intros [|j] N; simpl in *;
    try discriminate.
  - injection N as ->. apply perm_swap.
  - rewrite perm_swap. rewrite (IH j N). apply perm_swap.
Qed.

Lemma swapped_perm {A : Type} (l : list A) (i j : nat) :
  Permutation (swapped l i j) l.
Proof.
  unfold swapped.
  destruct (nth_error l i) as [a|] eqn:Ni; [|reflexivity].
  destruct (nth_error l j) as [b|] eqn:Nj; [|reflexivity].
  revert i j Ni Nj. induction l as [|x l IH]; intros [|i] [|j] Ni Nj;
    simpl in *; try discriminate.
  - injection Ni as ->. injection Nj as ->. reflexivity.
  - injection Ni as ->. apply perm_set_nth. exact Nj.
  - injection Nj as ->. apply perm_set_nth. exact Ni.
  - constructor. apply IH; assumption.
Qed.

Lemma ids_swap_children (i j : nat) (m : ComponentSchema) :
  Permutation (ids (swap_children i j m)) ([] ++ ids m).
Proof.
  unfold swap_children. simpl.
  destruct (children m) as [cs|] eqn:C; [|reflexivity].
  rewrite (ids_eq (set_children _ _)), (ids_eq m).
  rewrite kids_set_children, id_set_children, (children_kids _ _ C).
  constructor. apply Permutation_flat_map. apply swapped_perm.
Qed.

(** One run of the callback of [moveComponent] on child [i] of [m]. *)
Lemma apply_swap_callback (d : Direction) (i : nat) (m c : ComponentSchema) :
  nth_error (kids m) i = Some c ->
  apply_at (swap_callback d) [i] m
  = match d with
    | up => if Nat.eqb i 0 then m else swap_children i (i - 1) m
    | down =>
        if Nat.ltb (S i) (List.length (kids m))
        then swap_children i (S i) m
        else m
    end.
Proof.
  intros N. pose proof (kids_children _ _ _ N) as C.
  assert (Hlen : i < List.length (kids m))
    by (apply nth_error_Some; congruence).
  assert (Same : set_children m (Some (set_nth (kids m) i c)) = m).
  { rewrite (set_nth_same _ _ _ N), <- C. apply set_children_same. }
  cbn [apply_at]. rewrite N. unfold swap_callback. rewrite C.
  unfold swap_children, swapped. rewrite C.
  destruct d.
  - destruct i as [|i].
    + simpl. exact Same.
    + replace (0 <=? Z.of_nat (S i) - 1)%Z with true
        by (symmetry; apply Z.leb_le; lia).
      replace (Z.of_nat (S i) - 1 <? Z.of_nat (List.length (kids m)))%Z
        with true by (symmetry; apply Z.ltb_lt; lia).
      replace (Z.to_nat (Z.of_nat (S i) - 1)) with i by lia.
      cbn [andb Nat.eqb]. replace (S i - 1) with i by lia.
      rewrite N.
      destruct (nth_error (kids m) i) as [b|] eqn:Nb.
      2:{ apply nth_error_None in Nb. lia. }
      rewrite (nth_nth_error _ _ _ c Nb), (nth_nth_error _ _ _ c N).
      reflexivity.
  - replace (0 <=? Z.of_nat i + 1)%Z with true
      by (symmetry; apply Z.leb_le; lia).
    replace (Z.to_nat (Z.of_nat i + 1)) with (S i) by lia.
    cbn [andb].
    destruct (Nat.ltb (S i) (List.length (kids m))) eqn:Lt.
    + apply Nat.ltb_lt in Lt.
      replace (Z.of_nat i + 1 <? Z.of_nat (List.length (kids m)))%Z
        with true by (symmetry; apply Z.ltb_lt; lia).
      rewrite N.
      destruct (nth_error (kids m) (S i)) as [b|] eqn:Nb.
      2:{ apply nth_error_None in Nb. lia. }
      rewrite (nth_nth_error _ _ _ c Nb), (nth_nth_error _ _ _ c N).
      reflexivity.
    + apply Nat.ltb_ge in Lt.
      replace (Z.of_nat i + 1 <? Z.of_nat (List.length (kids m)))%Z
        with false by (symmetry; apply Z.ltb_ge; lia).
      exact Same.
Qed.

Lemma update_at_id (p : list nat) :
  forall n, update_at p (fun m => m) n = n.
Proof.
  induction p as [|j p IH]; intros n; simpl; auto.
  destruct (nth_error (kids n) j) as [c|] eqn:N; auto.
  rewrite IH, (set_nth_same _ _ _ N), <- (kids_children _ _ _ N).
  apply set_children_same.
Qed.

Lemma swap_callback_root (d : Direction) (node : ComponentSchema)
  (index : nat) :
  swap_callback d node None index = MutNode node.
Proof. reflexivity. Qed.

Lemma modified_swap (target : string) (d : Direction) (r : ComponentSchema)
  (p : list nat) (i : nat) (parent : ComponentSchema) :
  path_to target r = Some (p ++ [i]) ->
  subtree_at p r = Some parent ->
  modified r target (swap_callback d)
  = update_at p
      (fun m =>
         match d with
         | up => if Nat.eqb i 0 then m else swap_children i (i - 1) m
         | down =>
             if Nat.ltb (S i) (List.length (kids parent))
             then swap_children i (S i) m
             else m
         end) r.
Proof.
  intros P S.
  rewrite (modified_at _ _ _ (swap_callback_root d)), P, apply_at_last.
  destruct (path_to_valid _ _ _ P) as [x [Sx _]].
  rewrite subtree_at_app, S in Sx. simpl in Sx.
  destruct (nth_error (kids parent) i) as [c|] eqn:N; [|discriminate].
  clear P. revert r S.
  induction p as [|j p IH]; intros n S; simpl in *.
  - injection S as ->. apply (apply_swap_callback d i parent c N).
  - destruct (nth_error (kids n) j) as [cj|]; [|discriminate].
    rewrite (IH cj S). reflexivity.
Qed.

(** X11.  [moveComponent] exchanges the first node in pre-order that has
    the id with the sibling before it ([up]) or after it ([down]), inside
    their parent's child list, and changes nothing else; at the first
    position [up] does nothing, at the last [down] does nothing, and so
    does either for ['root'], for the root node and for an id no node has.
    The ids of the tree are always the same as before. *)
Theorem moveComponent_swaps_with_a_neighbour :
  forall (target : string) (direction : Direction) (state : EditorState),
    let state' := moveComponent target direction state in
    selectedId state' = selectedId state
    /\ storeData state' = storeData state
    /\ Permutation (ids (root state')) (ids (root state))
    /\ (target = "root" -> state' = state)
    /\ (getComponentById target state = None -> root state' = root state)
    /\ (id (root state) = target -> root state' = root state)
    /\ (forall p i parent,
           target <> "root" ->
           path_to target (root state) = Some (p ++ [i]) ->
           subtree_at p (root state) = Some parent ->
           root state'
           = match direction with
             | up =>
                 if Nat.eqb i 0 then root state
                 else update_at p (swap_children i (i - 1)) (root state)
             | down =>
                 if Nat.ltb (S i) (List.length (kids parent))
                 then update_at p (swap_children i (S i)) (root state)
                 else root state
             end).
Proof.
  intros target d state state'. subst state'. unfold moveComponent.
  pose proof (swap_callback_root d) as Cb.
  split; [destruct (String.eqb target "root"); reflexivity|].
  split; [destruct (String.eqb target "root"); reflexivity|].
  split; [|split; [|split; [|split]]].
  - destruct (String.eqb target "root"); [reflexivity|]. simpl.
    destruct (path_to target (root state)) as [path|] eqn:P.
    2:{ rewrite (modified_at _ _ _ Cb), P. reflexivity. }
    destruct path as [|j path].
    { rewrite (modified_at _ _ _ Cb), P. reflexivity. }
    destruct (exists_last (l := j :: path)) as [p [i E]]; [discriminate|].
    rewrite E in P.
    destruct (path_to_valid _ _ _ P) as [x [Sx _]].
    rewrite subtree_at_app in Sx.
    destruct (subtree_at p (root state)) as [parent|] eqn:S; [|discriminate].
    rewrite (modified_swap _ d _ _ _ _ P S).
    change (ids (root state)) with ([] ++ ids (root state)).
    eapply ids_update_at; eauto.
    intros m. destruct d; [destruct (Nat.eqb i 0) | destruct (Nat.ltb _ _)];
      try apply ids_swap_children; reflexivity.
  - intros ->. reflexivity.
  - intros F. apply path_to_None in F.
    destruct (String.eqb target "root"); [reflexivity|]. simpl.
    rewrite (modified_at _ _ _ Cb), F. reflexivity.
  - intros I. apply path_to_nil in I.
    destruct (String.eqb target "root"); [reflexivity|]. simpl.
    rewrite (modified_at _ _ _ Cb), I. reflexivity.
  - intros p i parent Hne P S. apply String.eqb_neq in Hne. rewrite Hne.
    simpl. rewrite (modified_swap _ d _ _ _ _ P S).
    destruct d; [destruct (Nat.eqb i 0) | destruct (Nat.ltb _ _)];
      auto using update_at_id.
Qed.

Lemma moveComponent_swaps_with_a_neighbour_witness :
  let b := mkComponent "b" button None [] None None None in
  let c := mkComponent "c" text None [] None None None in
  let tree cs := mkComponent "root" page None [] None None (Some cs) in
  let state := mkState (tree [b; c]) None [] in
  root (moveComponent "b" up state) = tree [b; c]
  /\ root (moveComponent "b" down state) = tree [c; b].
Proof.
  intros b c tree state.
  destruct (moveComponent_swaps_with_a_neighbour "b" up state)
    as [_ [_ [_ [_ [_ [_ U]]]]]].
  destruct (moveComponent_swaps_with_a_neighbour "b" down state)
    as [_ [_ [_ [_ [_ [_ D]]]]]].
  split.
  - rewrite (U [] 0 (tree [b; c])); [reflexivity | discriminate | | ];
      reflexivity.
  - rewrite (D [] 0 (tree [b; c])); [reflexivity | discriminate | | ];
      reflexivity.
Defined.

Lemma modified_delete (t : string) (r : ComponentSchema) :
  modified r t delete_callback
  = match path_to t r with
    | Some (j :: p) => delete_at (j :: p) r
    | _ => r
    end.
Proof.
  unfold modified. rewrite findAndModify_delete.
  destruct (path_to t r) as [[|j p]|]; reflexivity.
Qed.

(** X12.  In a tree with unique ids, [deleteComponent] of an id other
    than ['root'] and the root's own removes the id from the tree: looking
    it up afterwards finds nothing, the remaining ids are still unique,
    and every id of the old tree is either an id of the removed subtree or
    an id of the new tree. *)
Theorem deleteComponent_removes_the_id :
  forall (target : string) (state : EditorState),
    NoDup (ids (root state)) ->
    target <> "root" -> id (root state) <> target ->
    let state' := deleteComponent target state in
    getComponentById target state' = None
    /\ NoDup (ids (root state'))
    /\ (forall t, In t (ids (root state')) -> In t (ids (root state)))
    /\ (forall x t,
           getComponentById target state = Some x ->
           In t (ids (root state)) ->
           In t (ids x) \/ In t (ids (root state'))).
Proof.
  intros target state ND Hne Hroot state'. subst state'.
  unfold deleteComponent, getComponentById.
  apply String.eqb_neq in Hne. rewrite Hne. simpl.
  rewrite modified_delete.
  destruct (path_to target (root state)) as [[|j p]|] eqn:P.
  - apply path_to_nil in P. contradiction.
  - destruct (path_to_valid _ _ _ P) as [x [S [I F]]].
    pose proof (ids_delete_at (j :: p) _ _ ltac:(discriminate) S) as Perm.
    pose proof (Permutation_NoDup Perm ND) as ND'.
    split; [|split; [|split]].
    + apply path_to_None. apply not_in_path_to_None. intros Hin.
      apply (NoDup_app_disjoint _ _ target ND'); [|exact Hin].
      rewrite <- I, ids_eq. left. reflexivity.
    + eapply NoDup_app_remove_l; eauto.
    + intros t Ht. apply (Permutation_in _ (Permutation_sym Perm)).
      apply in_or_app. right. exact Ht.
    + intros x' t Fx Ht. assert (x' = x) by congruence. subst x'.
      apply in_app_or. apply (Permutation_in _ Perm). exact Ht.
  - split; [apply path_to_None; exact P|]. split; [exact ND|].
    split; [auto|].
    intros x t Fx. apply path_to_None in P. congruence.
Qed.

Lemma deleteComponent_removes_the_id_witness :
  let c := mkComponent "c" button None [] None None None in
  let a := mkComponent "a" container None [] None None (Some [c]) in
  let state :=
    mkState (mkComponent "root" page None [] None None (Some [a])) None [] in
  getComponentById "a" (deleteComponent "a" state) = None
  /\ NoDup (ids (root (deleteComponent "a" state))).
Proof.
  intros c a state.
  destruct (deleteComponent_removes_the_id "a" state) as [G [N _]].
  - repeat constructor; simpl; intuition discriminate.
  - discriminate.
  - discriminate.
  - split; [exact G | exact N].
Defined.

Lemma push_child_kids (m x : ComponentSchema) :
  push_child m x = set_children m (Some (kids m ++ [x])).
Proof. unfold push_child, kids. destruct (children m); reflexivity. Qed.

Lemma in_ids_findNode (t : string) (n : ComponentSchema) :
  NoDup (ids n) ->
  forall p x, subtree_at p n = Some x -> id x = t -> findNode n t = Some x.
Proof.
  intros ND p x S I.
  destruct (path_to t n) as [q|] eqn:P.
  - destruct (path_to_valid _ _ _ P) as [y [Sy [Iy F]]].
    rewrite F. f_equal. eapply unique_subtree; eauto. congruence.
  - exfalso. apply (path_to_None_not_in _ _ P). rewrite <- I.
    eapply subtree_at_id_in; eauto.
Qed.

(** X13.  [addComponent] always selects the id of the component it
    builds.  In a tree with unique ids that does not have that id yet:
    when the parent id is ['root'] or the id of a node, the component
    becomes the last child of the root, or of that node, and looking the
    selected id up finds it; when no node has the parent id the tree is
    left as it was and the selected id names no node. *)
Theorem addComponent_selects_what_it_adds :
  forall (parentId : string) (ty : ComponentType) (now : Z)
         (state : EditorState),
    let nc := newComponent ty now in
    let state' := addComponent parentId ty now state in
    selectedId state' = Some (id nc)
    /\ storeData state' = storeData state
    /\ (NoDup (ids (root state)) -> ~ In (id nc) (ids (root state)) ->
        match
          (if String.eqb parentId "root" then Some (root state)
           else getComponentById parentId state)
        with
        | Some parent =>
            getComponentById (id nc) state' = Some nc
            /\ exists p,
                 subtree_at p (root state) = Some parent
                 /\ subtree_at p (root state')
                    = Some (set_children parent (Some (kids parent ++ [nc])))
        | None =>
            root state' = root state
            /\ getComponentById (id nc) state' = None
        end).
Proof.
  intros parentId ty now state nc state'. subst state'.
  split; [reflexivity|]. split; [reflexivity|].
  intros ND Fresh. unfold getComponentById. rewrite addComponent_root.
  fold nc.
  assert (Found : forall p parent,
             subtree_at p (root state) = Some parent ->
             findNode (update_at p (fun m => push_child m nc) (root state))
               (id nc) = Some nc
             /\ subtree_at p
                  (update_at p (fun m => push_child m nc) (root state))
                = Some (set_children parent (Some (kids parent ++ [nc])))).
  { intros p parent S.
    pose proof (subtree_at_update_at p (fun m => push_child m nc) _ _ S)
      as S'.
    cbv beta in S'. rewrite push_child_kids in S'. split; [|exact S'].
    apply in_ids_findNode with (p := p ++ [List.length (kids parent)]).
    - eapply Permutation_NoDup.
      + symmetry. eapply ids_update_at with (extra := ids nc); eauto.
        intros m. apply ids_push_child.
      + unfold nc. rewrite ids_newComponent. constructor; assumption.
    - rewrite subtree_at_app, S'. simpl. rewrite kids_set_children.
      rewrite nth_error_app2 by lia. rewrite Nat.sub_diag. reflexivity.
    - reflexivity. }
  destruct (String.eqb parentId "root").
  - destruct (Found [] (root state) eq_refl) as [F S]. simpl in F, S.
    rewrite push_child_kids in F. split; [exact F|].
    exists []. split; [reflexivity|]. simpl. reflexivity.
  - pose proof (path_to_findNode parentId (root state)) as PF.
    destruct (path_to parentId (root state)) as [p|] eqn:P.
    + destruct PF as [parent [S [_ ->]]].
      destruct (Found p parent S) as [F S']. split; [exact F|].
      exists p. auto.
    + rewrite PF. split; [reflexivity|].
      apply path_to_None. apply not_in_path_to_None. exact Fresh.
Qed.

Lemma addComponent_selects_what_it_adds_witness :
  let state := mkState initialRoot None [] in
  getComponentById "button_5" (addComponent "root" button 5 state)
  = Some (newComponent button 5)
  /\ selectedId (addComponent "nowhere" button 5 state) = Some "button_5"
  /\ getComponentById "button_5" (addComponent "nowhere" button 5 state)
     = None.
Proof.
  intros state.
  assert (ND : NoDup (ids (root state)))
    by (repeat constructor; simpl; intuition discriminate).
  assert (Fresh : ~ In (id (newComponent button 5)) (ids (root state)))
    by (simpl; intuition discriminate).
  destruct (addComponent_selects_what_it_adds "root" button 5 state)
    as [_ [_ A]].
  destruct (addComponent_selects_what_it_adds "nowhere" button 5 state)
    as [S [_ B]].
  destruct (A ND Fresh) as [G _].
  destruct (B ND Fresh) as [_ G'].
  split; [exact G | split; [exact S | exact G']].
Defined.

(* ===================================================================== *)
(** * Properties of the editor's handlers *)
(* ===================================================================== *)

Lemma subtree_at_prefix (p q : list nat) (n x : ComponentSchema) :
  subtree_at (p ++ q) n = Some x -> exists m, subtree_at p n = Some m.
Proof.
  rewrite subtree_at_app. destruct (subtree_at p n); [eauto|discriminate].
Qed.

Lemma path_to_parent_exists (t : string) (n : ComponentSchema)
  (q : list nat) :
  path_to t n = Some q -> exists m, subtree_at (removelast q) n = Some m.
Proof.
  intros P. destruct (path_to_valid _ _ _ P) as [x [S _]].
  destruct q as [|j q]; [simpl; eauto|].
  destruct (exists_last (l := j :: q)) as [p [i E]]; [discriminate|].
  rewrite E in *. rewrite removelast_last.
  eapply subtree_at_prefix; eauto.
Qed.

(** [findParent] returns the node above the one [path_to] leads to. *)
Lemma findParent_path (t : string) (n : ComponentSchema) :
  id n <> t ->
  findParent n t
  = match path_to t n with
    | Some path => subtree_at (removelast path) n
    | None => None
    end.
Proof.
  induction n as [i ty l pr s e | i ty l pr s e cs IH] using tree_ind;
    intros Hne; simpl in *; apply String.eqb_neq in Hne; rewrite Hne;
    [reflexivity|].
  set (node := mkComponent i ty l pr s e (Some cs)).
  assert (Child : forall k c,
             nth_error cs k = Some c ->
             (if String.eqb (id c) t then Some node else findParent c t)
             = match path_to t c with
               | Some [] => Some node
               | Some q => subtree_at (removelast q) c
               | None => None
               end).
  { intros k c N. destruct (String.eqb (id c) t) eqn:E.
    - apply String.eqb_eq in E. apply path_to_nil in E. rewrite E.
      reflexivity.
    - apply String.eqb_neq in E.
      rewrite (Forall_nth_error _ _ _ _ IH N E).
      destruct (path_to t c) as [[|j q]|] eqn:P; try reflexivity.
      apply path_to_nil in P. contradiction. }
  destruct (first_some_both
              (fun (_ : nat) c =>
                 if String.eqb (id c) t then Some node else findParent c t)
              (fun _ c => path_to t c) cs 0)
    as [[F G] | [k [c [r [q [N [F [G [Fc Gc]]]]]]]]].
  - intros k c N. rewrite (Child k c N).
    destruct (path_to t c) as [[|j q]|] eqn:P; split; try congruence.
    intros H. destruct (path_to_parent_exists _ _ _ P) as [m Sm].
    congruence.
  - rewrite F, G. reflexivity.
  - rewrite F, G. rewrite (Child k c N), Gc in Fc.
    destruct q as [|j q].
    + injection Fc as <-. reflexivity.
    + rewrite <- Fc.
      change (removelast (0 + k :: j :: q))
        with (k :: removelast (j :: q)).
      cbn [subtree_at]. change (kids node) with cs. rewrite N. reflexivity.
Qed.

(** X14.  [findParent] of an id the root does not itself have returns
    the parent of the node [getComponentById] returns for that id, and
    nothing when no node has the id. *)
Theorem findParent_is_above_the_found_node :
  forall (target : string) (state : EditorState),
    id (root state) <> target ->
    match getComponentById target state with
    | Some x =>
        exists p i parent,
          findParent (root state) target = Some parent
          /\ subtree_at p (root state) = Some parent
          /\ nth_error (kids parent) i = Some x
    | None => findParent (root state) target = None
    end.
Proof.
  intros target state Hne. unfold getComponentById.
  rewrite (findParent_path _ _ Hne).
  pose proof (path_to_findNode target (root state)) as F.
  destruct (path_to target (root state)) as [path|] eqn:P.
  - destruct F as [x [S [I ->]]].
    destruct path as [|j path].
    { apply path_to_nil in P. contradiction. }
    destruct (exists_last (l := j :: path)) as [p [i E]]; [discriminate|].
    rewrite E in *. rewrite removelast_last.
    rewrite subtree_at_app in S.
    destruct (subtree_at p (root state)) as [parent|] eqn:Sp;
      [|discriminate].
    simpl in S.
    destruct (nth_error (kids parent) i) as [c|] eqn:N; [|discriminate].
    injection S as ->. exists p, i, parent. auto.
  - rewrite F. reflexivity.
Qed.

Lemma findParent_is_above_the_found_node_witness :
  let c := mkComponent "c" button None [] None None None in
  let a := mkComponent "a" container None [] None None (Some [c]) in
  let state :=
    mkState (mkComponent "root" page None [] None None (Some [a])) None [] in
  exists p i parent,
    findParent (root state) "c" = Some parent
    /\ subtree_at p (root state) = Some parent
    /\ nth_error (kids parent) i = Some c.
Proof.
  intros c a state.
  apply (findParent_is_above_the_found_node "c" state). discriminate.
Defined.

(** What [findParent] returns is a node of the tree with a child that
    has the id. *)
Lemma findParent_has_child (t : string) (n : ComponentSchema) :
  forall parent,
    findParent n t = Some parent ->
    exists p i c,
      subtree_at p n = Some parent /\ nth_error (kids parent) i = Some c
      /\ id c = t.
Proof.
  induction n as [i ty l pr s e | i ty l pr s e cs IH] using tree_ind;
    intros parent H; simpl in H; [discriminate|].
  set (node := mkComponent i ty l pr s e (Some cs)) in *.
  destruct (first_some _ 0 cs) as [[j r]|] eqn:FS; [|discriminate].
  injection H as ->.
  destruct (first_some_Some _ _ _ _ _ FS) as [k [c [-> [N [R _]]]]].
  simpl in R. destruct (String.eqb (id c) t) eqn:E.
  - injection R as <-. apply String.eqb_eq in E.
    exists [], k, c. auto.
  - destruct (Forall_nth_error _ _ _ _ IH N _ R) as [p [i' [c' [S [N' I]]]]].
    exists (k :: p), i', c'. cbn [subtree_at]. change (kids node) with cs.
    rewrite N. auto.
Qed.

Lemma is_container_kind_not_leaf (t : ComponentType) :
  is_container_kind t = negb (is_leaf_kind t).
Proof. destruct t; reflexivity. Qed.

Lemma leaf_shaped_subtree (p : list nat) :
  forall n x,
    leaf_shaped n = true -> subtree_at p n = Some x -> leaf_shaped x = true.
Proof.
  induction p as [|i p IH]; intros n x L S; simpl in S.
  - congruence.
  - destruct (nth_error (kids n) i) as [c|] eqn:N; [|discriminate].
    apply (IH c x); auto.
    pose proof (leaf_shaped_kids n L) as K. rewrite forallb_forall in K.
    apply K. eapply nth_error_In; eauto.
Qed.

Lemma leaf_shaped_parent (n : ComponentSchema) (cs : list ComponentSchema) :
  leaf_shaped n = true -> children n = Some cs ->
  is_leaf_kind (type n) = false.
Proof.
  destruct n as [i ty l pr s e c]; simpl. intros L ->.
  apply andb_true_iff in L. destruct L as [L _].
  apply negb_true_iff in L. exact L.
Qed.

Lemma leaf_shaped_with_children (n : ComponentSchema)
  (cs : list ComponentSchema) :
  is_leaf_kind (type n) = false -> forallb leaf_shaped cs = true ->
  leaf_shaped (set_children n (Some cs)) = true.
Proof.
  destruct n as [i ty l pr s e c]; simpl. intros -> ->. reflexivity.
Qed.

Lemma leaf_shaped_update_at (f : ComponentSchema -> ComponentSchema)
  (p : list nat) :
  forall n tgt,
    leaf_shaped n = true -> subtree_at p n = Some tgt ->
    leaf_shaped (f tgt) = true ->
    leaf_shaped (update_at p f n) = true.
Proof.
  induction p as [|i p IH]; intros n tgt L S Lf; simpl in *.
  - congruence.
  - destruct (nth_error (kids n) i) as [c|] eqn:N; [|exact L].
    apply leaf_shaped_with_children.
    + eapply leaf_shaped_parent; eauto using kids_children.
    + apply forallb_set_nth; [apply leaf_shaped_kids; exact L|].
      apply (IH c tgt); auto.
      pose proof (leaf_shaped_kids n L) as K. rewrite forallb_forall in K.
      apply K. eapply nth_error_In; eauto.
Qed.

Lemma leaf_shaped_newComponent (ty : ComponentType) (now : Z) :
  leaf_shaped (newComponent ty now) = true.
Proof. destruct ty; reflexivity. Qed.

Lemma forallb_app_one {A : Type} (f : A -> bool) (l : list A) (x : A) :
  forallb f l = true -> f x = true -> forallb f (l ++ [x]) = true.
Proof.
  intros Hl Hx. rewrite forallb_app, Hl. simpl. rewrite Hx. reflexivity.
Qed.

Lemma leaf_shaped_push_child (m x : ComponentSchema) :
  leaf_shaped m = true -> is_leaf_kind (type m) = false ->
  leaf_shaped x = true -> leaf_shaped (push_child m x) = true.
Proof.
  intros Lm T Lx. rewrite push_child_kids.
  apply leaf_shaped_with_children; [exact T|].
  apply forallb_app_one; [apply leaf_shaped_kids; exact Lm | exact Lx].
Qed.

Lemma id_update_at (f : ComponentSchema -> ComponentSchema) (p : list nat)
  (n : ComponentSchema) :
  (forall m, id (f m) = id m /\ type (f m) = type m) ->
  id (update_at p f n) = id n /\ type (update_at p f n) = type n.
Proof.
  intros Hf. destruct p as [|i p]; simpl; [apply Hf|].
  destruct (nth_error (kids n) i); [|auto].
  destruct n; simpl; auto.
Qed.

Lemma push_child_id_type (x m : ComponentSchema) :
  id (push_child m x) = id m /\ type (push_child m x) = type m.
Proof. rewrite push_child_kids. destruct m; simpl; auto. Qed.

(** What [addComponent] makes of the tree, as one edit. *)
Lemma addComponent_as_update (parentId : string) (ty : ComponentType)
  (now : Z) (state : EditorState) :
  root (addComponent parentId ty now state) = root state
  \/ exists p parent,
       subtree_at p (root state) = Some parent
       /\ (parentId = "root" /\ p = []
           \/ getComponentById parentId state = Some parent)
       /\ root (addComponent parentId ty now state)
          = update_at p (fun m => push_child m (newComponent ty now))
              (root state).
Proof.
  rewrite addComponent_root. unfold getComponentById.
  destruct (String.eqb parentId "root") eqn:E.
  - right. exists [], (root state). apply String.eqb_eq in E.
    split; [reflexivity|]. split; [auto|].
    simpl. rewrite push_child_kids. reflexivity.
  - destruct (path_to parentId (root state)) as [p|] eqn:P; [right|auto].
    destruct (path_to_valid _ _ _ P) as [x [S [_ F]]].
    exists p, x. auto.
Qed.

(** [addComponent] keeps the tree in shape when the parent it is given
    is ['root'] or a node that is not of a leaf kind. *)
Lemma addComponent_keeps_ok (parentId : string) (ty : ComponentType)
  (now : Z) (state : EditorState) :
  editor_tree_ok (root state) ->
  ~ In (id (newComponent ty now)) (ids (root state)) ->
  (parentId = "root"
   \/ exists sc, getComponentById parentId state = Some sc
                 /\ is_leaf_kind (type sc) = false) ->
  editor_tree_ok (root (addComponent parentId ty now state)).
Proof.
  intros [ND [L [I T]]] Fresh Hp.
  set (nc := newComponent ty now) in *.
  destruct (addComponent_as_update parentId ty now state)
    as [E | [p [parent [S [Which E]]]]].
  { rewrite E. repeat split; assumption. }
  fold nc in E. rewrite E.
  assert (Tp : is_leaf_kind (type parent) = false).
  { destruct Which as [[_ ->] | F].
    - simpl in S. injection S as <-. exact T.
    - destruct Hp as [-> | [sc [F' Tsc]]].
      + unfold getComponentById in F.
        pose proof (proj2 (path_to_nil "root" (root state)) I) as P0.
        pose proof (path_to_findNode "root" (root state)) as PF.
        rewrite P0 in PF. destruct PF as [x [Sx [_ Fx]]].
        simpl in Sx. injection Sx as <-.
        assert (parent = root state) by congruence. subst parent.
        exact T.
      + assert (parent = sc) by congruence. subst parent. exact Tsc. }
  split; [|split; [|split]].
  - eapply Permutation_NoDup.
    + symmetry. eapply ids_update_at with (extra := ids nc); eauto.
      intros m. apply ids_push_child.
    + unfold nc. rewrite ids_newComponent. constructor; assumption.
  - eapply leaf_shaped_update_at; eauto.
    apply leaf_shaped_push_child; auto.
    + eapply leaf_shaped_subtree; eauto.
    + apply leaf_shaped_newComponent.
  - rewrite (proj1 (id_update_at _ p (root state)
                      (push_child_id_type nc))). exact I.
  - rewrite (proj2 (id_update_at _ p (root state)
                      (push_child_id_type nc))). exact T.
Qed.

Lemma selectedComponent_by_id (state : EditorState) (sc : ComponentSchema) :
  selectedComponent state = Some sc ->
  getComponentById (id sc) state = Some sc.
Proof.
  unfold selectedComponent. intros Sel.
  destruct (selectedId state) as [sid|]; [|discriminate].
  destruct (String.eqb sid EmptyString); [discriminate|].
  unfold getComponentById in *.
  pose proof (path_to_findNode sid (root state)) as PF.
  destruct (path_to sid (root state)); [|congruence].
  destruct PF as [x [_ [Ix Fx]]].
  assert (x = sc) by congruence. subst x. rewrite Ix. exact Sel.
Qed.

(** X15.  [handleAddComponent] keeps the tree in shape: starting from a
    tree with unique ids, childless leaves and a container root named
    ['root'], and given a clock reading whose id is new to the tree, it
    ends in such a tree; and when the selected component is of a leaf
    kind it changes nothing and shows the alert. *)
Theorem handleAddComponent_keeps_the_tree_ok :
  forall (ty : ComponentType) (now : Z) (state : EditorState),
    editor_tree_ok (root state) ->
    ~ In (id (newComponent ty now)) (ids (root state)) ->
    editor_tree_ok (root (fst (handleAddComponent ty now state)))
    /\ (forall sc,
           selectedComponent state = Some sc ->
           is_leaf_kind (type sc) = true ->
           fst (handleAddComponent ty now state) = state
           /\ snd (handleAddComponent ty now state) <> None).
Proof.
  intros ty now state OK Fresh.
  unfold handleAddComponent.
  destruct (selectedComponent state) as [sc|] eqn:Sel.
  - pose proof (selectedComponent_by_id _ _ Sel) as Fsc.
    rewrite is_container_kind_not_leaf.
    destruct (is_leaf_kind (type sc)) eqn:K; simpl.
    + split; [exact OK|].
      intros sc' E _. split; [reflexivity | discriminate].
    + split; [apply addComponent_keeps_ok; eauto|].
      intros sc' E K'. congruence.
  - split; [apply (addComponent_keeps_ok "root"); auto|].
    intros sc E. discriminate.
Qed.

Lemma handleAddComponent_keeps_the_tree_ok_witness :
  let b := mkComponent "b" button None [] None None None in
  let state :=
    mkState (mkComponent "root" page None [] None None (Some [b]))
      (Some "b") [] in
  fst (handleAddComponent text 9 state) = state
  /\ snd (handleAddComponent text 9 state) <> None.
Proof.
  intros b state.
  destruct (handleAddComponent_keeps_the_tree_ok text 9 state) as [_ H].
  - repeat split; try reflexivity.
    repeat constructor; simpl; intuition discriminate.
  - simpl. intuition discriminate.
  - apply (H b); reflexivity.
Defined.

Lemma delete_at_id_type (p : list nat) (n : ComponentSchema) :
  id (delete_at p n) = id n /\ type (delete_at p n) = type n.
Proof.
  destruct p as [|i [|j p]]; simpl; auto.
  - destruct (children n); [destruct n; simpl|]; auto.
  - destruct (nth_error (kids n) i); [destruct n; simpl|]; auto.
Qed.

Lemma leaf_shaped_delete_at (p : list nat) :
  forall n, leaf_shaped n = true -> leaf_shaped (delete_at p n) = true.
Proof.
  induction p as [|i p IH]; intros n L; [exact L|].
  destruct p as [|j p].
  - simpl. destruct (children n) as [cs|] eqn:C; [|exact L].
    apply leaf_shaped_set_children with (cs := cs); auto.
    apply forallb_splice_out. rewrite <- (children_kids _ _ C).
    apply leaf_shaped_kids. exact L.
  - rewrite delete_at_cons by discriminate.
    destruct (nth_error (kids n) i) as [c|] eqn:N; [|exact L].
    apply leaf_shaped_with_children.
    + eapply leaf_shaped_parent; eauto using kids_children.
    + apply forallb_set_nth; [apply leaf_shaped_kids; exact L|].
      apply IH.
      pose proof (leaf_shaped_kids n L) as K. rewrite forallb_forall in K.
      apply K. eapply nth_error_In; eauto.
Qed.

Lemma nth_error_splice_out {A : Type} (l : list A) (i j : nat) (x : A) :
  nth_error (splice_out l i) j = Some x ->
  exists j', nth_error l j' = Some x.
Proof.
  revert i j. induction l as [|a l IH]; intros [|i] j H.
  - destruct j; discriminate.
  - destruct j; discriminate.
  - exists (S j). exact H.
  - destruct j as [|j].
    + exists 0. exact H.
    + destruct (IH i j H) as [j' N]. exists (S j'). exact N.
Qed.

(** A node of the tree after a detachment comes from a node of the tree
    before it, with the same id and kind. *)
Lemma delete_at_origin (p : list nat) :
  forall n q y,
    subtree_at q (delete_at p n) = Some y ->
    exists q' x,
      subtree_at q' n = Some x /\ id x = id y /\ type x = type y.
Proof.
  induction p as [|i p IH]; intros n q y S; [exists q, y; auto|].
  destruct q as [|j q].
  { simpl in S. injection S as <-. exists [], n.
    destruct (delete_at_id_type (i :: p) n) as [I T]. auto. }
  destruct p as [|i' p].
  - simpl in S. simpl delete_at in S.
    destruct (children n) as [cs|] eqn:C.
    + rewrite kids_set_children in S.
      destruct (nth_error (splice_out cs i) j) as [c|] eqn:N; [|discriminate].
      destruct (nth_error_splice_out _ _ _ _ N) as [j' N'].
      exists (j' :: q), y. simpl. rewrite (children_kids _ _ C), N'. auto.
    + exists (j :: q), y. auto.
  - rewrite delete_at_cons in S by discriminate.
    destruct (nth_error (kids n) i) as [c|] eqn:N.
    2:{ exists (j :: q), y. auto. }
    simpl in S. rewrite kids_set_children in S.
    destruct (Nat.eq_dec i j) as [->|Hij].
    + rewrite (nth_error_set_nth_eq _ _ _ _ N) in S.
      destruct (IH c q y S) as [q' [x [Sx [I T]]]].
      exists (j :: q'), x. simpl. rewrite N. auto.
    + rewrite nth_error_set_nth_ne in S by exact Hij.
      exists (j :: q), y. auto.
Qed.

Lemma forallb_splice_in {A : Type} (f : A -> bool) (l : list A) (k : nat)
  (x : A) :
  forallb f l = true -> f x = true -> forallb f (splice_in l k x) = true.
Proof.
  intros Hl Hx. unfold splice_in.
  rewrite <- (firstn_skipn k l), forallb_app in Hl.
  apply andb_true_iff in Hl. destruct Hl as [H1 H2].
  rewrite forallb_app. simpl. rewrite H1, Hx, H2. reflexivity.
Qed.

Lemma insert_child_id_type (k : nat) (x m : ComponentSchema) :
  id (insert_child k x m) = id m /\ type (insert_child k x m) = type m.
Proof. unfold insert_child. destruct m; simpl; auto. Qed.

(** The two outcomes of [moveComponentTo]. *)
Lemma moveComponentTo_cases (dragId targetId : string) (index : Z)
  (state : EditorState) :
  moveComponentTo dragId targetId index state = state
  \/ exists p q dragged target k,
       p <> []
       /\ subtree_at p (root state) = Some dragged
       /\ subtree_at q (delete_at p (root state)) = Some target
       /\ id target = targetId
       /\ moveComponentTo dragId targetId index state
          = mkState (attach q k dragged (delete_at p (root state)))
              (selectedId state) (storeData state).
Proof.
  unfold moveComponentTo.
  destruct (String.eqb dragId "root"); [left; reflexivity|].
  destruct (String.eqb dragId targetId); [left; reflexivity|].
  destruct (removeNode dragId (root state)) as [[x r1]|] eqn:R;
    [|left; reflexivity].
  destruct (insertNode targetId index x r1) as [r2|] eqn:I;
    [|left; reflexivity].
  destruct (removeNode_spec _ _ _ _ R) as [p [Hp [Sp [Ix ->]]]].
  destruct (insertNode_spec _ _ _ _ _ I) as [q [tgt [Sq [It ->]]]].
  right. exists p, q, x, tgt. eexists. repeat split; eauto.
Qed.

(** [moveComponentTo] keeps the tree in shape when no node with the
    target id is of a leaf kind. *)
Lemma moveComponentTo_keeps_ok (dragId targetId : string) (index : Z)
  (state : EditorState) :
  editor_tree_ok (root state) ->
  (forall q x, subtree_at q (root state) = Some x -> id x = targetId ->
               is_leaf_kind (type x) = false) ->
  editor_tree_ok (root (moveComponentTo dragId targetId index state))
  /\ Permutation (ids (root (moveComponentTo dragId targetId index state)))
       (ids (root state)).
Proof.
  intros [ND [L [I T]]] Kind.
  destruct (moveComponentTo_cases dragId targetId index state)
    as [E | [p [q [x [tgt [k [Hp [Sp [Sq [It E]]]]]]]]]]; rewrite E.
  { split; [repeat split; assumption | reflexivity]. }
  simpl.
  assert (Perm : Permutation
                   (ids (attach q k x (delete_at p (root state))))
                   (ids (root state))).
  { rewrite (ids_attach _ _ _ _ _ Sq). symmetry.
    apply ids_delete_at; assumption. }
  split; [|exact Perm].
  destruct (delete_at_id_type p (root state)) as [Id Td].
  split; [|split; [|split]].
  - eapply Permutation_NoDup; [symmetry; exact Perm | exact ND].
  - unfold attach. eapply leaf_shaped_update_at; eauto.
    + apply leaf_shaped_delete_at. exact L.
    + unfold insert_child. apply leaf_shaped_with_children.
      * destruct (delete_at_origin _ _ _ _ Sq) as [q' [y [Sy [Iy Ty]]]].
        rewrite <- Ty. apply (Kind q' y Sy). congruence.
      * apply forallb_splice_in.
        -- apply leaf_shaped_kids.
           eapply leaf_shaped_subtree; [|exact Sq].
           apply leaf_shaped_delete_at. exact L.
        -- eapply leaf_shaped_subtree; eauto.
  - unfold attach.
    rewrite (proj1 (id_update_at _ q _ (insert_child_id_type k x))).
    congruence.
  - unfold attach.
    rewrite (proj2 (id_update_at _ q _ (insert_child_id_type k x))).
    congruence.
Qed.

(** ** Where a move lands *)

Lemma findIndex_None (d : string) (cs : list ComponentSchema) :
  findIndex d cs = None ->
  forall i c, nth_error cs i = Some c -> id c <> d.
Proof.
  induction cs as [|c0 cs IH]; intros H i c N.
  - destruct i; discriminate.
  - simpl in H. destruct (String.eqb (id c0) d) eqn:E; [discriminate|].
    destruct (findIndex d cs); [discriminate|].
    destruct i; simpl in N.
    + injection N as <-. apply String.eqb_neq. exact E.
    + eapply IH; eauto.
Qed.

(** [removeNode] finds a node with the dragged id wherever there is one
    below the root. *)
Lemma removeNode_finds (d : string) (n : ComponentSchema) :
  forall p x,
    p <> [] -> subtree_at p n = Some x -> id x = d -> removeNode d n <> None.
Proof.
  induction n as [i t l pr s e | i t l pr s e cs IH] using tree_ind;
    intros p x Hp S I; (destruct p as [|j p]; [congruence|]); cbn in S.
  - destruct j; discriminate.
  - destruct (nth_error cs j) as [c|] eqn:N; [|discriminate].
    simpl. destruct (findIndex d cs) eqn:FI; [discriminate|].
    destruct (first_some _ 0 cs) as [[k [x0 c']]|] eqn:FS; [discriminate|].
    exfalso.
    pose proof (first_some_None _ _ _ FS j c N) as R. simpl in R.
    destruct p as [|j' p'].
    + simpl in S. injection S as <-. eapply findIndex_None; eauto.
    + apply (Forall_nth_error _ _ _ _ IH N (j' :: p') x);
        [discriminate | exact S | exact I | exact R].
Qed.

(** [insertNode] finds a node with the target id wherever there is
    one. *)
Lemma insertNode_finds (t : string) (index : Z) (x n : ComponentSchema) :
  forall q tgt,
    subtree_at q n = Some tgt -> id tgt = t ->
    insertNode t index x n <> None.
Proof.
  induction n as [i ty l pr s e | i ty l pr s e cs IH] using tree_ind;
    intros q tgt S I; simpl;
    (destruct (String.eqb i t) eqn:E; [discriminate|]);
    apply String.eqb_neq in E;
    (destruct q as [|j q];
     [simpl in S; injection S as <-; simpl in I; congruence|]);
    cbn in S.
  - destruct j; discriminate.
  - destruct (nth_error cs j) as [c|] eqn:N; [|discriminate].
    destruct (first_some _ 0 cs) as [[k c']|] eqn:FS; [discriminate|].
    exfalso.
    pose proof (first_some_None _ _ _ FS j c N) as R. simpl in R.
    apply (Forall_nth_error _ _ _ _ IH N q tgt); assumption.
Qed.

(** In a tree whose ids are unique, an id names one place. *)
Lemma unique_path (p : list nat) :
  forall p' n a b,
    NoDup (ids n) ->
    subtree_at p n = Some a -> subtree_at p' n = Some b -> id a = id b ->
    p = p'.
Proof.
  induction p as [|i p IH]; intros p' n a b ND Ha Hb E.
  - simpl in Ha. injection Ha as <-.
    destruct p' as [|j p']; [reflexivity|]. simpl in Hb.
    destruct (nth_error (kids n) j) as [c|] eqn:N; [|discriminate].
    exfalso. rewrite ids_eq in ND. inversion ND as [|? ? Hn _]; subst.
    apply Hn. rewrite E.
    eapply nth_error_flat_map_incl; eauto.
    eapply subtree_at_id_in; eauto.
  - simpl in Ha.
    destruct (nth_error (kids n) i) as [c|] eqn:N; [|discriminate].
    rewrite ids_eq in ND. inversion ND as [|? ? Hn ND']; subst.
    destruct p' as [|j p']; simpl in Hb.
    + injection Hb as <-. exfalso. apply Hn. rewrite <- E.
      eapply nth_error_flat_map_incl; eauto.
      eapply subtree_at_id_in; eauto.
    + destruct (nth_error (kids n) j) as [c'|] eqn:N'; [|discriminate].
      destruct (Nat.eq_dec i j) as [->|Hij].
      * assert (c' = c) by congruence. subst c'.
        f_equal. eapply IH; eauto. eapply NoDup_flat_map_nth; eauto.
      * exfalso.
        eapply (NoDup_flat_map_disjoint ids _ ND' i j c c' (id a)); eauto.
        -- eapply subtree_at_id_in; eauto.
        -- rewrite E. eapply subtree_at_id_in; eauto.
Qed.

(** The index [insertNode] computes is the requested one clamped. *)
Lemma safeIndex_clamp (index : Z) (len : nat) :
  safeIndex index len = clamp index len.
Proof.
  unfold safeIndex, clamp.
  destruct (index <? 0)%Z eqn:A; [apply Z.ltb_lt in A; lia|].
  apply Z.ltb_ge in A.
  destruct (Z.of_nat len <? index)%Z eqn:B;
    [apply Z.ltb_lt in B | apply Z.ltb_ge in B]; lia.
Qed.

Lemma clamp_cases (index : Z) (len : nat) :
  ((index < 0)%Z -> clamp index len = 0)
  /\ ((0 <= index <= Z.of_nat len)%Z -> Z.of_nat (clamp index len) = index)
  /\ ((Z.of_nat len < index)%Z -> clamp index len = len)
  /\ clamp index len <= len.
Proof.
  unfold clamp.
  destruct (index <? 0)%Z eqn:A;
    [apply Z.ltb_lt in A | apply Z.ltb_ge in A];
    [repeat split; lia|].
  destruct (Z.of_nat len <? index)%Z eqn:B;
    [apply Z.ltb_lt in B | apply Z.ltb_ge in B]; repeat split; lia.
Qed.

(** In a tree with unique ids, a move of a node found below the root
    onto a node found outside the dragged subtree takes place, and lands
    at the clamped index. *)
Lemma moveComponentTo_at (dragId targetId : string) (index : Z)
  (state : EditorState) (p q : list nat) (dragged target : ComponentSchema) :
  NoDup (ids (root state)) -> dragId <> "root" -> dragId <> targetId ->
  p <> [] -> subtree_at p (root state) = Some dragged -> id dragged = dragId ->
  subtree_at q (delete_at p (root state)) = Some target ->
  id target = targetId ->
  moveComponentTo dragId targetId index state
  = mkState
      (attach q (clamp index (List.length (kids target))) dragged
         (delete_at p (root state)))
      (selectedId state) (storeData state).
Proof.
  intros ND Hr Ht Hp Sp Ix Sq It. unfold moveComponentTo.
  rewrite (proj2 (String.eqb_neq _ _) Hr), (proj2 (String.eqb_neq _ _) Ht).
  destruct (removeNode dragId (root state)) as [[x r1]|] eqn:R.
  2:{ exfalso. exact (removeNode_finds _ _ p dragged Hp Sp Ix R). }
  destruct (removeNode_spec _ _ _ _ R) as [p' [Hp' [Sp' [Ix' ->]]]].
  assert (p' = p) by (eapply unique_path; eauto; congruence). subst p'.
  assert (x = dragged) by congruence. subst x.
  destruct (insertNode targetId index dragged (delete_at p (root state)))
    as [r2|] eqn:I.
  2:{ exfalso. exact (insertNode_finds _ _ _ _ q target Sq It I). }
  destruct (insertNode_spec _ _ _ _ _ I) as [q' [tgt' [Sq' [It' ->]]]].
  assert (NDd : NoDup (ids (delete_at p (root state)))).
  { pose proof (ids_delete_at p _ _ Hp Sp) as P.
    eapply NoDup_app_remove_l. eapply Permutation_NoDup; eauto. }
  assert (q' = q) by (eapply unique_path; eauto; congruence). subst q'.
  assert (tgt' = target) by congruence. subst tgt'.
  rewrite safeIndex_clamp. reflexivity.
Qed.

(** C1.  [moveComponentTo] either returns the state it was given, or
    returns the tree in which the subtree whose root has the dragged id has
    left its place and sits, unchanged, as child number [k] of a node with
    the target id, between the children that node had before and after
    position [k]; [k] is the requested index when that lies between 0 and
    the number of children the node has once the dragged subtree is gone,
    0 when it is negative and that number when it is larger.  The ids of
    the tree are then the same as before, each as often as before, so
    nothing is lost and nothing is doubled.  The state is returned as it
    was when the dragged id is ['root'], when it is the target id, when no
    node has it, and, in a tree with unique ids, when the target lies
    inside the dragged subtree.  In a tree with unique ids every other
    move takes place: a node found below the root is moved onto a target
    found outside its subtree. *)
Theorem moveComponentTo_moves_or_leaves :
  forall (dragId targetId : string) (index : Z) (state : EditorState),
    let state' := moveComponentTo dragId targetId index state in
    (state' = state
     \/ exists p q dragged target k,
          p <> []
          /\ subtree_at p (root state) = Some dragged
          /\ id dragged = dragId
          /\ subtree_at q (delete_at p (root state)) = Some target
          /\ id target = targetId
          /\ ((index < 0)%Z -> k = 0)
          /\ ((0 <= index <= Z.of_nat (List.length (kids target)))%Z ->
              Z.of_nat k = index)
          /\ ((Z.of_nat (List.length (kids target)) < index)%Z ->
              k = List.length (kids target))
          /\ k <= List.length (kids target)
          /\ root state' = attach q k dragged (delete_at p (root state))
          /\ subtree_at q (root state')
             = Some (set_children target
                       (Some (firstn k (kids target)
                              ++ dragged :: skipn k (kids target))))
          /\ subtree_at (q ++ [k]) (root state') = Some dragged
          /\ Permutation (ids (root state')) (ids (root state))
          /\ selectedId state' = selectedId state
          /\ storeData state' = storeData state)
    /\ (dragId = "root" -> state' = state)
    /\ (dragId = targetId -> state' = state)
    /\ (~ In dragId (ids (root state)) -> state' = state)
    /\ (NoDup (ids (root state)) ->
        forall p dragged,
          subtree_at p (root state) = Some dragged -> id dragged = dragId ->
          In targetId (ids dragged) ->
          state' = state)
    /\ (NoDup (ids (root state)) -> dragId <> "root" -> dragId <> targetId ->
        forall p q dragged target,
          p <> [] ->
          subtree_at p (root state) = Some dragged -> id dragged = dragId ->
          subtree_at q (delete_at p (root state)) = Some target ->
          id target = targetId ->
          state'
          = mkState
              (attach q (clamp index (List.length (kids target))) dragged
                 (delete_at p (root state)))
              (selectedId state) (storeData state)).
Proof.
  intros dragId targetId index state state'.
  assert (Main :
    state' = state
    \/ exists p q dragged target,
         p <> []
         /\ subtree_at p (root state) = Some dragged
         /\ id dragged = dragId
         /\ subtree_at q (delete_at p (root state)) = Some target
         /\ id target = targetId
         /\ state' = mkState
                       (attach q (clamp index (List.length (kids target)))
                          dragged (delete_at p (root state)))
                       (selectedId state) (storeData state)).
  { subst state'. unfold moveComponentTo.
    destruct (String.eqb dragId "root"); [left; reflexivity|].
    destruct (String.eqb dragId targetId); [left; reflexivity|].
    destruct (removeNode dragId (root state)) as [[x r1]|] eqn:R;
      [|left; reflexivity].
    destruct (insertNode targetId index x r1) as [r2|] eqn:I;
      [|left; reflexivity].
    destruct (removeNode_spec _ _ _ _ R) as [p [Hp [Sp [Ix ->]]]].
    destruct (insertNode_spec _ _ _ _ _ I) as [q [tgt [Sq [It ->]]]].
    right. exists p, q, x, tgt. rewrite safeIndex_clamp.
    repeat split; auto. }
  split; [|split; [|split; [|split; [|split]]]].
  - destruct Main as [E | [p [q [x [tgt [Hp [Sp [Ix [Sq [It E]]]]]]]]]];
      [left; exact E | right].
    destruct (clamp_cases index (List.length (kids tgt)))
      as [Neg [Mid [Big Le]]].
    exists p, q, x, tgt, (clamp index (List.length (kids tgt))).
    rewrite E. simpl.
    repeat split; auto.
    + unfold attach. rewrite (subtree_at_update_at _ _ _ _ Sq). reflexivity.
    + eapply subtree_at_attach; eauto.
    + rewrite (ids_attach _ _ _ _ _ Sq). symmetry.
      apply ids_delete_at; auto.
  - intros ->. reflexivity.
  - intros E. subst state'. unfold moveComponentTo.
    rewrite E, String.eqb_refl. destruct (String.eqb targetId "root"); auto.
  - intros Hn.
    destruct Main as [E | [p [q [x [tgt [Hp [Sp [Ix _]]]]]]]]; [exact E|].
    exfalso. apply Hn. rewrite <- Ix. eapply subtree_at_id_in; eauto.
  - intros ND p0 dragged S0 I0 Hin.
    destruct Main as [E | [p [q [x [tgt [Hp [Sp [Ix [Sq [It _]]]]]]]]]];
      [exact E|].
    exfalso.
    assert (x = dragged)
      by (eapply unique_subtree; eauto; congruence).
    subst x.
    pose proof (ids_delete_at p _ _ Hp Sp) as P.
    eapply (NoDup_app_disjoint (ids dragged) (ids (delete_at p (root state)))
              targetId).
    + eapply Permutation_NoDup; eauto.
    + exact Hin.
    + rewrite <- It. eapply subtree_at_id_in; eauto.
  - intros ND Hr Ht p q dragged target Hp Sp Ix Sq It.
    apply moveComponentTo_at; assumption.
Qed.

Lemma moveComponentTo_moves_or_leaves_witness :
  let a := mkComponent "a" button None [] None None None in
  let b := mkComponent "b" button None [] None None None in
  let c := mkComponent "c" button None [] None None None in
  let page_of cs := mkComponent "root" page None [] None None (Some cs) in
  let state := mkState (page_of [a; b; c]) None [] in
  (* to index 1, between [a] and [b] *)
  moveComponentTo "c" "root" 1 state = mkState (page_of [a; c; b]) None []
  (* an index past the end is the end *)
  /\ moveComponentTo "a" "root" 7 state = mkState (page_of [b; c; a]) None []
  (* a negative index is the front *)
  /\ moveComponentTo "c" "root" (-3) state
     = mkState (page_of [c; a; b]) None [].
Proof.
  intros a b c page_of state.
  assert (ND : NoDup (ids (root state)))
    by (repeat constructor; simpl; intuition discriminate).
  split; [|split].
  - destruct (moveComponentTo_moves_or_leaves "c" "root" 1 state)
      as [_ [_ [_ [_ [_ H]]]]].
    rewrite (H ND ltac:(discriminate) ltac:(discriminate)
               [2] [] c (page_of [a; b]) ltac:(discriminate)
               eq_refl eq_refl eq_refl eq_refl).
    reflexivity.
  - destruct (moveComponentTo_moves_or_leaves "a" "root" 7 state)
      as [_ [_ [_ [_ [_ H]]]]].
    rewrite (H ND ltac:(discriminate) ltac:(discriminate)
               [0] [] a (page_of [b; c]) ltac:(discriminate)
               eq_refl eq_refl eq_refl eq_refl).
    reflexivity.
  - destruct (moveComponentTo_moves_or_leaves "c" "root" (-3) state)
      as [_ [_ [_ [_ [_ H]]]]].
    rewrite (H ND ltac:(discriminate) ltac:(discriminate)
               [2] [] c (page_of [a; b]) ltac:(discriminate)
               eq_refl eq_refl eq_refl eq_refl).
    reflexivity.
Defined.

Lemma unique_id_kind (r a : ComponentSchema) (p : list nat) :
  NoDup (ids r) -> subtree_at p r = Some a ->
  is_leaf_kind (type a) = false ->
  forall q x, subtree_at q r = Some x -> id x = id a ->
              is_leaf_kind (type x) = false.
Proof.
  intros ND S K q x Sx I.
  assert (x = a) by (eapply unique_subtree; eauto). subst x. exact K.
Qed.

Lemma findParent_kind (r parent : ComponentSchema) (t : string) :
  leaf_shaped r = true -> findParent r t = Some parent ->
  exists p, subtree_at p r = Some parent
            /\ is_leaf_kind (type parent) = false.
Proof.
  intros L F.
  destruct (findParent_has_child _ _ _ F) as [p [i [c [S [N _]]]]].
  exists p. split; [exact S|].
  eapply leaf_shaped_parent.
  - eapply leaf_shaped_subtree; eauto.
  - eapply kids_children; eauto.
Qed.

(** Every drop is no change or one [moveComponentTo], onto a node that
    is not of a leaf kind. *)
Lemma handleDragEnd_is_one_move (activeId : string) (over : option string)
  (state : EditorState) :
  leaf_shaped (root state) = true ->
  id (root state) = "root" -> is_leaf_kind (type (root state)) = false ->
  handleDragEnd activeId over state = state
  \/ exists index p target,
       subtree_at p (root state) = Some target
       /\ is_leaf_kind (type target) = false
       /\ handleDragEnd activeId over state
          = moveComponentTo activeId (id target) index state.
Proof.
  intros L I T.
  assert (Beside : forall t op index,
             findParent (root state) t = Some op ->
             moveComponentTo activeId (id op) index state = state
             \/ exists index' p target,
                  subtree_at p (root state) = Some target
                  /\ is_leaf_kind (type target) = false
                  /\ moveComponentTo activeId (id op) index state
                     = moveComponentTo activeId (id target) index' state).
  { intros t op index F.
    destruct (findParent_kind _ _ _ L F) as [p [S K]].
    right. exists index, p, op. auto. }
  unfold handleDragEnd.
  destruct over as [overId|]; [|left; reflexivity].
  destruct (String.eqb activeId overId); [left; reflexivity|].
  set (cross :=
         if String.eqb overId "root"
         then moveComponentTo activeId "root" (child_count (root state)) state
         else _).
  assert (Cross :
            cross = state
            \/ exists index p target,
                 subtree_at p (root state) = Some target
                 /\ is_leaf_kind (type target) = false
                 /\ cross = moveComponentTo activeId (id target) index state).
  { subst cross. destruct (String.eqb overId "root").
    { right. exists (child_count (root state)), [], (root state).
      rewrite I. auto. }
    assert (Drop :
      let s' :=
        match findParent (root state) overId with
        | Some op =>
            match findIndex_of overId op with
            | Some index =>
                if (index =? -1)%Z then state
                else moveComponentTo activeId (id op) index state
            | None => state
            end
        | None => state
        end in
      s' = state
      \/ exists index p target,
           subtree_at p (root state) = Some target
           /\ is_leaf_kind (type target) = false
           /\ s' = moveComponentTo activeId (id target) index state).
    { cbv zeta. destruct (findParent (root state) overId) as [op|] eqn:F;
        [|left; reflexivity].
      destruct (findIndex_of overId op) as [index|]; [|left; reflexivity].
      destruct (index =? -1)%Z; [left; reflexivity|].
      exact (Beside overId op index F). }
    destruct (getComponentById overId state) as [oc|] eqn:G; [|exact Drop].
    destruct (is_container_kind (type oc)) eqn:K; [|exact Drop].
    unfold getComponentById in G.
    pose proof (path_to_findNode overId (root state)) as PF.
    destruct (path_to overId (root state)) as [p|]; [|congruence].
    destruct PF as [x [S [Ix Fx]]].
    assert (x = oc) by congruence. subst x.
    right. exists (child_count oc), p, oc. rewrite Ix.
    rewrite is_container_kind_not_leaf in K.
    apply negb_true_iff in K. auto. }
  destruct (findParent (root state) activeId) as [ap|] eqn:Fa;
    [|exact Cross].
  destruct (findParent (root state) overId) as [op|] eqn:Fo;
    [|exact Cross].
  destruct (String.eqb (id ap) (id op)); [|exact Cross].
  destruct (findIndex_of activeId ap); [|left; reflexivity].
  destruct (findIndex_of overId op) as [newIndex|]; [|left; reflexivity].
  exact (Beside activeId ap newIndex Fa).
Qed.

Lemma moveComponentTo_frame (dragId targetId : string) (index : Z)
  (state : EditorState) :
  selectedId (moveComponentTo dragId targetId index state) = selectedId state
  /\ storeData (moveComponentTo dragId targetId index state)
     = storeData state.
Proof.
  destruct (moveComponentTo_cases dragId targetId index state)
    as [E | [? [? [? [? [? [_ [_ [_ [_ E]]]]]]]]]]; rewrite E; auto.
Qed.

(** ** Where a drop lands *)

Lemma splice_out_length {A : Type} (l : list A) (j : nat) :
  List.length (splice_out l j) <= List.length l
  /\ List.length l <= S (List.length (splice_out l j)).
Proof.
  unfold splice_out.
  rewrite length_app, length_firstn, length_skipn. lia.
Qed.

Lemma nth_error_splice_out_before {A : Type} (l : list A) (i j : nat) :
  i < j -> nth_error (splice_out l j) i = nth_error l i.
Proof.
  unfold splice_out. revert i j. induction l as [|a l IH]; intros i j H.
  - destruct j; destruct i; reflexivity.
  - destruct j as [|j]; [lia|]. destruct i as [|i]; simpl; [reflexivity|].
    apply IH. lia.
Qed.

Lemma nth_error_splice_out_after {A : Type} (l : list A) (i j : nat) :
  j <= i -> nth_error (splice_out l j) i = nth_error l (S i).
Proof.
  unfold splice_out. revert i j. induction l as [|a l IH]; intros i j H.
  - destruct j; destruct i; reflexivity.
  - destruct j as [|j]; simpl; [reflexivity|].
    destruct i as [|i]; [lia|]. simpl. apply IH. lia.
Qed.

Lemma length_set_nth {A : Type} (l : list A) (i : nat) (x : A) :
  List.length (set_nth l i x) = List.length l.
Proof.
  revert i. induction l as [|a l IH]; intros [|i]; simpl; auto.
Qed.

Lemma splice_in_end {A : Type} (l : list A) (x : A) :
  splice_in l (List.length l) x = l ++ [x].
Proof. unfold splice_in. rewrite firstn_all, skipn_all. reflexivity. Qed.

(** A node outside the detached subtree is still in the tree, with its
    id and with all of its children but, at most, the detached one. *)
Lemma delete_at_forward (p : list nat) :
  forall q n x m,
    p <> [] -> subtree_at p n = Some x -> subtree_at q n = Some m ->
    ~ In (id m) (ids x) ->
    exists q' m',
      subtree_at q' (delete_at p n) = Some m' /\ id m' = id m
      /\ List.length (kids m') <= List.length (kids m)
      /\ List.length (kids m) <= S (List.length (kids m')).
Proof.
  induction p as [|j p IH]; intros q n x m Hp Sp Sq Hn; [congruence|].
  simpl in Sp.
  destruct (nth_error (kids n) j) as [cj|] eqn:Nj; [|discriminate].
  pose proof (kids_children _ _ _ Nj) as C.
  destruct q as [|i q].
  - simpl in Sq. injection Sq as <-.
    exists [], (delete_at (j :: p) n).
    split; [reflexivity|]. split; [apply delete_at_id_type|].
    destruct p as [|j' p'].
    + cbn [delete_at]. rewrite C, kids_set_children.
      apply splice_out_length.
    + rewrite delete_at_cons by discriminate. rewrite Nj.
      rewrite kids_set_children, length_set_nth. lia.
  - simpl in Sq.
    destruct (nth_error (kids n) i) as [ci|] eqn:Ni; [|discriminate].
    destruct p as [|j' p'].
    + simpl in Sp. injection Sp as <-.
      cbn [delete_at]. rewrite C.
      destruct (Nat.lt_trichotomy i j) as [Lt|[Eq|Gt]].
      * exists (i :: q), m. cbn [subtree_at].
        rewrite kids_set_children, nth_error_splice_out_before by exact Lt.
        rewrite Ni. repeat split; auto.
      * subst i. exfalso. apply Hn.
        assert (ci = cj) by congruence. subst ci.
        eapply subtree_at_id_in; eauto.
      * destruct i as [|i]; [lia|].
        exists (i :: q), m. cbn [subtree_at].
        rewrite kids_set_children, nth_error_splice_out_after by lia.
        rewrite Ni. repeat split; auto.
    + rewrite delete_at_cons by discriminate. rewrite Nj.
      destruct (Nat.eq_dec i j) as [->|Hij].
      * assert (ci = cj) by congruence. subst ci.
        destruct (IH q cj x m) as [q' [m' [S' [I' [L1 L2]]]]]; auto;
          [discriminate|].
        exists (j :: q'), m'. cbn [subtree_at].
        rewrite kids_set_children, (nth_error_set_nth_eq _ _ _ _ Nj).
        auto.
      * exists (i :: q), m. cbn [subtree_at].
        rewrite kids_set_children, nth_error_set_nth_ne by auto.
        rewrite Ni. repeat split; auto.
Qed.

Lemma delete_at_kids_length (p : list nat) (n : ComponentSchema) :
  List.length (kids (delete_at p n)) <= List.length (kids n).
Proof.
  destruct p as [|j [|j' p']]; cbn [delete_at].
  - lia.
  - destruct (children n) as [cs|] eqn:C; [|lia].
    rewrite kids_set_children, (children_kids _ _ C).
    apply splice_out_length.
  - destruct (nth_error (kids n) j); [|lia].
    rewrite kids_set_children, length_set_nth. lia.
Qed.

Lemma NoDup_subtree (p : list nat) :
  forall n x, NoDup (ids n) -> subtree_at p n = Some x -> NoDup (ids x).
Proof.
  induction p as [|i p IH]; intros n x ND S; simpl in S.
  - congruence.
  - destruct (nth_error (kids n) i) as [c|] eqn:N; [|discriminate].
    apply (IH c x); [|exact S].
    rewrite ids_eq in ND. inversion ND; subst.
    eapply NoDup_flat_map_nth; eauto.
Qed.

(** In a tree with unique ids, the search for an id ends where the id
    is. *)
Lemma path_to_unique (t : string) (n x : ComponentSchema) (p : list nat) :
  NoDup (ids n) -> subtree_at p n = Some x -> id x = t ->
  path_to t n = Some p.
Proof.
  intros ND S I.
  destruct (path_to t n) as [p0|] eqn:P.
  - destruct (path_to_valid _ _ _ P) as [x0 [S0 [I0 _]]].
    f_equal. eapply unique_path; eauto. congruence.
  - exfalso. apply (path_to_None_not_in _ _ P).
    rewrite <- I. eapply subtree_at_id_in; eauto.
Qed.

Lemma findIndex_at (d : string) (cs : list ComponentSchema) (i : nat)
  (c : ComponentSchema) :
  NoDup (flat_map ids cs) -> nth_error cs i = Some c -> id c = d ->
  findIndex d cs = Some i.
Proof.
  revert i. induction cs as [|c0 cs IH]; intros i ND N I.
  - destruct i; discriminate.
  - destruct i as [|i]; simpl in N |- *.
    + injection N as ->. rewrite (proj2 (String.eqb_eq _ _) I). reflexivity.
    + destruct (String.eqb (id c0) d) eqn:E.
      * exfalso. apply String.eqb_eq in E.
        apply (NoDup_flat_map_disjoint ids (c0 :: cs) ND 0 (S i) c0 c d);
          auto.
        -- rewrite <- E, ids_eq. left. reflexivity.
        -- rewrite <- I, ids_eq. left. reflexivity.
      * rewrite (IH i); auto.
        simpl in ND. eapply NoDup_app_remove_l; eauto.
Qed.

Lemma NoDup_kids (n : ComponentSchema) :
  NoDup (ids n) -> NoDup (flat_map ids (kids n)).
Proof. rewrite ids_eq. intros ND. inversion ND; assumption. Qed.

(** In a tree with unique ids, [findParent] returns the node that has
    the child. *)
Lemma findParent_at (r parent c : ComponentSchema) (q : list nat) (i : nat) :
  NoDup (ids r) -> subtree_at q r = Some parent ->
  nth_error (kids parent) i = Some c ->
  findParent r (id c) = Some parent.
Proof.
  intros ND S N.
  assert (Sc : subtree_at (q ++ [i]) r = Some c).
  { rewrite subtree_at_app, S. simpl. rewrite N. reflexivity. }
  assert (Hr : id r <> id c).
  { intros E.
    assert (X : [] = q ++ [i])
      by (eapply (unique_path [] (q ++ [i]) r r c); eauto).
    destruct q; discriminate. }
  rewrite findParent_path by exact Hr.
  rewrite (path_to_unique (id c) r c (q ++ [i]) ND Sc eq_refl).
  rewrite removelast_last. exact S.
Qed.

Lemma findParent_of_root (r : ComponentSchema) :
  NoDup (ids r) -> findParent r (id r) = None.
Proof.
  intros ND. destruct (findParent r (id r)) as [parent|] eqn:F; [|reflexivity].
  exfalso.
  destruct (findParent_has_child _ _ _ F) as [p [i [c [S [N I]]]]].
  assert (Sc : subtree_at (p ++ [i]) r = Some c).
  { rewrite subtree_at_app, S. simpl. rewrite N. reflexivity. }
  assert (X : [] = p ++ [i])
    by (eapply (unique_path [] (p ++ [i]) r r c); eauto).
  destruct p; discriminate.
Qed.

Lemma clamp_inside (i len : nat) : i <= len -> clamp (Z.of_nat i) len = i.
Proof.
  intros H. destruct (clamp_cases (Z.of_nat i) len) as [_ [Mid _]]. lia.
Qed.

Lemma clamp_beyond (n len : nat) : len <= n -> clamp (Z.of_nat n) len = len.
Proof.
  intros H. destruct (clamp_cases (Z.of_nat n) len) as [_ [Mid [Big _]]].
  lia.
Qed.

(** In a well-formed tree, a move of a node found below the root onto a
    node outside its subtree takes place: the target keeps its id and
    receives the node at the clamped index. *)
Lemma moveComponentTo_lands (dragId targetId : string) (index : Z)
  (state : EditorState) (pa qt : list nat) (dragged target : ComponentSchema) :
  NoDup (ids (root state)) -> id (root state) = "root" ->
  pa <> [] -> subtree_at pa (root state) = Some dragged ->
  id dragged = dragId ->
  subtree_at qt (root state) = Some target -> id target = targetId ->
  ~ In targetId (ids dragged) ->
  exists q' m',
    List.length (kids m') <= List.length (kids target)
    /\ List.length (kids target) <= S (List.length (kids m'))
    /\ id m' = targetId
    /\ subtree_at q' (root (moveComponentTo dragId targetId index state))
       = Some (insert_child (clamp index (List.length (kids m'))) dragged m').
Proof.
  intros ND Ir Hp Sp Ix St It Hn.
  assert (Hr : dragId <> "root").
  { intros E.
    assert (X : [] = pa)
      by (eapply (unique_path [] pa (root state) (root state) dragged);
          eauto; congruence).
    congruence. }
  assert (Ht : dragId <> targetId).
  { intros E. apply Hn. rewrite <- E, <- Ix, ids_eq. left. reflexivity. }
  destruct (delete_at_forward pa qt (root state) dragged target Hp Sp St)
    as [q' [m' [S' [I' [L1 L2]]]]]; [congruence|].
  exists q', m'.
  rewrite (moveComponentTo_at dragId targetId index state pa q' dragged m');
    auto; [|congruence].
  repeat split; auto; [congruence|].
  simpl. unfold attach. apply subtree_at_update_at. exact S'.
Qed.

Section Drop.

Variables (activeId overId : string) (state : EditorState).
Variables (pa qo : list nat) (i : nat).
Variables (dragged parent overNode : ComponentSchema).

Hypothesis OK : editor_tree_ok (root state).
Hypothesis distinct : activeId <> overId.
Hypothesis below : pa <> [].
Hypothesis at_pa : subtree_at pa (root state) = Some dragged.
Hypothesis id_dragged : id dragged = activeId.
Hypothesis at_qo : subtree_at qo (root state) = Some parent.
Hypothesis at_i : nth_error (kids parent) i = Some overNode.
Hypothesis id_over : id overNode = overId.

Lemma drop_activeParent :
  exists ap,
    subtree_at (removelast pa) (root state) = Some ap
    /\ findParent (root state) activeId = Some ap
    /\ exists l, findIndex_of activeId ap = Some l.
Proof.
  destruct OK as [ND _].
  destruct (exists_last below) as [p0 [j E]].
  rewrite E in at_pa |- *. rewrite removelast_last.
  destruct (subtree_at_prefix _ _ _ _ at_pa) as [ap Sa].
  rewrite subtree_at_app, Sa in at_pa. simpl in at_pa.
  destruct (nth_error (kids ap) j) as [c|] eqn:N; [|discriminate].
  injection at_pa as ->.
  exists ap. split; [exact Sa|]. split.
  - rewrite <- id_dragged. eapply findParent_at; eauto.
  - unfold findIndex_of. rewrite (kids_children _ _ _ N). eauto.
Qed.

Lemma drop_overParent :
  findParent (root state) overId = Some parent
  /\ findIndex_of overId parent = Some (Z.of_nat i)
  /\ getComponentById overId state = Some overNode
  /\ overId <> "root".
Proof.
  destruct OK as [ND [_ [Ir _]]].
  assert (So : subtree_at (qo ++ [i]) (root state) = Some overNode).
  { rewrite subtree_at_app, at_qo. simpl. rewrite at_i. reflexivity. }
  split; [|split; [|split]].
  - rewrite <- id_over. eapply findParent_at; eauto.
  - unfold findIndex_of. rewrite (kids_children _ _ _ at_i).
    rewrite (findIndex_at overId (kids parent) i overNode); auto.
    apply NoDup_kids. eapply NoDup_subtree; eauto.
  - unfold getComponentById. eapply in_ids_findNode; eauto.
  - intros E.
    assert (X : [] = qo ++ [i])
      by (eapply (unique_path [] (qo ++ [i]) (root state) (root state)
                    overNode); eauto; congruence).
    destruct qo; discriminate.
Qed.

(** A drop onto a sibling, or onto a leaf: one move to the place of
    the node dropped onto. *)
Lemma handleDragEnd_beside :
  is_leaf_kind (type overNode) = true \/ removelast pa = qo ->
  handleDragEnd activeId (Some overId) state
  = moveComponentTo activeId (id parent) (Z.of_nat i) state.
Proof.
  intros Why.
  destruct drop_activeParent as [ap [Sa [Fa [l Ia]]]].
  destruct drop_overParent as [Fo [Io [G Hroot]]].
  destruct OK as [ND _].
  unfold handleDragEnd.
  rewrite (proj2 (String.eqb_neq _ _) distinct), Fa, Fo.
  destruct (String.eqb (id ap) (id parent)) eqn:E.
  - apply String.eqb_eq in E. rewrite Ia, Io, E. reflexivity.
  - destruct Why as [Leaf | Sib].
    + rewrite (proj2 (String.eqb_neq _ _) Hroot), G.
      rewrite is_container_kind_not_leaf, Leaf. cbn [negb].
      rewrite Io.
      replace (Z.of_nat i =? -1)%Z with false
        by (symmetry; apply Z.eqb_neq; lia).
      reflexivity.
    + exfalso. rewrite Sib in Sa. apply String.eqb_neq in E.
      apply E. congruence.
Qed.

(** A drop onto a container that is no sibling: one move to its end. *)
Lemma handleDragEnd_inside :
  is_leaf_kind (type overNode) = false -> removelast pa <> qo ->
  handleDragEnd activeId (Some overId) state
  = moveComponentTo activeId overId (child_count overNode) state.
Proof.
  intros Kind Other.
  destruct drop_activeParent as [ap [Sa [Fa [l Ia]]]].
  destruct drop_overParent as [Fo [Io [G Hroot]]].
  destruct OK as [ND _].
  unfold handleDragEnd.
  rewrite (proj2 (String.eqb_neq _ _) distinct), Fa, Fo.
  destruct (String.eqb (id ap) (id parent)) eqn:E.
  - exfalso. apply String.eqb_eq in E. apply Other.
    eapply unique_path; eauto.
  - rewrite (proj2 (String.eqb_neq _ _) Hroot), G.
    rewrite is_container_kind_not_leaf, Kind. reflexivity.
Qed.

End Drop.

(** A drop onto the root: one move to its end. *)
Lemma handleDragEnd_root (activeId : string) (state : EditorState) :
  editor_tree_ok (root state) -> activeId <> "root" ->
  handleDragEnd activeId (Some "root") state
  = moveComponentTo activeId "root" (child_count (root state)) state.
Proof.
  intros [ND [_ [Ir _]]] Hr. unfold handleDragEnd.
  rewrite (proj2 (String.eqb_neq _ _) Hr).
  pose proof (findParent_of_root _ ND) as F. rewrite Ir in F. rewrite F.
  destruct (findParent (root state) activeId); reflexivity.
Qed.

(** X16.  [handleDragEnd] keeps the tree in shape: from a tree with
    unique ids, childless leaves and a container root named ['root'], any
    drop ends in such a tree with the same ids, the same selection and the
    same data.  A component dropped onto a leaf, or onto one of its own
    siblings, takes the index that node had in its parent's list; dropped
    onto a container that is no sibling, or onto the root, it becomes the
    last child there.  (The drop changes nothing when the node dropped onto
    lies inside the dragged component.) *)
Theorem handleDragEnd_keeps_the_tree_ok :
  forall (activeId : string) (over : option string) (state : EditorState),
    editor_tree_ok (root state) ->
    let state' := handleDragEnd activeId over state in
    editor_tree_ok (root state')
    /\ Permutation (ids (root state')) (ids (root state))
    /\ selectedId state' = selectedId state
    /\ storeData state' = storeData state
    /\ (forall overId pa qo i dragged parent overNode,
           over = Some overId -> activeId <> overId ->
           pa <> [] -> subtree_at pa (root state) = Some dragged ->
           id dragged = activeId ->
           subtree_at qo (root state) = Some parent ->
           nth_error (kids parent) i = Some overNode ->
           id overNode = overId ->
           (* beside a leaf or a sibling *)
           (is_leaf_kind (type overNode) = true \/ removelast pa = qo ->
            ~ In (id parent) (ids dragged) ->
            exists q' parent',
              subtree_at q' (root state') = Some parent'
              /\ id parent' = id parent
              /\ nth_error (kids parent') i = Some dragged)
           (* into a container *)
           /\ (is_leaf_kind (type overNode) = false ->
               removelast pa <> qo ->
               ~ In overId (ids dragged) ->
               exists q' over' rest,
                 subtree_at q' (root state') = Some over'
                 /\ id over' = overId
                 /\ kids over' = rest ++ [dragged]))
    /\ (forall pa dragged,
           over = Some "root" ->
           pa <> [] -> subtree_at pa (root state) = Some dragged ->
           id dragged = activeId ->
           exists rest, kids (root state') = rest ++ [dragged]).
Proof.
  intros activeId over state OK state'. subst state'.
  pose proof OK as [ND [L [I T]]].
  assert (Shape :
    editor_tree_ok (root (handleDragEnd activeId over state))
    /\ Permutation (ids (root (handleDragEnd activeId over state)))
         (ids (root state))
    /\ selectedId (handleDragEnd activeId over state) = selectedId state
    /\ storeData (handleDragEnd activeId over state) = storeData state).
  { destruct (handleDragEnd_is_one_move activeId over state L I T)
      as [E | [index [p [target [S [K E]]]]]]; rewrite E.
    { repeat split; auto. }
    destruct (moveComponentTo_keeps_ok activeId (id target) index state OK)
      as [OK' Perm].
    { intros q x Sx Ix.
      exact (unique_id_kind (root state) target p ND S K q x Sx Ix). }
    destruct (moveComponentTo_frame activeId (id target) index state)
      as [Sel Data].
    auto. }
  destruct Shape as [S1 [S2 [S3 S4]]].
  split; [exact S1|]. split; [exact S2|]. split; [exact S3|].
  split; [exact S4|]. split.
  - intros overId pa qo i dragged parent overNode -> Hd Hp Sp Ix Sq Ni Io.
    assert (Li : i < List.length (kids parent))
      by (apply nth_error_Some; congruence).
    split.
    + intros Why Hn.
      rewrite (handleDragEnd_beside activeId overId state pa qo i dragged
                 parent overNode OK Hd Hp Sp Ix Sq Ni Io Why).
      destruct (moveComponentTo_lands activeId (id parent) (Z.of_nat i)
                  state pa qo dragged parent ND I Hp Sp Ix Sq eq_refl Hn)
        as [q' [m' [L1 [L2 [Im Sm]]]]].
      exists q', (insert_child (clamp (Z.of_nat i) (List.length (kids m')))
                    dragged m').
      split; [exact Sm|]. split.
      * rewrite (proj1 (insert_child_id_type _ _ _)). exact Im.
      * unfold insert_child. rewrite kids_set_children.
        rewrite clamp_inside by lia.
        apply splice_in_nth_error. lia.
    + intros Kind Other Hn.
      rewrite (handleDragEnd_inside activeId overId state pa qo i dragged
                 parent overNode OK Hd Hp Sp Ix Sq Ni Io Kind Other).
      assert (So : subtree_at (qo ++ [i]) (root state) = Some overNode).
      { rewrite subtree_at_app, Sq. simpl. rewrite Ni. reflexivity. }
      destruct (moveComponentTo_lands activeId overId
                  (child_count overNode) state pa (qo ++ [i]) dragged
                  overNode ND I Hp Sp Ix So Io Hn)
        as [q' [m' [L1 [L2 [Im Sm]]]]].
      exists q', (insert_child
                    (clamp (child_count overNode) (List.length (kids m')))
                    dragged m'), (kids m').
      split; [exact Sm|]. split.
      * rewrite (proj1 (insert_child_id_type _ _ _)). exact Im.
      * unfold insert_child, child_count. rewrite kids_set_children.
        rewrite clamp_beyond by lia. apply splice_in_end.
  - intros pa dragged -> Hp Sp Ix.
    assert (Hr : activeId <> "root").
    { intros E.
      assert (X : [] = pa)
        by (eapply (unique_path [] pa (root state) (root state) dragged);
            eauto; congruence).
      congruence. }
    rewrite (handleDragEnd_root activeId state OK Hr).
    assert (Hn : ~ In "root" (ids dragged)).
    { intros Hin.
      pose proof (ids_delete_at pa _ _ Hp Sp) as P.
      apply (NoDup_app_disjoint (ids dragged)
               (ids (delete_at pa (root state))) "root").
      - eapply Permutation_NoDup; eauto.
      - exact Hin.
      - rewrite ids_eq. left.
        rewrite (proj1 (delete_at_id_type _ _)). exact I. }
    assert (Id : id (delete_at pa (root state)) = "root")
      by (rewrite (proj1 (delete_at_id_type _ _)); exact I).
    rewrite (moveComponentTo_at activeId "root" (child_count (root state))
               state pa [] dragged (delete_at pa (root state))
               ND Hr Hr Hp Sp Ix eq_refl Id).
    exists (kids (delete_at pa (root state))).
    cbn [root attach update_at]. unfold insert_child, child_count.
    rewrite kids_set_children.
    rewrite clamp_beyond by apply delete_at_kids_length.
    apply splice_in_end.
Qed.

Lemma handleDragEnd_keeps_the_tree_ok_witness :
  let leaf i := mkComponent i text None [] None None None in
  let box i cs := mkComponent i container None [] None None (Some cs) in
  let a := box "a" [leaf "c1"; leaf "c2"] in
  let d := box "d" [leaf "e"] in
  let state :=
    mkState (mkComponent "root" page None [] None None (Some [a; leaf "b"; d]))
      None [] in
  (* [b] dropped onto the leaf [c2], second child of [a] *)
  (exists q' parent',
      subtree_at q' (root (handleDragEnd "b" (Some "c2") state)) = Some parent'
      /\ id parent' = "a"
      /\ nth_error (kids parent') 1 = Some (leaf "b"))
  (* [c1] dropped onto the container [d] *)
  /\ (exists q' over' rest,
         subtree_at q' (root (handleDragEnd "c1" (Some "d") state))
         = Some over'
         /\ id over' = "d"
         /\ kids over' = rest ++ [leaf "c1"])
  (* [c1] dropped onto the root *)
  /\ (exists rest,
         kids (root (handleDragEnd "c1" (Some "root") state))
         = rest ++ [leaf "c1"]).
Proof.
  intros leaf box a d state.
  assert (OK : editor_tree_ok (root state)).
  { repeat split; try reflexivity.
    repeat constructor; simpl; intuition discriminate. }
  split; [|split].
  - destruct (handleDragEnd_keeps_the_tree_ok "b" (Some "c2") state OK)
      as [_ [_ [_ [_ [H _]]]]].
    destruct (H "c2" [1] [0] 1 (leaf "b") a (leaf "c2"))
      as [B _]; try reflexivity; try discriminate.
    apply B.
    + left. reflexivity.
    + simpl. intuition discriminate.
  - destruct (handleDragEnd_keeps_the_tree_ok "c1" (Some "d") state OK)
      as [_ [_ [_ [_ [H _]]]]].
    destruct (H "d" [0; 0] [] 2 (leaf "c1") (root state) d)
      as [_ B]; try reflexivity; try discriminate.
    apply B.
    + reflexivity.
    + discriminate.
    + simpl. intuition discriminate.
  - destruct (handleDragEnd_keeps_the_tree_ok "c1" (Some "root") state OK)
      as [_ [_ [_ [_ [_ H]]]]].
    apply (H [0; 0] (leaf "c1")); try reflexivity. discriminate.
Defined.

Lemma get_set_event (e : Events) (name : string) (l : list Action) :
  get_event (set_event e name l) name = Some l.
Proof.
  induction e as [|[n l'] e IH]; simpl.
  - rewrite String.eqb_refl. reflexivity.
  - destruct (String.eqb n name) eqn:E; simpl.
    + rewrite String.eqb_refl. reflexivity.
    + rewrite E. exact IH.
Qed.

Lemma get_set_event_other (e : Events) (name name' : string)
  (l : list Action) :
  name' <> name ->
  get_event (set_event e name l) name' = get_event e name'.
Proof.
  intros H. apply String.eqb_neq in H.
  induction e as [|[n l'] e IH]; simpl.
  - rewrite String.eqb_sym, H. reflexivity.
  - destruct (String.eqb n name) eqn:E; simpl.
    + apply String.eqb_eq in E. subst n.
      rewrite String.eqb_sym, H. reflexivity.
    + rewrite IH. reflexivity.
Qed.

Lemma currentActions_assign (sc : ComponentSchema) (name name' : string)
  (l : list Action) :
  currentActions (assign sc (events_update sc name l)) name'
  = if String.eqb name' name then l else currentActions sc name'.
Proof.
  unfold currentActions, assign, events_update. simpl.
  destruct (String.eqb name' name) eqn:E.
  - apply String.eqb_eq in E. subst name'. rewrite get_set_event.
    reflexivity.
  - apply String.eqb_neq in E. rewrite get_set_event_other by exact E.
    destruct (events sc); reflexivity.
Qed.

Lemma selectedComponent_found (state : EditorState) (sc : ComponentSchema) :
  selectedComponent state = Some sc ->
  exists sid,
    selectedId state = Some sid /\ String.eqb sid EmptyString = false
    /\ id sc = sid /\ findNode (root state) sid = Some sc.
Proof.
  unfold selectedComponent, getComponentById. intros H.
  destruct (selectedId state) as [sid|]; [|discriminate].
  destruct (String.eqb sid EmptyString) eqn:E; [discriminate|].
  exists sid. repeat split; auto.
  pose proof (path_to_findNode sid (root state)) as PF.
  destruct (path_to sid (root state)); [|congruence].
  destruct PF as [x [_ [I F]]]. congruence.
Qed.

(** An edit of the selected component's events: the component selected
    afterwards is the old one with the new events. *)
Lemma selectedComponent_after_events (state : EditorState)
  (sc : ComponentSchema) (name : string) (l : list Action) :
  selectedComponent state = Some sc ->
  selectedComponent (updateComponent (id sc) (events_update sc name l) state)
  = Some (assign sc (events_update sc name l)).
Proof.
  intros H.
  destruct (selectedComponent_found _ _ H) as [sid [S [E [I F]]]].
  subst sid. unfold selectedComponent.
  replace (selectedId
             (updateComponent (id sc) (events_update sc name l) state))
    with (selectedId state) by reflexivity.
  rewrite S, E. unfold getComponentById.
  rewrite findNode_updateComponent by reflexivity.
  rewrite F. reflexivity.
Qed.

Lemma filter_others (newId : string) (old : list Action) (a : Action) :
  (forall x, In x old -> action_id x <> newId) -> action_id a = newId ->
  filter (fun x => negb (String.eqb (action_id x) newId)) (old ++ [a]) = old.
Proof.
  intros H Ha. rewrite filter_app. simpl.
  rewrite Ha, String.eqb_refl. simpl. rewrite app_nil_r.
  induction old as [|x old IH]; simpl; auto.
  pose proof (H x (or_introl eq_refl)) as Hx.
  apply String.eqb_neq in Hx. rewrite Hx. simpl.
  rewrite IH; auto. intros y Hy. apply H. right. exact Hy.
Qed.

Lemma updateComponent_events_ids (t : string) (n : ComponentSchema)
  (name : string) (l : list Action) (state : EditorState) :
  ids (root (updateComponent t (events_update n name l) state))
  = ids (root state).
Proof.
  unfold updateComponent. simpl. rewrite modified_node.
  destruct (path_to t (root state)); [|reflexivity].
  apply ids_update_at_same. intros m.
  destruct m as [mi mty ml mpr ms me [mcs|]]; reflexivity.
Qed.

(** X17.  [handleAddAction] appends a new action, with the default
    config of its type, to the chosen event of the selected component and
    leaves its other events alone; [removeAction] with the id just
    generated -- an id no earlier action of that event has -- then gives
    every event of the component the action list it had before. *)
Theorem added_action_can_be_removed :
  forall (eventName : string) (ty : ActionType) (newId : string)
         (state : EditorState) (sc : ComponentSchema),
    selectedComponent state = Some sc ->
    (forall a, In a (currentActions sc eventName) -> action_id a <> newId) ->
    let added := handleAddAction eventName ty newId state in
    let removed := removeAction eventName newId added in
    (exists sc1,
        selectedComponent added = Some sc1
        /\ currentActions sc1 eventName
           = currentActions sc eventName
             ++ [mkAction newId ty (default_config ty)]
        /\ forall other, other <> eventName ->
                         currentActions sc1 other = currentActions sc other)
    /\ (exists sc2,
           selectedComponent removed = Some sc2
           /\ forall name, currentActions sc2 name = currentActions sc name)
    /\ ids (root removed) = ids (root state).
Proof.
  intros ev ty newId state sc Sel Fresh added removed.
  set (new := mkAction newId ty (default_config ty)).
  set (u1 := events_update sc ev (currentActions sc ev ++ [new])).
  assert (A : added = updateComponent (id sc) u1 state).
  { unfold added, handleAddAction. rewrite Sel. reflexivity. }
  assert (Sel1 : selectedComponent added = Some (assign sc u1)).
  { rewrite A. apply selectedComponent_after_events. exact Sel. }
  assert (C1 : forall name,
             currentActions (assign sc u1) name
             = if String.eqb name ev then currentActions sc ev ++ [new]
               else currentActions sc name)
    by (intros name; apply currentActions_assign).
  set (sc1 := assign sc u1) in *.
  set (u2 := events_update sc1 ev
               (filter (fun a => negb (String.eqb (action_id a) newId))
                  (currentActions sc1 ev))).
  assert (R : removed = updateComponent (id sc1) u2 added).
  { unfold removed, removeAction. rewrite Sel1. reflexivity. }
  split; [|split].
  - exists sc1. split; [exact Sel1|]. split.
    + rewrite C1, String.eqb_refl. reflexivity.
    + intros other H. rewrite C1. apply String.eqb_neq in H. rewrite H.
      reflexivity.
  - exists (assign sc1 u2). split.
    + rewrite R. apply selectedComponent_after_events. exact Sel1.
    + intros name. unfold u2. rewrite currentActions_assign.
      rewrite !C1, String.eqb_refl.
      destruct (String.eqb name ev) eqn:E; [|reflexivity].
      apply String.eqb_eq in E. subst name.
      apply filter_others; [exact Fresh | reflexivity].
  - rewrite R. unfold u2. rewrite updateComponent_events_ids.
    rewrite A. unfold u1. apply updateComponent_events_ids.
Qed.

Lemma added_action_can_be_removed_witness :
  let old := mkAction "a1" consoleLog (VObj [("message", VStr "hi")]) in
  let b := mkComponent "b" button None [] None (Some [("onClick", [old])])
             None in
  let state :=
    mkState (mkComponent "root" page None [] None None (Some [b]))
      (Some "b") [] in
  exists sc2,
    selectedComponent
      (removeAction "onClick" "a2" (handleAddAction "onClick" alert "a2" state))
    = Some sc2
    /\ forall name, currentActions sc2 name = currentActions b name.
Proof.
  intros old b state.
  destruct (added_action_can_be_removed "onClick" alert "a2" state b)
    as [_ [H _]].
  - reflexivity.
  - simpl. intros a [<-|[]]. discriminate.
  - exact H.
Defined.

(* ===================================================================== *)
(** * Properties of the renderer's computed values *)
(* ===================================================================== *)









(* ===================================================================== *)
(** * Editing sessions *)
(* ===================================================================== *)


Lemma deleteComponent_keeps_ok (target : string) (state : EditorState) :
  editor_tree_ok (root state) ->
  editor_tree_ok (root (deleteComponent target state))
  /\ incl (ids (root (deleteComponent target state))) (ids (root state)).
Proof.
  intros [ND [L [I T]]]. unfold deleteComponent.
  destruct (String.eqb target "root").
  { split; [repeat split; assumption | apply incl_refl]. }
  simpl. rewrite modified_delete.
  destruct (path_to target (root state)) as [[|j p]|] eqn:P;
    try (split; [repeat split; assumption | apply incl_refl]).
  destruct (path_to_valid _ _ _ P) as [x [S _]].
  pose proof (ids_delete_at (j :: p) _ _ ltac:(discriminate) S) as Perm.
  destruct (delete_at_id_type (j :: p) (root state)) as [Id Td].
  split; [split; [|split; [|split]]|].
  - eapply NoDup_app_remove_l. eapply Permutation_NoDup; eauto.
  - apply leaf_shaped_delete_at. exact L.
  - congruence.
  - congruence.
  - intros t Ht. apply (Permutation_in _ (Permutation_sym Perm)).
    apply in_or_app. right. exact Ht.
Qed.

Lemma swap_children_id_type (i j : nat) (m : ComponentSchema) :
  id (swap_children i j m) = id m /\ type (swap_children i j m) = type m.
Proof.
  unfold swap_children. destruct (children m); [destruct m; simpl|]; auto.
Qed.

Lemma moveComponent_root (target : string) (d : Direction)
  (state : EditorState) :
  root (moveComponent target d state) = root state
  \/ exists p i j,
       (exists parent, subtree_at p (root state) = Some parent)
       /\ root (moveComponent target d state)
          = update_at p (swap_children i j) (root state).
Proof.
  unfold moveComponent.
  destruct (String.eqb target "root"); [left; reflexivity|]. simpl.
  destruct (path_to target (root state)) as [path|] eqn:P.
  2:{ left. rewrite (modified_at _ _ _ (swap_callback_root d)), P.
      reflexivity. }
  destruct path as [|j path].
  { left. rewrite (modified_at _ _ _ (swap_callback_root d)), P.
    reflexivity. }
  destruct (exists_last (l := j :: path)) as [p [i E]]; [discriminate|].
  rewrite E in P.
  destruct (path_to_valid _ _ _ P) as [x [Sx _]].
  rewrite subtree_at_app in Sx.
  destruct (subtree_at p (root state)) as [parent|] eqn:S; [|discriminate].
  rewrite (modified_swap _ d _ _ _ _ P S).
  destruct d; [destruct (Nat.eqb i 0) | destruct (Nat.ltb _ _)];
    try (left; apply update_at_id); right; eauto 6.
Qed.

Lemma moveComponent_keeps_ok (target : string) (d : Direction)
  (state : EditorState) :
  editor_tree_ok (root state) ->
  editor_tree_ok (root (moveComponent target d state))
  /\ incl (ids (root (moveComponent target d state))) (ids (root state)).
Proof.
  intros [ND [L [I T]]].
  destruct (moveComponent_root target d state)
    as [E | [p [i [j [[parent S] E]]]]]; rewrite E.
  { split; [repeat split; assumption | apply incl_refl]. }
  assert (Perm : Permutation
                   (ids (update_at p (swap_children i j) (root state)))
                   ([] ++ ids (root state))).
  { eapply ids_update_at; eauto. intros m. apply ids_swap_children. }
  simpl in Perm.
  destruct (id_update_at (swap_children i j) p (root state)
              (swap_children_id_type i j)) as [Id Td].
  split; [split; [|split; [|split]]|].
  - eapply Permutation_NoDup; [symmetry; exact Perm | exact ND].
  - rewrite <- E. unfold moveComponent.
    destruct (String.eqb target "root"); [exact L|]. simpl.
    apply modified_keeps_leaves; auto using swap_callback_keeps_leaves.
  - congruence.
  - congruence.
  - intros t Ht. apply (Permutation_in _ Perm). exact Ht.
Qed.

Lemma updateComponent_keeps_ok (target : string) l p s ev
  (state : EditorState) :
  editor_tree_ok (root state) ->
  editor_tree_ok
    (root (updateComponent target (mkUpdates None None l p s ev None) state))
  /\ incl
       (ids (root (updateComponent target
                     (mkUpdates None None l p s ev None) state)))
       (ids (root state)).
Proof.
  intros [ND [L [I T]]].
  set (u := mkUpdates None None l p s ev None).
  assert (Ids : ids (root (updateComponent target u state))
                = ids (root state)).
  { unfold updateComponent. simpl. rewrite modified_node.
    destruct (path_to target (root state)); [|reflexivity].
    apply ids_update_at_same. intros m.
    destruct m as [mi mty ml mpr ms me [mcs|]]; reflexivity. }
  assert (IT : id (root (updateComponent target u state)) = id (root state)
               /\ type (root (updateComponent target u state))
                  = type (root state)).
  { unfold updateComponent. simpl. rewrite modified_node.
    destruct (path_to target (root state)) as [q|]; [|auto].
    apply id_update_at. intros m. destruct m; simpl; auto. }
  destruct IT as [Id Td].
  split; [split; [|split; [|split]]|].
  - rewrite Ids. exact ND.
  - unfold updateComponent. simpl.
    apply modified_keeps_leaves; [|exact L].
    apply assign_keeps_leaves; reflexivity.
  - congruence.
  - congruence.
  - rewrite Ids. apply incl_refl.
Qed.

Lemma handleAddComponent_ids (ty : ComponentType) (now : Z)
  (state : EditorState) :
  incl (ids (root (fst (handleAddComponent ty now state))))
    (id (newComponent ty now) :: ids (root state)).
Proof.
  assert (A : forall parentId,
             incl (ids (root (addComponent parentId ty now state)))
               (id (newComponent ty now) :: ids (root state))).
  { intros parentId.
    destruct (addComponent_ids parentId ty now state) as [E | P].
    - rewrite E. apply incl_tl, incl_refl.
    - intros t Ht. apply (Permutation_in _ P). exact Ht. }
  unfold handleAddComponent.
  destruct (selectedComponent state) as [sc|]; [|apply A].
  destruct (is_container_kind (type sc)); [apply A|].
  simpl. apply incl_tl, incl_refl.
Qed.

(** One edit keeps the tree in shape and brings in no id but the one an
    [EAdd] synthesizes. *)
Lemma apply_edit_keeps_ok (e : Edit) (state : EditorState) :
  editor_tree_ok (root state) ->
  (forall t, In t (added_ids [e]) -> ~ In t (ids (root state))) ->
  editor_tree_ok (root (apply_edit e state))
  /\ incl (ids (root (apply_edit e state)))
       (added_ids [e] ++ ids (root state)).
Proof.
  intros OK Fresh. destruct e as [t l p s ev | t | t d | a o | ty now | sel];
    simpl.
  - apply updateComponent_keeps_ok. exact OK.
  - apply deleteComponent_keeps_ok. exact OK.
  - apply moveComponent_keeps_ok. exact OK.
  - pose proof OK as [ND [L [I T]]].
    destruct (handleDragEnd_is_one_move a o state L I T)
      as [E | [index [q [target [S [K E]]]]]]; rewrite E.
    { split; [exact OK | apply incl_refl]. }
    destruct (moveComponentTo_keeps_ok a (id target) index state OK)
      as [OK' Perm].
    { intros q' x Sx Ix.
      exact (unique_id_kind (root state) target q ND S K q' x Sx Ix). }
    split; [exact OK'|]. intros t Ht. apply (Permutation_in _ Perm Ht).
  - split; [|apply handleAddComponent_ids].
    assert (F : ~ In (id (newComponent ty now)) (ids (root state)))
      by (apply Fresh; left; reflexivity).
    unfold handleAddComponent.
    destruct (selectedComponent state) as [sc|] eqn:Sel.
    + pose proof (selectedComponent_by_id _ _ Sel) as Fsc.
      rewrite is_container_kind_not_leaf.
      destruct (is_leaf_kind (type sc)) eqn:K; simpl; [exact OK|].
      apply addComponent_keeps_ok; eauto.
    + apply (addComponent_keeps_ok "root"); auto.
  - split; [exact OK | apply incl_refl].
Qed.

Lemma added_ids_cons (e : Edit) (edits : list Edit) :
  added_ids (e :: edits) = added_ids [e] ++ added_ids edits.
Proof. destruct e; reflexivity. Qed.

Lemma run_edits_keep_ok (edits : list Edit) :
  forall (state : EditorState) (known : list string),
    editor_tree_ok (root state) ->
    incl (ids (root state)) known ->
    NoDup (known ++ added_ids edits) ->
    editor_tree_ok (root (run_edits edits state)).
Proof.
  induction edits as [|e edits IH]; intros state known OK Inc ND;
    [exact OK|].
  rewrite added_ids_cons in ND.
  destruct (apply_edit_keeps_ok e state OK) as [OK' Inc'].
  { intros t Ht Hin.
    apply (NoDup_app_disjoint known (added_ids [e] ++ added_ids edits) t ND).
    - apply Inc. exact Hin.
    - apply in_or_app. left. exact Ht. }
  change (run_edits (e :: edits) state)
    with (run_edits edits (apply_edit e state)).
  apply (IH _ (known ++ added_ids [e]) OK').
  - intros t Ht. apply Inc' in Ht. apply in_app_or in Ht.
    apply in_or_app. destruct Ht as [Ht|Ht]; [right | left]; auto.
  - rewrite <- app_assoc. exact ND.
Qed.

(** X19.  A whole editing session keeps the tree in shape: starting from
    a tree with unique ids, childless leaves and a container root named
    ['root'], any sequence of property updates, deletions, moves, drops,
    additions from the component library and selections ends in such a
    tree, provided the ids the additions synthesize differ from one
    another and from the ids the tree starts with. *)
Theorem editing_sessions_keep_the_tree_ok :
  forall (edits : list Edit) (state : EditorState),
    editor_tree_ok (root state) ->
    NoDup (ids (root state) ++ added_ids edits) ->
    editor_tree_ok (root (run_edits edits state)).
Proof.
  intros edits state OK ND.
  apply (run_edits_keep_ok edits state (ids (root state)) OK);
    [apply incl_refl | exact ND].
Qed.

Lemma editing_sessions_keep_the_tree_ok_witness :
  let state := mkState initialRoot None [] in
  editor_tree_ok
    (root (run_edits
             [EAdd container 1%Z; EAdd button 2%Z;
              EDrop "button_2" (Some "container_1");
              EMove "container_1" down; EDelete "button_2";
              EAdd button 3%Z]
             state)).
Proof.
  intros state. apply editing_sessions_keep_the_tree_ok.
  - repeat split; try reflexivity.
    repeat constructor; simpl; intuition discriminate.
  - repeat constructor; simpl; intuition discriminate.
Defined.

(** X20.  [updateActionConfig] changes, in the chosen event of the
    selected component, exactly the actions with the given id, keeping
    their id, their type and their place; the config of such an action
    becomes the old one overlaid with the new one, a key of the new
    config taking its value from there and any other key keeping its old
    value.  The other events are left alone. *)
Theorem updateActionConfig_overlays_the_config :
  forall (eventName actionId : string) (newConfig : value)
         (state : EditorState) (sc : ComponentSchema),
    selectedComponent state = Some sc ->
    NoDup (map fst (entries newConfig)) ->
    (forall a, In a (currentActions sc eventName) ->
               NoDup (map fst (entries (config a)))) ->
    exists sc',
      selectedComponent
        (updateActionConfig eventName actionId newConfig state) = Some sc'
      /\ (forall other, other <> eventName ->
                        currentActions sc' other = currentActions sc other)
      /\ List.length (currentActions sc' eventName)
         = List.length (currentActions sc eventName)
      /\ forall i a,
           nth_error (currentActions sc eventName) i = Some a ->
           if String.eqb (action_id a) actionId
           then exists merged,
                  nth_error (currentActions sc' eventName) i
                  = Some (mkAction (action_id a) (action_type a)
                            (VObj merged))
                  /\ forall key,
                       get_key merged key
                       = match get_key (entries newConfig) key with
                         | Some v => Some v
                         | None => get_key (entries (config a)) key
                         end
           else nth_error (currentActions sc' eventName) i = Some a.
Proof.
  intros ev actionId newConfig state sc Sel NDn NDc.
  unfold updateActionConfig. rewrite Sel.
  match goal with
  | |- context [events_update sc ev ?l] => set (new := l)
  end.
  exists (assign sc (events_update sc ev new)).
  split; [apply selectedComponent_after_events; exact Sel|].
  split; [|split].
  - intros other H. rewrite currentActions_assign.
    apply String.eqb_neq in H. rewrite H. reflexivity.
  - rewrite currentActions_assign, String.eqb_refl.
    unfold new. apply length_map.
  - intros i a N. rewrite currentActions_assign, String.eqb_refl.
    unfold new. rewrite nth_error_map, N. simpl.
    destruct (String.eqb (action_id a) actionId); [|reflexivity].
    eexists. split; [reflexivity|].
    intros key. rewrite get_key_spread by exact NDn.
    destruct (get_key (entries newConfig) key); [reflexivity|].
    rewrite get_key_spread; [|apply NDc; eapply nth_error_In; eauto].
    destruct (get_key (entries (config a)) key); reflexivity.
Qed.

Lemma updateActionConfig_overlays_the_config_witness :
  let act := mkAction "a1" n8n_webhook
               (VObj [("url", VStr "u"); ("method", VStr "POST")]) in
  let b := mkComponent "b" button None [] None (Some [("onClick", [act])])
             None in
  let state :=
    mkState (mkComponent "root" page None [] None None (Some [b]))
      (Some "b") [] in
  exists sc',
    selectedComponent
      (updateActionConfig "onClick" "a1" (VObj [("method", VStr "GET")])
         state) = Some sc'
    /\ List.length (currentActions sc' "onClick") = 1.
Proof.
  intros act b state.
  destruct (updateActionConfig_overlays_the_config "onClick" "a1"
              (VObj [("method", VStr "GET")]) state b)
    as [sc' [S [_ [Len _]]]].
  - reflexivity.
  - repeat constructor; simpl; intuition discriminate.
  - simpl. intros a [<-|[]].
    repeat constructor; simpl; intuition discriminate.
  - exists sc'. split; [exact S | exact Len].
Defined.
